(** * Background job orchestration of the web UI: a shallow embedding

    The development follows the job manager ([jobManager.ts]), the two
    validation launchers ([api/validate/+server.ts] and
    [validationTrigger.ts]), the sort launcher ([api/sort/+server.ts]), the
    progress stream endpoint and the status endpoint.

    The serving process is single threaded: every request handler, child
    process callback and timer callback runs to completion (or to its next
    [await]) before another one starts.  The embedding is therefore a
    labelled transition system: one label per callback, one deterministic
    step function, and the environment (clients, the operating system, the
    clock) chooses the labels. *)

From stdpp Require Import base option list strings pretty.
From stdpp Require Import relations.
From Stdlib Require Import Ascii ZArith Lia.

Local Open Scope Z_scope.
Set Warnings "-register-all".

(** ** JavaScript strings *)

(** A JavaScript string is a sequence of UTF-16 code units. *)
Abbreviation jsstring := (list N) (only parsing).

(** The code unit of an 8-bit character. *)
Definition code_unit (c : ascii) : N := N_of_ascii c.

(** [js "abc"] is the JavaScript string literal ['abc']. *)
Fixpoint js (s : string) : jsstring :=
  match s with
  | EmptyString => []
  | String c r => code_unit c :: js r
  end.

(** [jq] writes sample subprocess output: as [js], except that an apostrophe
    of the literal stands for a double quote of the text. *)
Definition jq (s : string) : jsstring :=
  (λ c, if decide (c = 39%N) then 34%N else c) <$> js s.

(** [String.prototype.trim]: strips WhiteSpace and LineTerminator code units
    from both ends. *)
Definition is_js_space (c : N) : bool :=
  bool_decide (c ∈ [9; 10; 11; 12; 13; 32; 160; 5760; 8232; 8233; 8239; 8287;
                    12288; 65279]%N)
  || bool_decide (8192 ≤ c ≤ 8202)%N.

Fixpoint trim_start (s : jsstring) : jsstring :=
  match s with
  | c :: r => if is_js_space c then trim_start r else s
  | [] => []
  end.

Definition trim (s : jsstring) : jsstring :=
  reverse (trim_start (reverse (trim_start s))).

(** Truthiness of a string: the empty string is falsy. *)
Definition truthy_string (s : jsstring) : bool :=
  match s with [] => false | _ => true end.

(** [s.split('\n')]: always at least one piece. *)
Fixpoint split_nl (s : jsstring) : list jsstring :=
  match s with
  | [] => [[]]
  | c :: r =>
      if decide (c = 10%N) then [] :: split_nl r
      else match split_nl r with
           | l :: ls => (c :: l) :: ls
           | [] => [[c]]
           end
  end.

(** [Array.prototype.pop]: the array without its last element, and that
    element ([None] is [undefined], for an empty array). *)
Definition pop {A} (l : list A) : list A * option A :=
  (removelast l, last l).

(** ** JSON.parse *)

Module JSON.

(** The values [JSON.parse] can return.  A number keeps the text of its
    literal; no code here computes with it. *)
Inductive value :=
| JNull
| JBool (b : bool)
| JNumber (lexeme : jsstring)
| JString (s : jsstring)
| JArray (elements : list value)
| JObject (members : list (jsstring * value)).

Definition is_ws (c : N) : bool :=
  bool_decide (c ∈ [9; 10; 13; 32]%N).

Fixpoint skip_ws (s : jsstring) : jsstring :=
  match s with
  | c :: r => if is_ws c then skip_ws r else s
  | [] => []
  end.

Definition is_digit (c : N) : bool := bool_decide (48 ≤ c ≤ 57)%N.

(** The longest prefix of digits, and the rest. *)
Fixpoint digits (s : jsstring) : jsstring * jsstring :=
  match s with
  | c :: r =>
      if is_digit c then let '(d, r') := digits r in (c :: d, r')
      else ([], s)
  | [] => ([], [])
  end.

Definition hex_digit (c : N) : option N :=
  if bool_decide (48 ≤ c ≤ 57)%N then Some (c - 48)%N
  else if bool_decide (65 ≤ c ≤ 70)%N then Some (c - 55)%N
  else if bool_decide (97 ≤ c ≤ 102)%N then Some (c - 87)%N
  else None.

(** The characters of a string literal after its opening quote, up to and
    including the closing quote. *)
Fixpoint string_chars (s : jsstring) : option (jsstring * jsstring) :=
  match s with
  | [] => None
  | 34%N :: r => Some ([], r)
  | 92%N :: e :: r =>
      match e with
      | 117%N =>
          match r with
          | a :: b :: c :: d :: r' =>
              match hex_digit a, hex_digit b, hex_digit c, hex_digit d with
              | Some a, Some b, Some c, Some d =>
                  match string_chars r' with
                  | Some (t, r'') =>
                      Some ((((a * 16 + b) * 16 + c) * 16 + d)%N :: t, r'')
                  | None => None
                  end
              | _, _, _, _ => None
              end
          | _ => None
          end
      | _ =>
          let decoded :=
            match e with
            | 34%N => Some 34%N | 92%N => Some 92%N | 47%N => Some 47%N
            | 98%N => Some 8%N | 102%N => Some 12%N | 110%N => Some 10%N
            | 114%N => Some 13%N | 116%N => Some 9%N
            | _ => None
            end in
          match decoded, string_chars r with
          | Some c, Some (t, r') => Some (c :: t, r')
          | _, _ => None
          end
      end
  | c :: r =>
      if bool_decide (c < 32)%N then None
      else if decide (c = 92%N) then None
      else match string_chars r with
           | Some (t, r') => Some (c :: t, r')
           | None => None
           end
  end.

(** A number literal: an optional minus sign; an integer part, which is a
    single zero or starts with a digit from 1 to 9; an optional fraction (a
    dot and at least one digit); an optional exponent (e or E, an optional
    sign, at least one digit). *)
Definition number (s : jsstring) : option (jsstring * jsstring) :=
  let '(sign, s1) :=
    match s with 45%N :: r => ([45%N], r) | _ => ([], s) end in
  let '(int, s2) := digits s1 in
  match int with
  | [] => None
  | 48%N :: _ :: _ => None
  | _ =>
      let frac :=
        match s2 with
        | 46%N :: r =>
            let '(f, s3) := digits r in
            match f with [] => None | _ => Some (46%N :: f, s3) end
        | _ => Some ([], s2)
        end in
      match frac with
      | None => None
      | Some (f, s3) =>
          let expo :=
            match s3 with
            | e :: r =>
                if bool_decide (e ∈ [69; 101]%N) then
                  let '(sg, r1) :=
                    match r with
                    | g :: r' =>
                        if bool_decide (g ∈ [43; 45]%N) then ([g], r')
                        else ([], r)
                    | [] => ([], r)
                    end in
                  let '(d, s4) := digits r1 in
                  match d with
                  | [] => None
                  | _ => Some (e :: sg ++ d, s4)
                  end
                else Some ([], s3)
            | [] => Some ([], s3)
            end in
          match expo with
          | None => None
          | Some (x, s4) => Some (sign ++ int ++ f ++ x, s4)
          end
      end
  end.

(** [strip_prefix p s] is the rest of [s] after the prefix [p]. *)
Fixpoint strip_prefix (p s : jsstring) : option jsstring :=
  match p, s with
  | [], _ => Some s
  | a :: p', b :: s' => if decide (a = b) then strip_prefix p' s' else None
  | _ :: _, [] => None
  end.

(** Recursive descent over values, array elements and object members; every
    call spends one unit of [fuel]. *)
Fixpoint parse_value (fuel : nat) (s : jsstring) : option (value * jsstring) :=
  match fuel with
  | O => None
  | S fuel =>
      match skip_ws s with
      | 123%N :: r =>
          match skip_ws r with
          | 125%N :: r' => Some (JObject [], r')
          | r1 => parse_members fuel r1 []
          end
      | 91%N :: r =>
          match skip_ws r with
          | 93%N :: r' => Some (JArray [], r')
          | r1 => parse_elements fuel r1 []
          end
      | 34%N :: r =>
          match string_chars r with
          | Some (t, r') => Some (JString t, r')
          | None => None
          end
      | 116%N :: r =>
          r' ← strip_prefix (js "rue") r; Some (JBool true, r')
      | 102%N :: r =>
          r' ← strip_prefix (js "alse") r; Some (JBool false, r')
      | 110%N :: r =>
          r' ← strip_prefix (js "ull") r; Some (JNull, r')
      | s1 =>
          match number s1 with
          | Some (n, r') => Some (JNumber n, r')
          | None => None
          end
      end
  end
with parse_elements (fuel : nat) (s : jsstring) (acc : list value)
  : option (value * jsstring) :=
  match fuel with
  | O => None
  | S fuel =>
      match parse_value fuel s with
      | Some (v, r) =>
          match skip_ws r with
          | 44%N :: r' => parse_elements fuel r' (v :: acc)
          | 93%N :: r' => Some (JArray (reverse (v :: acc)), r')
          | _ => None
          end
      | None => None
      end
  end
with parse_members (fuel : nat) (s : jsstring) (acc : list (jsstring * value))
  : option (value * jsstring) :=
  match fuel with
  | O => None
  | S fuel =>
      match skip_ws s with
      | 34%N :: r =>
          match string_chars r with
          | Some (k, r1) =>
              match skip_ws r1 with
              | 58%N :: r2 =>
                  match parse_value fuel r2 with
                  | Some (v, r3) =>
                      match skip_ws r3 with
                      | 44%N :: r' => parse_members fuel r' ((k, v) :: acc)
                      | 125%N :: r' =>
                          Some (JObject (reverse ((k, v) :: acc)), r')
                      | _ => None
                      end
                  | None => None
                  end
              | _ => None
              end
          | None => None
          end
      | _ => None
      end
  end.

(** [JSON.parse(text)]: one value, surrounded by optional white space;
    [None] is a thrown [SyntaxError]. *)
Definition parse (text : jsstring) : option value :=
  match parse_value (2 * length text + 2) text with
  | Some (v, r) => match skip_ws r with [] => Some v | _ => None end
  | None => None
  end.

(** [o.key] for a parsed value [o] that is not [null]: the member written
    last under that key; [None] is [undefined].  Primitives and arrays
    have none of the properties read by the launchers. *)
Fixpoint lookup_member (k : jsstring) (ms : list (jsstring * value))
  : option value :=
  match ms with
  | [] => None
  | (k', v) :: r =>
      match lookup_member k r with
      | Some w => Some w
      | None => if decide (k' = k) then Some v else None
      end
  end.

Definition prop (o : value) (k : jsstring) : option value :=
  match o with
  | JObject ms => lookup_member k ms
  | _ => None
  end.

End JSON.

Import JSON.

(** ** The data model ([jobManager.ts]) *)

Inductive job_type := validation | sort.
Inductive job_status := running | complete | error.

Global Instance job_type_eq_dec : EqDecision job_type.
Proof. solve_decision. Defined.
Global Instance job_status_eq_dec : EqDecision job_status.
Proof. solve_decision. Defined.

(** The entries of [job.events]: a progress object as it was parsed, or one
    of the two objects the launchers and the sweeper build themselves. *)
Inductive event :=
| progress_event (parsed : JSON.value)
| complete_event (result : JSON.value)
| error_event (message : jsstring) (stderr : option jsstring).

(** Objects live in a store and are named by their address.  A launch
    allocates one [Job] object, spawns at most one child process and creates
    one closure for its listeners: the three share one address. *)
Abbreviation ref := nat (only parsing).

Module Job.
(** [interface Job]; [None] is an absent optional field. *)
Record t := mk {
  id : jsstring;
  type : job_type;
  startTime : Z;
  status : job_status;
  events : list event;
  process : option ref;
  result : option JSON.value;
  endTime : option Z
}.

Definition set_status (x : job_status) (j : t) : t :=
  mk (id j) (type j) (startTime j) x (events j) (process j) (result j)
     (endTime j).
Definition push_event (e : event) (j : t) : t :=
  mk (id j) (type j) (startTime j) (status j) (events j ++ [e]) (process j)
     (result j) (endTime j).
Definition set_process (p : ref) (j : t) : t :=
  mk (id j) (type j) (startTime j) (status j) (events j) (Some p) (result j)
     (endTime j).
Definition set_result (r : JSON.value) (j : t) : t :=
  mk (id j) (type j) (startTime j) (status j) (events j) (process j) (Some r)
     (endTime j).
Definition set_endTime (n : Z) (j : t) : t :=
  mk (id j) (type j) (startTime j) (status j) (events j) (process j)
     (result j) (Some n).

(** [job.status === 'complete' || job.status === 'error'] *)
Definition terminal (j : t) : bool :=
  bool_decide (status j = complete) || bool_decide (status j = error).
End Job.

(** One launch: the [Job] object, and the variables captured by the
    listeners of its child process ([finalResult] starts as [null], which
    is [JNull]).  [attached] records that the process was spawned and has
    not yet emitted ['close']: only then does the environment deliver its
    events. *)
Record launch := mk_launch {
  job : Job.t;
  stdoutBuffer : jsstring;
  stderrBuffer : jsstring;
  finalResult : JSON.value;
  attached : bool
}.

Definition with_job (f : Job.t → Job.t) (l : launch) : launch :=
  mk_launch (f (job l)) (stdoutBuffer l) (stderrBuffer l) (finalResult l)
            (attached l).

(** One connection to the progress stream: the [job] captured at connect
    time, and the variables of the [ReadableStream]. *)
Record stream := mk_stream {
  source : ref;
  eventIndex : nat;
  intervalHandle : bool;
  closed : bool
}.

(** [activeJobs] is a JavaScript [Map]: it iterates in insertion order, so it
    is kept as an association list with at most one entry per key. *)
Abbreviation jobmap := (list (jsstring * ref)) (only parsing).

Fixpoint map_get (k : jsstring) (m : jobmap) : option ref :=
  match m with
  | [] => None
  | (k', v) :: r => if decide (k' = k) then Some v else map_get k r
  end.

Fixpoint map_set (k : jsstring) (v : ref) (m : jobmap) : jobmap :=
  match m with
  | [] => [(k, v)]
  | (k', v') :: r =>
      if decide (k' = k) then (k, v) :: r else (k', v') :: map_set k v r
  end.

Definition map_delete (k : jsstring) (m : jobmap) : jobmap :=
  filter (λ e, e.1 ≠ k) m.

(** The state of the serving process.  [pending] counts the validation
    requests suspended at [await request.json()], after they took the lock. *)
Record state := mk_state {
  activeJobs : jobmap;
  validationLock : bool;
  store : list launch;
  streams : list stream;
  pending : nat
}.

Definition init : state := mk_state [] false [] [] 0.

Definition set_activeJobs (m : jobmap) (s : state) : state :=
  mk_state m (validationLock s) (store s) (streams s) (pending s).
Definition set_validationLock (b : bool) (s : state) : state :=
  mk_state (activeJobs s) b (store s) (streams s) (pending s).
Definition set_store (h : list launch) (s : state) : state :=
  mk_state (activeJobs s) (validationLock s) h (streams s) (pending s).
Definition set_streams (ss : list stream) (s : state) : state :=
  mk_state (activeJobs s) (validationLock s) (store s) ss (pending s).
Definition set_pending (n : nat) (s : state) : state :=
  mk_state (activeJobs s) (validationLock s) (store s) (streams s) n.

(** [tryAcquireValidationLock] *)
Definition tryAcquireValidationLock (s : state) : bool * state :=
  if validationLock s then (false, s)
  else (true, set_validationLock true s).

(** [releaseValidationLock] *)
Definition releaseValidationLock (s : state) : state :=
  set_validationLock false s.

(** [getActiveValidationJob]: the first running validation job in iteration
    order. *)
Fixpoint first_running_validation (h : list launch) (m : jobmap)
  : option Job.t :=
  match m with
  | [] => None
  | (_, a) :: r =>
      match h !! a with
      | Some l =>
          if bool_decide (Job.type (job l) = validation)
             && bool_decide (Job.status (job l) = running)
          then Some (job l)
          else first_running_validation h r
      | None => first_running_validation h r
      end
  end.

Definition getActiveValidationJob (s : state) : option Job.t :=
  first_running_validation (store s) (activeJobs s).

(** [hasActiveValidationJob] *)
Definition hasActiveValidationJob (s : state) : bool :=
  match getActiveValidationJob s with Some _ => true | None => false end.

(** ** What a step does to the outside *)

(** The call sites of [releaseValidationLock]. *)
Inductive release_site :=
| by_error_listener (a : ref)
| by_close_listener (a : ref)
| by_sweeper (a : ref)
| by_catch.

Inductive response :=
| conflict_409
| internal_error_500
| launched (jobId sseUrl : jsstring)
| not_found_404 (body : jsstring)
| event_stream (sid : nat)
| status_report (running_job : option (jsstring * Z * job_status)).

Inductive effect :=
| respond (r : response)
| trigger_resolved (started : bool)
| trigger_rejected
| spawn (p : ref) (args : list jsstring)
| kill_SIGTERM (p : ref)
| lock_released (site : release_site)
| enqueue (sid : nat) (e : event)
| close_stream (sid : nat).

(** ** The listeners of a child process *)

Definition set_stdoutBuffer (b : jsstring) (l : launch) : launch :=
  mk_launch (job l) b (stderrBuffer l) (finalResult l) (attached l).
Definition set_stderrBuffer (b : jsstring) (l : launch) : launch :=
  mk_launch (job l) (stdoutBuffer l) b (finalResult l) (attached l).
Definition set_finalResult (v : JSON.value) (l : launch) : launch :=
  mk_launch (job l) (stdoutBuffer l) (stderrBuffer l) v (attached l).
Definition set_attached (b : bool) (l : launch) : launch :=
  mk_launch (job l) (stdoutBuffer l) (stderrBuffer l) (finalResult l) b.

(** The field whose presence marks a final result: [parsed.errors] in the
    validation launchers, [parsed.stats] in the sort launcher. *)
Definition result_marker (t : job_type) : jsstring :=
  match t with validation => js "errors" | sort => js "stats" end.

(** [parsed.type === 'progress'] *)
Definition is_progress (parsed : JSON.value) : bool :=
  match JSON.prop parsed (js "type") with
  | Some (JString s) => bool_decide (s = js "progress")
  | _ => false
  end.

(** The body of [for (const line of lines)].  Reading a property of [null]
    throws inside the [try], so a line holding [null] ends in the empty
    [catch] like a line that does not parse. *)
Definition handle_line (t : job_type) (l : launch) (line : jsstring) : launch :=
  if negb (truthy_string (trim line)) then l
  else
    match JSON.parse line with
    | None => l
    | Some JNull => l
    | Some parsed =>
        if is_progress parsed then
          with_job (Job.push_event (progress_event parsed)) l
        else
          match JSON.prop parsed (result_marker t) with
          | Some _ => set_finalResult parsed l
          | None => l
          end
    end.

(** [lines.pop() || ''] *)
Definition or_empty (x : option jsstring) : jsstring :=
  match x with
  | Some s => if truthy_string s then s else []
  | None => []
  end.

(** [pythonProcess.stdout.on('data', ...)] *)
Definition on_stdout_data (data : jsstring) (l : launch) : launch :=
  let buffer := stdoutBuffer l ++ data in
  let '(lines, rest) := pop (split_nl buffer) in
  foldl (handle_line (Job.type (job l))) (set_stdoutBuffer (or_empty rest) l)
        lines.

(** [pythonProcess.stderr.on('data', ...)] *)
Definition on_stderr_data (data : jsstring) (l : launch) : launch :=
  set_stderrBuffer (stderrBuffer l ++ data) l.

(** [pythonProcess.on('error', ...)] of the validation launchers, up to the
    release of the lock. *)
Definition on_error (now : Z) (message : jsstring) (l : launch) : launch :=
  with_job
    (λ j, Job.set_endTime now
            (Job.push_event
               (error_event
                  (js "Failed to spawn validation process: " ++ message) None)
               (Job.set_status error j)))
    l.

(** The first statement of [pythonProcess.on('close', ...)]: the rest of the
    buffer, when it is not blank, is parsed and assigned to [finalResult]. *)
Definition parse_remaining (l : launch) : launch :=
  if truthy_string (trim (stdoutBuffer l)) then
    match JSON.parse (trim (stdoutBuffer l)) with
    | Some v => set_finalResult v l
    | None => l
    end
  else l.

(** A template literal prints [null] for a process killed by a signal. *)
Definition code_text (code : option Z) : jsstring :=
  match code with
  | Some z => js (pretty z)
  | None => js "null"
  end.

Definition exit_message (t : job_type) (code : option Z) : jsstring :=
  match t with
  | validation => js "Validation process exited with code "
  | sort => js "Sort process exited with code "
  end ++ code_text code.

(** [code === 0 || code === 1] *)
Definition normal_exit (code : option Z) : bool :=
  match code with
  | Some z => bool_decide (z = 0) || bool_decide (z = 1)
  | None => false
  end.

(** [pythonProcess.on('close', ...)], up to the release of the lock. *)
Definition on_close (now : Z) (code : option Z) (l : launch) : launch :=
  let l1 := parse_remaining l in
  let l2 :=
    if normal_exit code then
      with_job
        (λ j, Job.push_event (complete_event (finalResult l1))
                (Job.set_result (finalResult l1) (Job.set_status complete j)))
        l1
    else
      with_job
        (λ j, Job.push_event
                (error_event (exit_message (Job.type j) code)
                             (Some (stderrBuffer l1)))
                (Job.set_status error j))
        l1 in
  set_attached false (with_job (Job.set_endTime now) l2).

(** ** The launchers *)

Definition update (a : ref) (f : launch → launch) (s : state) : state :=
  set_store (alter f a (store s)) s.

Definition validation_current : jsstring := js "validation-current".

(** The argument vector of a validation run; [type] is the field of the
    request body ([None] when absent, which stands for ['full']). *)
Definition validation_args (type : option jsstring) : list jsstring :=
  [js "-m"; js "ofd"; js "validate"; js "--json"; js "--progress"]
  ++ match type with
     | Some t =>
         if decide (t = js "json_files") then [js "--json-files"]
         else if decide (t = js "logo_files") then [js "--logo-files"]
         else if decide (t = js "folder_names") then [js "--folder-names"]
         else if decide (t = js "store_ids") then [js "--store-ids"]
         else []
     | None => []
     end.

Definition sort_args (dryRun runValidation : bool) : list jsstring :=
  [js "-m"; js "ofd"; js "script"; js "style_data"; js "--json";
   js "--progress"]
  ++ (if dryRun then [js "--dry-run"] else [])
  ++ (if runValidation then [js "--validate"] else []).

Definition new_job (jobId : jsstring) (t : job_type) (now : Z) : Job.t :=
  Job.mk jobId t now running [] None None None.

(** [activeJobs.set(jobId, job); spawn(...); job.process = pythonProcess],
    with the listeners attached.  [spawns = false] is a [spawn] that throws:
    the job is registered and nothing else happens.  The result is the new
    state and the address of the job. *)
Definition register_and_spawn (jobId : jsstring) (t : job_type) (now : Z)
    (spawns : bool) (s : state) : state * ref :=
  let a := length (store s) in
  let l := mk_launch (new_job jobId t now) [] [] JNull false in
  let s1 := set_store (store s ++ [l]) s in
  let s2 := set_activeJobs (map_set jobId a (activeJobs s1)) s1 in
  if spawns then
    (update a (λ l, set_attached true (with_job (Job.set_process a) l)) s2, a)
  else (s2, a).

(** "Clean up old validation-current job if it exists and is complete". *)
Definition evict_finished (jobId : jsstring) (s : state) : state :=
  match map_get jobId (activeJobs s) with
  | Some a =>
      match store s !! a with
      | Some l =>
          if Job.terminal (job l) then
            set_activeJobs (map_delete jobId (activeJobs s)) s
          else s
      | None => s
      end
  | None => s
  end.

(** ** The periodic cleanup ([startCleanupInterval]) *)

(** [job.endTime && now - job.endTime > 5 * 60 * 1000] *)
Definition expired (now : Z) (j : Job.t) : bool :=
  match Job.endTime j with
  | Some t => bool_decide (t ≠ 0) && bool_decide (now - t > 5 * 60 * 1000)
  | None => false
  end.

(** [job.status === 'running' && now - job.startTime > 30 * 60 * 1000] *)
Definition timed_out (now : Z) (j : Job.t) : bool :=
  bool_decide (Job.status j = running)
  && bool_decide (now - Job.startTime j > 30 * 60 * 1000).

(** What the loop does to the job object of a run that timed out. *)
Definition time_out (now : Z) (l : launch) : launch :=
  with_job
    (λ j, Job.set_endTime now
            (Job.push_event
               (error_event (js "Job timed out after 30 minutes") None)
               (Job.set_status error j)))
    l.

(** One round of the loop over [activeJobs.entries()]. *)
Definition sweep_entry (now : Z) (acc : state * list effect)
    (e : jsstring * ref) : state * list effect :=
  let '(s, out) := acc in
  let '(jobId, a) := e in
  match store s !! a with
  | None => acc
  | Some l =>
      let j := job l in
      let s1 :=
        if expired now j then
          set_activeJobs (map_delete jobId (activeJobs s)) s
        else s in
      if timed_out now j then
        let s2 := update a (time_out now) s1 in
        let kills :=
          match Job.process j with
          | Some p => [kill_SIGTERM p]
          | None => []
          end in
        if bool_decide (Job.type j = validation) then
          (releaseValidationLock s2,
           out ++ kills ++ [lock_released (by_sweeper a)])
        else (s2, out ++ kills)
      else (s1, out)
  end.

Definition sweep (now : Z) (s : state) : state * list effect :=
  foldl (sweep_entry now) (s, []) (activeJobs s).

(** ** The transition system *)

(** What the environment can make the serving process do: the two halves
    of a validation request (before and after [await request.json()]), a
    call of [triggerBackgroundValidation] by a page action, a sort request,
    the events of a child process, a tick of the cleanup timer, a stream
    request, a tick of a stream's poll timer, a cancellation by the
    observer, a status request.

    [spawns] tells whether [spawn] returns a process or throws; a request
    body is [None] when [request.json()] or the destructuring of its value
    throws.  The [data] of an output event is the text of the chunk, that
    is [data.toString()]. *)
Inductive label :=
| POST_validate
| POST_validate_resume (body : option (option jsstring)) (spawns : bool)
| trigger_call (spawns : bool)
| POST_sort (body : option (bool * bool)) (uuid : jsstring) (spawns : bool)
| stdout_data (p : ref) (data : jsstring)
| stderr_data (p : ref) (data : jsstring)
| process_error (p : ref) (message : jsstring)
| process_close (p : ref) (code : option Z)
| cleanup_tick
| GET_stream (jobId : jsstring)
| poll_tick (sid : nat)
| cancel (sid : nat)
| GET_status.

(** The child process [p] can still emit events. *)
Definition listening (s : state) (p : ref) : option launch :=
  match store s !! p with
  | Some l => if attached l then Some l else None
  | None => None
  end.

(** [POST] of [api/validate/+server.ts], from [await request.json()] on. *)
Definition validate_resume (now : Z) (body : option (option jsstring))
    (spawns : bool) (s : state) : state * list effect :=
  match body with
  | None =>
      (releaseValidationLock s,
       [lock_released by_catch; respond internal_error_500])
  | Some type =>
      let jobId := validation_current in
      let '(s1, a) :=
        register_and_spawn jobId validation now spawns
                           (evict_finished jobId s) in
      if spawns then
        (s1, [spawn a (validation_args type);
              respond (launched jobId (js "/api/validate/stream/" ++ jobId))])
      else
        (releaseValidationLock s1,
         [lock_released by_catch; respond internal_error_500])
  end.

(** [triggerBackgroundValidation] of [validationTrigger.ts]; it has no
    [try]: a [spawn] that throws rejects the returned promise. *)
Definition triggerBackgroundValidation (now : Z) (spawns : bool)
    (s : state) : state * list effect :=
  let '(acquired, s0) := tryAcquireValidationLock s in
  if negb acquired then (s0, [trigger_resolved false])
  else
    let jobId := validation_current in
    let '(s1, a) :=
      register_and_spawn jobId validation now spawns
                         (evict_finished jobId s0) in
    if spawns then (s1, [spawn a (validation_args None); trigger_resolved true])
    else (s1, [trigger_rejected]).

(** [POST] of [api/sort/+server.ts]. *)
Definition sort_launch (now : Z) (body : option (bool * bool))
    (uuid : jsstring) (spawns : bool) (s : state) : state * list effect :=
  match body with
  | None => (s, [respond internal_error_500])
  | Some (dryRun, runValidation) =>
      let '(s1, a) := register_and_spawn uuid sort now spawns s in
      if spawns then
        (s1, [spawn a (sort_args dryRun runValidation);
              respond (launched uuid (js "/api/sort/stream/" ++ uuid))])
      else (s1, [respond internal_error_500])
  end.

(** [GET] of the stream endpoint, for a job found in [activeJobs]: the
    [start] method of the [ReadableStream] runs at once. *)
Definition open_stream (a : ref) (l : launch) (s : state)
  : state * list effect :=
  let sid := length (streams s) in
  let j := job l in
  let st :=
    mk_stream a (length (Job.events j)) (negb (Job.terminal j))
              (Job.terminal j) in
  (set_streams (streams s ++ [st]) s,
   (enqueue sid <$> Job.events j)
   ++ (if Job.terminal j then [close_stream sid] else [])
   ++ [respond (event_stream sid)]).

(** The callback of [setInterval] in the stream endpoint. *)
Definition poll (sid : nat) (st : stream) (l : launch) (s : state)
  : state * list effect :=
  let j := job l in
  let st' :=
    mk_stream (source st) (length (Job.events j))
              (if Job.terminal j then false else intervalHandle st)
              (if Job.terminal j then true else closed st) in
  (set_streams (<[sid := st']> (streams s)) s,
   (enqueue sid <$> drop (eventIndex st) (Job.events j))
   ++ (if Job.terminal j then [close_stream sid] else [])).

(** [GET] of [api/validate/status/+server.ts]. *)
Definition status_response (s : state) : response :=
  status_report
    (match getActiveValidationJob s with
     | Some j => Some (Job.id j, Job.startTime j, Job.status j)
     | None => None
     end).

(** One callback, run at clock value [now].  The result is [None] for a
    label the environment cannot produce in that state: an event of a
    process that was never spawned or has closed, a resumption nobody
    waits for, a tick of a timer that is not armed.  A sort process has no
    ['error'] listener: the event would end the serving process. *)
Definition step (now : Z) (lb : label) (s : state)
  : option (state * list effect) :=
  match lb with
  | POST_validate =>
      let '(acquired, s1) := tryAcquireValidationLock s in
      if negb acquired then Some (s1, [respond conflict_409])
      else Some (set_pending (S (pending s1)) s1, [])
  | POST_validate_resume body spawns =>
      match pending s with
      | O => None
      | S n => Some (validate_resume now body spawns (set_pending n s))
      end
  | trigger_call spawns => Some (triggerBackgroundValidation now spawns s)
  | POST_sort body uuid spawns => Some (sort_launch now body uuid spawns s)
  | stdout_data p data =>
      _ ← listening s p; Some (update p (on_stdout_data data) s, [])
  | stderr_data p data =>
      _ ← listening s p; Some (update p (on_stderr_data data) s, [])
  | process_error p message =>
      l ← listening s p;
      match Job.type (job l) with
      | validation =>
          Some (releaseValidationLock (update p (on_error now message) s),
                [lock_released (by_error_listener p)])
      | sort => None
      end
  | process_close p code =>
      l ← listening s p;
      match Job.type (job l) with
      | validation =>
          Some (releaseValidationLock (update p (on_close now code) s),
                [lock_released (by_close_listener p)])
      | sort => Some (update p (on_close now code) s, [])
      end
  | cleanup_tick => Some (sweep now s)
  | GET_stream jobId =>
      match map_get jobId (activeJobs s) with
      | None => Some (s, [respond (not_found_404 (js "Job not found"))])
      | Some a => l ← store s !! a; Some (open_stream a l s)
      end
  | poll_tick sid =>
      st ← streams s !! sid;
      if intervalHandle st then
        l ← store s !! source st; Some (poll sid st l s)
      else None
  | cancel sid =>
      st ← streams s !! sid;
      Some (set_streams
              (<[sid := mk_stream (source st) (eventIndex st) false (closed st)]>
                 (streams s)) s, [])
  | GET_status => Some (s, [respond (status_response s)])
  end.

(** A run: the callbacks of a list of timed labels, one after the other. *)
Fixpoint run (s : state) (tr : list (Z * label))
  : option (state * list effect) :=
  match tr with
  | [] => Some (s, [])
  | (now, lb) :: tr' =>
      '(s1, out1) ← step now lb s;
      '(s2, out2) ← run s1 tr';
      Some (s2, out1 ++ out2)
  end.

(** The job object at address [a]. *)
Definition job_at (s : state) (a : ref) : option Job.t :=
  job <$> store s !! a.

(** The states the serving process can be in. *)
Definition reachable (s : state) : Prop :=
  ∃ tr out, run init tr = Some (s, out).

(** ** Observations on a run *)

(** The events enqueued on stream [sid], in order. *)
Definition sent (sid : nat) (out : list effect) : list event :=
  omap (λ e, match e with
             | enqueue i ev => if decide (i = sid) then Some ev else None
             | _ => None
             end) out.

(** The calls of [releaseValidationLock] made on behalf of launch [a]: by
    one of its two listeners, or by the sweeper for its job. *)
Definition releases_of (a : ref) (out : list effect) : list release_site :=
  omap (λ e, match e with
             | lock_released (by_error_listener b) =>
                 if decide (b = a) then Some (by_error_listener b) else None
             | lock_released (by_close_listener b) =>
                 if decide (b = a) then Some (by_close_listener b) else None
             | lock_released (by_sweeper b) =>
                 if decide (b = a) then Some (by_sweeper b) else None
             | _ => None
             end) out.

(** ** How an object changes over a step *)

(** A job that is terminal has its [endTime]. *)
Definition settled (l : launch) : Prop :=
  Job.terminal (job l) = true → is_Some (Job.endTime (job l)).

(** The ways a launch is allowed to change: identity fields stay, events
    are only appended, a process handle and an end time stay once set, and
    a terminal job whose process has closed is frozen. *)
Record evolves (l l' : launch) : Prop := mk_evolves {
  ev_id : Job.id (job l') = Job.id (job l);
  ev_type : Job.type (job l') = Job.type (job l);
  ev_startTime : Job.startTime (job l') = Job.startTime (job l);
  ev_events : Job.events (job l) `prefix_of` Job.events (job l');
  ev_process :
    ∀ p, Job.process (job l) = Some p → Job.process (job l') = Some p;
  ev_endTime : is_Some (Job.endTime (job l)) → is_Some (Job.endTime (job l'));
  ev_frozen : attached l = false → Job.terminal (job l) = true → l' = l;
  ev_settled : settled l → settled l'
}.

(** The store only grows; an old object evolves, a new one is settled. *)
Definition store_evolves (h h' : list launch) : Prop :=
  ∀ a,
    match h !! a, h' !! a with
    | Some l, Some l' => evolves l l'
    | None, Some l' => settled l'
    | Some _, None => False
    | None, None => True
    end.

(** [j'] is [j] with more events pushed. *)
Definition more_events (j j' : Job.t) : Prop :=
  ∃ evs,
    j' = Job.mk (Job.id j) (Job.type j) (Job.startTime j) (Job.status j)
                (Job.events j ++ evs) (Job.process j) (Job.result j)
                (Job.endTime j).

(** ** Sample inputs *)

Definition nl : list N := [10%N].

Definition result_line : list N :=
  jq "{'errors': [], 'error_count': 0, 'warning_count': 0, 'is_valid': true}".

Definition progress_line : list N :=
  jq "{'type': 'progress', 'stage': 'folder-names', 'percent': 50, 'message': 'Checking'}".

Definition noise_line : list N := js "Validating folder names...".

(** The sweeper's ceiling for a running job, in milliseconds. *)
Definition ceiling : Z := 30 * 60 * 1000.

(** A validation request at time [t] whose body parses and whose process
    spawns. *)
Definition launch_at (t : Z) : list (Z * label) :=
  [(t, POST_validate); (t, POST_validate_resume (Some None) true)].

(** A run is launched; the sweeper finds it over the ceiling, marks it and
    kills its process; the killed process then closes with [code]. *)
Definition timeout_then_close (code : option Z) : list (Z * label) :=
  launch_at 0
  ++ [(ceiling + 1, cleanup_tick); (ceiling + 2, process_close 0 code)].

(** As above, with a second request arriving after the sweeper's tick and
    before the killed process closes. *)
Definition relaunch_before_close : list (Z * label) :=
  launch_at 0 ++ [(ceiling + 1, cleanup_tick)] ++ launch_at (ceiling + 2)
  ++ [(ceiling + 3, process_close 0 None)].

(** A run that prints nothing and exits with code 0. *)
Definition silent_success : list (Z * label) :=
  launch_at 0 ++ [(5, process_close 0 (Some 0))].

(** A run that prints its result line and then, without a final newline, a
    progress object. *)
Definition result_then_trailing : list (Z * label) :=
  launch_at 0 ++ [(5, stdout_data 0 (result_line ++ nl ++ progress_line))].

(** A run whose process cannot be spawned: Node emits ['error'] and then
    ['close'] with the negative error number. *)
Definition spawn_failure : list (Z * label) :=
  launch_at 0
  ++ [(1, process_error 0 (js "spawn python3 ENOENT"));
      (2, process_close 0 (Some (-2)))].

(** The state after a run from the initial state. *)
Definition state_after (tr : list (Z * label)) : state :=
  match run init tr with
  | Some (s, _) => s
  | None => init
  end.

(** A run that prints a progress line and its result, and exits with 0. *)
Definition finished_run : list (Z * label) :=
  launch_at 0
  ++ [(5, stdout_data 0 (progress_line ++ nl ++ result_line ++ nl));
      (9, process_close 0 (Some 0))].

(** ** The history of an object *)

(** The object a launch allocates: the new job, with its process handle and
    its listeners when [spawn] returned. *)
Definition fresh_launch (jobId : list N) (t : job_type) (now : Z) (a : nat)
    (spawns : bool) : launch :=
  if spawns then
    mk_launch (Job.set_process a (new_job jobId t now)) [] [] JNull true
  else mk_launch (new_job jobId t now) [] [] JNull false.

(** A validation launch always uses the well-known id. *)
Definition born (l : launch) : Prop :=
  ∃ jobId t now a spawns,
    l = fresh_launch jobId t now a spawns
    ∧ (t = validation → jobId = validation_current).

(** The five ways the code changes an object after its launch: the four
    listeners of its process, while the process can emit events, and the
    sweeper's timeout of a running job. *)
Inductive change : launch → launch → Prop :=
| change_stdout l data :
    attached l = true → change l (on_stdout_data data l)
| change_stderr l data :
    attached l = true → change l (on_stderr_data data l)
| change_error l now message :
    attached l = true → Job.type (job l) = validation →
    change l (on_error now message l)
| change_close l now code :
    attached l = true → change l (on_close now code l)
| change_timeout l now :
    Job.status (job l) = running → change l (time_out now l).

(** Every old object went through some changes; every new one was born and
    then went through some changes; none disappears. *)
Definition store_history (h h' : list launch) : Prop :=
  ∀ a,
    match h !! a, h' !! a with
    | Some l, Some l' => rtc change l l'
    | None, Some l' => ∃ l0, born l0 ∧ rtc change l0 l'
    | Some _, None => False
    | None, None => True
    end.

(** ** The shape of a job *)

(** An event that the data listener pushed: an object whose [type] is
    ['progress']. *)
Definition is_progress_event (e : event) : bool :=
  match e with
  | progress_event v => is_progress v
  | _ => false
  end.

Definition is_error_event (e : event) : bool :=
  match e with
  | error_event _ _ => true
  | _ => false
  end.

(** What the fields of a job look like, by status. *)
Definition shape (l : launch) : Prop :=
  match Job.status (job l) with
  | running =>
      Job.endTime (job l) = None ∧ Job.result (job l) = None
      ∧ Forall (λ e, is_progress_event e = true) (Job.events (job l))
  | complete =>
      attached l = false ∧ is_Some (Job.endTime (job l))
      ∧ ∃ r, Job.result (job l) = Some r
             ∧ last (Job.events (job l)) = Some (complete_event r)
  | error =>
      is_Some (Job.endTime (job l)) ∧ Job.result (job l) = None
      ∧ Exists (λ e, is_error_event e = true) (Job.events (job l))
  end.

(** ** The registry *)

(** What holds of [activeJobs] in every reachable state: one entry per key,
    one entry per object, and every entry names an object of the store
    whose [id] is the key. *)
Definition registry_ok (s : state) : Prop :=
  NoDup (activeJobs s).*1
  ∧ NoDup (activeJobs s).*2
  ∧ ∀ k a, (k, a) ∈ activeJobs s →
           ∃ l, store s !! a = Some l ∧ Job.id (job l) = k.

(** ** More sample runs *)

(** A run that has printed one progress line and is still going. *)
Definition run_in_progress : list (Z * label) :=
  launch_at 0 ++ [(5, stdout_data 0 (progress_line ++ nl))].

(** The retention window of a terminal job, in milliseconds. *)
Definition retention : Z := 5 * 60 * 1000.

(** While a run is going: a second request, a page action, a status
    request, more output and an idle tick. *)
Definition attempts_during_run : list (Z * label) :=
  [(10, POST_validate); (11, trigger_call true); (12, GET_status);
   (13, stdout_data 0 (progress_line ++ nl)); (60000, cleanup_tick)].

(** The labels of the stream and status endpoints. *)
Definition is_reader (lb : label) : bool :=
  match lb with
  | GET_stream _ | poll_tick _ | cancel _ | GET_status => true
  | _ => false
  end.

(** The effects that only talk to a client. *)
Definition to_client (e : effect) : bool :=
  match e with
  | respond _ | enqueue _ _ | close_stream _ => true
  | _ => false
  end.

(** A client connects to a run in progress; the run prints one more
    progress line and exits with code 0. *)
Definition rest_of_run : list (Z * label) :=
  [(7, stdout_data 0 (progress_line ++ nl)); (8, process_close 0 (Some 0))].

(** A sort request at time 0 whose body parses and whose process spawns. *)
Definition sort_at_0 : list (Z * label) :=
  [(0, POST_sort (Some (false, true)) (js "3f2a") true)].

(** A validation is launched and a client connects to its stream. *)
Definition launch_and_connect : list (Z * label) :=
  launch_at 0 ++ [(1, GET_stream validation_current)].

(** * Helpers of the pages *)

(** ** Strings *)

(** [s.split(sep)] for a separator of one code unit: always at least one
    piece. *)
Fixpoint split_on (sep : N) (s : jsstring) : list jsstring :=
  match s with
  | [] => [[]]
  | c :: r =>
      if decide (c = sep) then [] :: split_on sep r
      else match split_on sep r with
           | l :: ls => (c :: l) :: ls
           | [] => [[c]]
           end
  end.

(** [parts.join(sep)] *)
Fixpoint join (sep : jsstring) (parts : list jsstring) : jsstring :=
  match parts with
  | [] => []
  | p :: ps =>
      match ps with
      | [] => p
      | _ :: _ => p ++ sep ++ join sep ps
      end
  end.

(** [s.startsWith(p)] *)
Fixpoint starts_with (p s : jsstring) : bool :=
  match p, s with
  | [], _ => true
  | a :: p', b :: s' => bool_decide (a = b) && starts_with p' s'
  | _ :: _, [] => false
  end.

(** A value interpolated in a template literal: [undefined] prints as the
    word. *)
Definition interpolate (o : option jsstring) : jsstring :=
  default (js "undefined") o.

Definition slash : N := 47%N.
Definition backslash : N := 92%N.
Definition dot : N := 46%N.

(** ** lib/globalHelpers.ts *)

(** The entries of [illegal_characters] are strings of one code unit; the
    list holds the units, in the order of the source. *)
Definition illegal_characters : list N :=
  [35; 37; 38; 123; 125; 92; 60;
   62; 42; 63; 47; 36; 33; 39;
   34; 58; 64; 43; 96; 124; 61]%N.

(** [exceptions && exceptions.includes(char)]; [exceptions] is [None] when
    the argument is left out. *)
Definition excepted (exceptions : option (list (list N))) (char : N) : bool :=
  match exceptions with
  | Some ex => bool_decide ([char] ∈ ex)
  | None => false
  end.

(** [input] is [None] for [null] and [undefined]. *)
Definition stripOfIllegalChars (input : option (list N))
    (exceptions : option (list (list N))) : list N :=
  let value := match input with None => [] | Some v => v end in
  foldl (λ value char,
           if excepted exceptions char then value
           else join [] (split_on char value))
        value illegal_characters.

Definition getLogoName (fileName : jsstring) : jsstring :=
  js "logo." ++ interpolate (pop (split_on dot fileName)).2.

(** ** lib/utils/pathToRoute.ts *)

(** [filePath.replace(/\\/g, '/')] *)
Definition normalize_separators (filePath : jsstring) : jsstring :=
  (λ c, if decide (c = backslash) then slash else c) <$> filePath.

Definition pathToRoute (filePath : jsstring) : jsstring :=
  let normalizedPath := normalize_separators filePath in
  let parts := split_on slash normalizedPath in
  let data_branch :=
    if starts_with (js "data/") normalizedPath then
      let brandId := parts !! 1%nat in
      let materialId := parts !! 2%nat in
      let filamentId := parts !! 3%nat in
      let variantId := parts !! 4%nat in
      let filename := parts !! 5%nat in
      if bool_decide (filename = Some (js "brand.json"))
         || bool_decide (length parts = 3%nat)
      then js "/Brand/" ++ interpolate brandId
      else if bool_decide (filename = Some (js "material.json"))
              || bool_decide (length parts = 4%nat)
      then js "/Brand/" ++ interpolate brandId ++ js "/"
           ++ interpolate materialId
      else if bool_decide (filename = Some (js "filament.json"))
              || bool_decide (length parts = 5%nat)
      then js "/Brand/" ++ interpolate brandId ++ js "/"
           ++ interpolate materialId ++ js "/" ++ interpolate filamentId
      else if bool_decide (filename = Some (js "variant.json"))
              || bool_decide (filename = Some (js "sizes.json"))
              || bool_decide (length parts = 6%nat)
      then js "/Brand/" ++ interpolate brandId ++ js "/"
           ++ interpolate materialId ++ js "/" ++ interpolate filamentId
           ++ js "/" ++ interpolate variantId
      else js "/"
    else js "/" in
  if starts_with (js "stores/") normalizedPath then
    if bool_decide (2 ≤ length parts)%nat
    then js "/Store/" ++ interpolate (parts !! 1%nat)
    else data_branch
  else data_branch.

(** ** lib/stores/validationStore.ts *)

Inductive error_level := ERROR | WARNING.

Module ValidationError.
Record t := mk {
  level : error_level;
  category : list N;
  message : list N;
  path : option (list N)
}.
End ValidationError.

Module ValidationResult.
Record t := mk {
  errors : list ValidationError.t;
  error_count : Z;
  warning_count : Z;
  is_valid : bool
}.
End ValidationResult.

(** The state of the store; [lastValidation] is a time stamp. *)
Module ValidationState.
Record t := mk {
  isValidating : bool;
  lastValidation : option Z;
  results : option ValidationResult.t
}.
End ValidationState.

(** A [Map] from strings to arrays, in insertion order. *)
Abbreviation groups := (list (list N * list ValidationError.t)) (only parsing).







(** ** What the helpers compute *)

(** The units that [stripOfIllegalChars] takes out: the illegal ones that
    are not excepted. *)
Definition stripped (exceptions : option (list (list N))) (c : N) : bool :=
  bool_decide (c ∈ illegal_characters) && negb (excepted exceptions c).

(** ** Sample inputs of the helpers *)

(** The path of the header comment of [pathToRoute], with the separators
    of Windows. *)
Definition sample_path : list N :=
  js "data\bambu_lab\PLA\basic_pla\white\variant.json".

(** ** The standard error of a run *)




(** * The bytes of the output *)

(** ** Buffer.prototype.toString *)

(** A [data] event carries a [Buffer]; [data.toString()] decodes its bytes
    as UTF-8, and every call starts a new decoder: what is left of a
    character at the end of a chunk is not carried over to the next one.
    A byte is a number below 256. *)
Record utf8_state := mk_utf8_state {
  code_point : N;
  bytes_seen : N;
  bytes_needed : N;
  lower_boundary : N;
  upper_boundary : N
}.

Definition utf8_initial : utf8_state := mk_utf8_state 0 0 0 128 191.

(** U+FFFD, which stands for an ill-formed piece of the input. *)
Definition replacement : N := 65533%N.

(** The UTF-16 code units of a code point. *)
Definition utf16_units (cp : N) : list N :=
  if (cp <? 65536)%N then [cp]
  else [(55296 + (cp - 65536) / 1024)%N; (56320 + (cp - 65536) mod 1024)%N].

(** A byte read when no character is under way. *)
Definition utf8_lead (b : N) : list N * utf8_state :=
  if (b <=? 127)%N then ([b], utf8_initial)
  else if (194 <=? b)%N && (b <=? 223)%N then
    ([], mk_utf8_state (N.land b 31) 0 1 128 191)
  else if (224 <=? b)%N && (b <=? 239)%N then
    ([], mk_utf8_state (N.land b 15) 0 2
           (if (b =? 224)%N then 160%N else 128%N)
           (if (b =? 237)%N then 159%N else 191%N))
  else if (240 <=? b)%N && (b <=? 244)%N then
    ([], mk_utf8_state (N.land b 7) 0 3
           (if (b =? 240)%N then 144%N else 128%N)
           (if (b =? 244)%N then 143%N else 191%N))
  else ([replacement], utf8_initial).

(** The decoder: a byte outside the bounds of the character under way ends
    it with U+FFFD and is read again as a first byte; a character cut off by
    the end of the input gives U+FFFD. *)
Fixpoint utf8_decode (st : utf8_state) (bytes : list N) : list N :=
  match bytes with
  | [] => if (bytes_needed st =? 0)%N then [] else [replacement]
  | b :: r =>
      if (bytes_needed st =? 0)%N then
        let '(units, st') := utf8_lead b in units ++ utf8_decode st' r
      else if (lower_boundary st <=? b)%N && (b <=? upper_boundary st)%N then
        let cp := N.lor (N.shiftl (code_point st) 6) (N.land b 63) in
        if (bytes_seen st + 1 =? bytes_needed st)%N then
          utf16_units cp ++ utf8_decode utf8_initial r
        else
          utf8_decode
            (mk_utf8_state cp (bytes_seen st + 1) (bytes_needed st) 128 191) r
      else
        let '(units, st') := utf8_lead b in
        replacement :: units ++ utf8_decode st' r
  end.

Definition Buffer_toString (data : list N) : list N :=
  utf8_decode utf8_initial data.

(** The [data] event of a process's standard output with the bytes [data]:
    the listener gets the text [data.toString()]. *)
Definition stdout_chunk (p : nat) (data : list N) : label :=
  stdout_data p (Buffer_toString data).

(** ** A line with a character of two bytes *)

(** The bytes of a progress line whose message ends in U+00E9, which UTF-8
    writes as the bytes 195 and 169, cut between these two bytes. *)
Definition accent_head : list N :=
  jq "{'type': 'progress', 'message': 'caf" ++ [195%N].

Definition accent_tail : list N := [169%N] ++ jq "'}" ++ nl.

(** The line in one chunk, and in the two chunks of the cut. *)
Definition accent_whole : list (Z * label) :=
  launch_at 0 ++ [(5, stdout_chunk 0 (accent_head ++ accent_tail))].

Definition accent_cut : list (Z * label) :=
  launch_at 0
  ++ [(5, stdout_chunk 0 accent_head); (6, stdout_chunk 0 accent_tail)].

(** A progress line cut in the middle of a word; all its bytes are ASCII. *)
Definition ascii_chunks : list (Z * list N) :=
  [(6, jq "{'type': 'progress', 'mess"); (7, jq "age': 'Checking'}" ++ nl)].

(** ** Lines that are not taken as the result *)

(** A line is passed over by the search for the final result when it does
    not parse, or parses to a progress object, or lacks the marker of the
    job type. *)
Definition passed_over (t : job_type) (line : list N) : Prop :=
  ∀ v, JSON.parse line = Some v →
       is_progress v = true ∨ JSON.prop v (result_marker t) = None.

(** Output without a result: no complete line is taken as the result, and
    what follows the last newline is blank or does not parse. *)
Definition no_result_in (t : job_type) (text : list N) : Prop :=
  Forall (passed_over t) (pop (split_nl text)).1
  ∧ (trim (or_empty (pop (split_nl text)).2) = []
     ∨ JSON.parse (trim (or_empty (pop (split_nl text)).2)) = None).

(** Two chunks of output that is not JSON. *)
Definition noise_chunks : list (Z * list N) :=
  [(3, js "Validating fol"); (4, js "der names..." ++ nl ++ js "done")].
(** * Checks of the JSON reader *)

Example parse_result_line :
  JSON.parse (jq "{'errors': [], 'error_count': 0, 'is_valid': true}")
  = Some (JObject [(js "errors", JArray []);
                   (js "error_count", JNumber (js "0"));
                   (js "is_valid", JBool true)]).
Proof. vm_compute. reflexivity. Qed.

Example parse_noise : JSON.parse (js "Validating folder names...") = None.
Proof. vm_compute. reflexivity. Qed.

Example parse_escapes :
  JSON.parse (jq "['a\n\u00e9', -1.5e+3, null, {'k': {}}] ")
  = Some (JArray [JString [97; 10; 233]%N; JNumber (js "-1.5e+3"); JNull;
                  JObject [(js "k", JObject [])]]).
Proof. vm_compute. reflexivity. Qed.

Example parse_rejects :
  JSON.parse (jq "{'a': 1,}") = None ∧ JSON.parse (js "01") = None
  ∧ JSON.parse (js "1 2") = None ∧ JSON.parse (js "") = None
  ∧ JSON.parse (jq "'unterminated") = None.
Proof. vm_compute. auto. Qed.


(** * Proofs *)

(** ** Splitting the output into lines *)

Lemma split_nl_nonempty s : split_nl s ≠ [].
Proof. destruct s as [|c r]; simpl; [done|]. repeat case_match; done. Qed.

Lemma removelast_cons_nonempty {A} (x : A) l :
  l ≠ [] → removelast (x :: l) = x :: removelast l.
Proof. by destruct l. Qed.

Lemma last_cons_nonempty {A} (x : A) l : l ≠ [] → last (x :: l) = last l.
Proof. by destruct l. Qed.

Lemma removelast_app_nonempty {A} (l k : list A) :
  k ≠ [] → removelast (l ++ k) = l ++ removelast k.
Proof.
  intros Hk. induction l as [|x l IH]; simpl; [done|].
  rewrite <- IH. destruct (l ++ k) eqn:E; [|done].
  by apply app_eq_nil in E as [_ ->].
Qed.

Lemma last_app_nonempty {A} (l k : list A) :
  k ≠ [] → last (l ++ k) = last k.
Proof.
  intros Hk. induction l as [|x l IH]; [done|].
  rewrite <- IH. apply last_cons_nonempty.
  intros E. by apply app_eq_nil in E as [_ ->].
Qed.

(** The pieces of a concatenation: the complete pieces of the first text,
    then the pieces of its unfinished last piece followed by the second. *)
Lemma split_nl_app a b :
  split_nl (a ++ b)
  = removelast (split_nl a) ++ split_nl (default [] (last (split_nl a)) ++ b).
Proof.
  induction a as [|c r IH]; [done|].
  pose proof (split_nl_nonempty r) as Hr.
  cbn [app split_nl]. destruct (decide (c = 10%N)) as [->|Hc].
  - rewrite IH, removelast_cons_nonempty, last_cons_nonempty by done. done.
  - rewrite IH. destruct (split_nl r) as [|l [|l2 ls]] eqn:E; [done| |].
    + cbn. by destruct (decide (c = 10%N)).
    + done.
Qed.

(** ** The line handler *)

Lemma or_empty_default x : or_empty x = default [] x.
Proof. by destruct x as [[|]|]. Qed.

Lemma handle_line_cases t l line :
  handle_line t l line = l
  ∨ (∃ v, JSON.parse line = Some v
          ∧ handle_line t l line
            = with_job (Job.push_event (progress_event v)) l)
  ∨ (∃ v, JSON.parse line = Some v
          ∧ handle_line t l line = set_finalResult v l).
Proof.
  unfold handle_line. destruct (negb _); [by left|].
  destruct (JSON.parse line) as [v|]; [|by left].
  destruct v; try (by left);
    (destruct (is_progress _); [right; left; eauto|]);
    (destruct (JSON.prop _ _); [right; right; eauto|by left]).
Qed.

Lemma handle_line_set_stdoutBuffer t b l line :
  handle_line t (set_stdoutBuffer b l) line
  = set_stdoutBuffer b (handle_line t l line).
Proof. unfold handle_line. by repeat case_match. Qed.

Lemma handle_lines_set_stdoutBuffer t b lines l :
  foldl (handle_line t) (set_stdoutBuffer b l) lines
  = set_stdoutBuffer b (foldl (handle_line t) l lines).
Proof.
  revert l. induction lines as [|x xs IH]; intros l; [done|].
  simpl. by rewrite handle_line_set_stdoutBuffer, IH.
Qed.

Lemma handle_line_type t l line :
  Job.type (job (handle_line t l line)) = Job.type (job l).
Proof.
  destruct (handle_line_cases t l line) as [->|[(v&_&->)|(v&_&->)]]; done.
Qed.

Lemma handle_line_attached t l line :
  attached (handle_line t l line) = attached l.
Proof.
  destruct (handle_line_cases t l line) as [->|[(v&_&->)|(v&_&->)]]; done.
Qed.

Lemma handle_lines_type t lines l :
  Job.type (job (foldl (handle_line t) l lines)) = Job.type (job l).
Proof.
  revert l. induction lines as [|x xs IH]; intros l; [done|].
  simpl. by rewrite IH, handle_line_type.
Qed.

Lemma handle_lines_attached t lines l :
  attached (foldl (handle_line t) l lines) = attached l.
Proof.
  revert l. induction lines as [|x xs IH]; intros l; [done|].
  simpl. by rewrite IH, handle_line_attached.
Qed.

(** The handler as a function of the previous rest and the new data. *)
Lemma on_stdout_data_unfold data l :
  on_stdout_data data l
  = set_stdoutBuffer
      (default [] (last (split_nl (stdoutBuffer l ++ data))))
      (foldl (handle_line (Job.type (job l))) l
             (removelast (split_nl (stdoutBuffer l ++ data)))).
Proof.
  unfold on_stdout_data, pop.
  by rewrite handle_lines_set_stdoutBuffer, or_empty_default.
Qed.

Lemma on_stdout_data_type data l :
  Job.type (job (on_stdout_data data l)) = Job.type (job l).
Proof. rewrite on_stdout_data_unfold. simpl. apply handle_lines_type. Qed.

Lemma on_stdout_data_attached data l :
  attached (on_stdout_data data l) = attached l.
Proof. rewrite on_stdout_data_unfold. simpl. apply handle_lines_attached. Qed.

(** Two chunks in a row do what their concatenation does. *)
Lemma on_stdout_data_app d1 d2 l :
  on_stdout_data d2 (on_stdout_data d1 l) = on_stdout_data (d1 ++ d2) l.
Proof.
  rewrite (on_stdout_data_unfold d2), on_stdout_data_type.
  rewrite (on_stdout_data_unfold d1). cbn [stdoutBuffer set_stdoutBuffer].
  rewrite handle_lines_set_stdoutBuffer.
  rewrite (on_stdout_data_unfold (d1 ++ d2)).
  rewrite (assoc_L (++) (stdoutBuffer l)).
  rewrite (split_nl_app (stdoutBuffer l ++ d1) d2).
  set (ls1 := split_nl (stdoutBuffer l ++ d1)).
  set (ls2 := split_nl (default [] (last ls1) ++ d2)).
  assert (ls2 ≠ []) by apply split_nl_nonempty.
  rewrite (removelast_app_nonempty _ ls2), (last_app_nonempty _ ls2) by done.
  by rewrite foldl_app.
Qed.

Lemma update_update a f g s :
  update a f (update a g s) = update a (f ∘ g) s.
Proof.
  unfold update. destruct s; cbn. unfold set_store; cbn.
  by rewrite list_alter_alter_eq.
Qed.

Lemma store_update a f s : store (update a f s) = alter f a (store s).
Proof. done. Qed.

Lemma listening_Some s p l :
  listening s p = Some l ↔ store s !! p = Some l ∧ attached l = true.
Proof.
  unfold listening. split.
  - destruct (store s !! p) as [x|]; [|done].
    destruct (attached x) eqn:E; [|done]. by intros [= ->].
  - intros [-> Ha]. by rewrite Ha.
Qed.

Lemma listening_update s p f l :
  listening s p = Some l →
  (∀ x, attached (f x) = attached x) →
  listening (update p f s) p = Some (f l).
Proof.
  rewrite !listening_Some, store_update. intros [E Ha] Hf.
  by rewrite list_lookup_alter_eq, E, Hf.
Qed.

Lemma step_stdout_data s p t d l :
  listening s p = Some l →
  step t (stdout_data p d) s = Some (update p (on_stdout_data d) s, []).
Proof. intros Hl. cbn. by rewrite Hl. Qed.

Lemma run_cons s t lb tr :
  run s ((t, lb) :: tr)
  = '(s1, out1) ← step t lb s;
    '(s2, out2) ← run s1 tr; Some (s2, out1 ++ out2).
Proof. done. Qed.

(** A run of data events of one process. *)
Lemma run_stdout_chunks s p t c (cs : list (Z * list N)) l :
  listening s p = Some l →
  run s ((λ tc, (tc.1, stdout_data p tc.2)) <$> ((t, c) :: cs))
  = Some (update p (on_stdout_data (c ++ concat (snd <$> cs))) s, []).
Proof.
  revert s t c l. induction cs as [|[t' c'] cs IH]; intros s t c l Hl.
  - cbn. rewrite Hl. cbn. by rewrite app_nil_r.
  - rewrite fmap_cons, run_cons. cbn [fst snd].
    rewrite (step_stdout_data _ _ _ _ _ Hl). cbn [mbind option_bind].
    pose proof (listening_update s p (on_stdout_data c) l Hl
                  (on_stdout_data_attached c)) as Hl'.
    rewrite (IH _ t' c' _ Hl'). cbn [mbind option_bind app].
    rewrite update_update. do 2 f_equal.
    unfold update. f_equal. apply list_alter_ext; [|done].
    intros x _. unfold compose. rewrite on_stdout_data_app, fmap_cons.
    cbn [snd concat]. by rewrite (assoc_L (++)).
Qed.

(** ** Objects evolve *)

Lemma evolves_refl l : evolves l l.
Proof. by constructor. Qed.

Lemma evolves_trans l1 l2 l3 :
  evolves l1 l2 → evolves l2 l3 → evolves l1 l3.
Proof.
  intros [] []. constructor; try congruence; try tauto.
  - by etrans.
  - eauto.
  - intros Ha Ht. assert (l2 = l1) as -> by auto. auto.
Qed.

Lemma store_evolves_refl h : store_evolves h h.
Proof. intros a. destruct (h !! a); [apply evolves_refl|done]. Qed.

Lemma store_evolves_trans h1 h2 h3 :
  store_evolves h1 h2 → store_evolves h2 h3 → store_evolves h1 h3.
Proof.
  intros H12 H23 a. specialize (H12 a). specialize (H23 a).
  destruct (h1 !! a), (h2 !! a), (h3 !! a); try done.
  - by eapply evolves_trans.
  - by eapply ev_settled.
Qed.

Lemma store_evolves_alter h a f :
  (∀ l, h !! a = Some l → evolves l (f l)) →
  store_evolves h (alter f a h).
Proof.
  intros Hf b. destruct (decide (a = b)) as [->|Hne].
  - rewrite list_lookup_alter_eq. destruct (h !! b) eqn:E; cbn; auto.
  - rewrite list_lookup_alter_ne by done.
    destruct (h !! b); [apply evolves_refl|done].
Qed.

Lemma store_evolves_snoc h l : settled l → store_evolves h (h ++ [l]).
Proof.
  intros Hl a. destruct (h !! a) eqn:E.
  - rewrite (lookup_app_l_Some _ _ _ _ E). apply evolves_refl.
  - apply lookup_ge_None in E. rewrite lookup_app_r by done.
    destruct ([l] !! (a - length h)%nat) eqn:E'; [|done].
    apply list_lookup_singleton_Some in E' as [_ <-]. done.
Qed.

Lemma more_events_refl j : more_events j j.
Proof. exists []. destruct j. cbn. by rewrite app_nil_r. Qed.

Lemma more_events_trans j1 j2 j3 :
  more_events j1 j2 → more_events j2 j3 → more_events j1 j3.
Proof.
  intros [e1 ->] [e2 ->]. exists (e1 ++ e2). cbn. by rewrite (assoc_L (++)).
Qed.

Lemma handle_line_more_events t l line :
  more_events (job l) (job (handle_line t l line)).
Proof.
  destruct (handle_line_cases t l line) as [->|[(v&_&->)|(v&_&->)]];
    [apply more_events_refl| |apply more_events_refl].
  by eexists.
Qed.

Lemma handle_lines_more_events t lines l :
  more_events (job l) (job (foldl (handle_line t) l lines)).
Proof.
  revert l. induction lines as [|x xs IH]; intros l; [apply more_events_refl|].
  cbn. eapply more_events_trans; [apply handle_line_more_events|apply IH].
Qed.

Lemma on_stdout_data_more_events data l :
  more_events (job l) (job (on_stdout_data data l)).
Proof. rewrite on_stdout_data_unfold. apply handle_lines_more_events. Qed.

Lemma evolves_more_events l l' :
  attached l = true → more_events (job l) (job l') → evolves l l'.
Proof.
  intros Ha [evs E]. unfold settled, Job.terminal.
  constructor; unfold settled, Job.terminal; rewrite ?E; cbn; try done.
  - by apply prefix_app_r.
  - congruence.
Qed.

Lemma evolves_on_stdout_data data l :
  attached l = true → evolves l (on_stdout_data data l).
Proof. intros. by apply evolves_more_events, on_stdout_data_more_events. Qed.

Lemma evolves_on_stderr_data data l :
  attached l = true → evolves l (on_stderr_data data l).
Proof. intros. apply evolves_more_events; [done|apply more_events_refl]. Qed.

Lemma evolves_on_error now message l :
  attached l = true → evolves l (on_error now message l).
Proof.
  intros Ha. constructor; unfold settled; cbn; try done; try congruence.
  by apply prefix_app_r.
Qed.

Lemma parse_remaining_job l : job (parse_remaining l) = job l.
Proof. unfold parse_remaining. by repeat case_match. Qed.

Lemma evolves_on_close now code l :
  attached l = true → evolves l (on_close now code l).
Proof.
  intros Ha. unfold on_close.
  constructor; unfold settled; destruct (normal_exit code); cbn;
    rewrite ?parse_remaining_job; try done; try congruence;
    by apply prefix_app_r.
Qed.

Lemma evolves_time_out now l :
  Job.status (job l) = running → evolves l (time_out now l).
Proof.
  intros Hr.
  constructor; unfold settled, Job.terminal; cbn; try done.
  - by apply prefix_app_r.
  - rewrite Hr. done.
Qed.

(** ** The store over a step *)

Lemma store_evolves_update a f s :
  (∀ l, store s !! a = Some l → evolves l (f l)) →
  store_evolves (store s) (store (update a f s)).
Proof. intros. rewrite store_update. by apply store_evolves_alter. Qed.

Lemma store_evict_finished jobId s : store (evict_finished jobId s) = store s.
Proof. unfold evict_finished. by repeat case_match. Qed.

Lemma store_register_and_spawn jobId t now spawns s :
  ∃ l, store (register_and_spawn jobId t now spawns s).1 = store s ++ [l]
       ∧ Job.status (job l) = running ∧ Job.events (job l) = []
       ∧ (register_and_spawn jobId t now spawns s).2 = length (store s).
Proof.
  unfold register_and_spawn. destruct spawns; cbn.
  - rewrite alter_app_r_alt, Nat.sub_diag by done. cbn. eauto.
  - eauto.
Qed.

Lemma store_evolves_register_and_spawn jobId t now spawns s :
  store_evolves (store s) (store (register_and_spawn jobId t now spawns s).1).
Proof.
  destruct (store_register_and_spawn jobId t now spawns s) as (l&->&Hr&_).
  apply store_evolves_snoc. unfold settled, Job.terminal. by rewrite Hr.
Qed.

Lemma store_evolves_sweep_entry now acc e :
  store_evolves (store acc.1) (store (sweep_entry now acc e).1).
Proof.
  destruct acc as [s out], e as [jobId a]. cbn [sweep_entry fst].
  destruct (store s !! a) as [l|] eqn:E; [|apply store_evolves_refl].
  destruct (timed_out now (job l)) eqn:Ht.
  - assert (Job.status (job l) = running) as Hr.
    { unfold timed_out in Ht. apply andb_prop in Ht as [Ht _].
      by apply bool_decide_eq_true in Ht. }
    assert (store_evolves (store s)
              (alter (time_out now) a (store s))) as Hs.
    { apply store_evolves_alter. intros l' El. simplify_eq.
      by apply evolves_time_out. }
    by repeat case_match.
  - by repeat case_match; apply store_evolves_refl.
Qed.

Lemma store_evolves_sweep_entries now entries acc :
  store_evolves (store acc.1)
                (store (foldl (sweep_entry now) acc entries).1).
Proof.
  revert acc. induction entries as [|e es IH]; intros acc;
    [apply store_evolves_refl|].
  cbn [foldl]. eapply store_evolves_trans;
    [apply store_evolves_sweep_entry|apply IH].
Qed.

Lemma store_evolves_validate_resume now body spawns s :
  store_evolves (store s) (store (validate_resume now body spawns s).1).
Proof.
  unfold validate_resume. destruct body as [type|]; [|apply store_evolves_refl].
  pose proof (store_evolves_register_and_spawn validation_current validation
                now spawns (evict_finished validation_current s)) as Hs.
  rewrite store_evict_finished in Hs.
  destruct (register_and_spawn _ _ _ _ _) as [s1 a]. by destruct spawns.
Qed.

Lemma store_evolves_trigger now spawns s :
  store_evolves (store s) (store (triggerBackgroundValidation now spawns s).1).
Proof.
  unfold triggerBackgroundValidation, tryAcquireValidationLock.
  destruct (validationLock s); cbn [negb]; [apply store_evolves_refl|].
  pose proof (store_evolves_register_and_spawn validation_current validation
                now spawns (evict_finished validation_current
                              (set_validationLock true s))) as Hs.
  rewrite store_evict_finished in Hs.
  destruct (register_and_spawn _ _ _ _ _) as [s1 a]. by destruct spawns.
Qed.

Lemma store_evolves_sort_launch now body uuid spawns s :
  store_evolves (store s) (store (sort_launch now body uuid spawns s).1).
Proof.
  unfold sort_launch.
  destruct body as [[dryRun runValidation]|]; [|apply store_evolves_refl].
  pose proof (store_evolves_register_and_spawn uuid sort now spawns s) as Hs.
  destruct (register_and_spawn _ _ _ _ _) as [s1 a]. by destruct spawns.
Qed.

Lemma store_evolves_sweep now s :
  store_evolves (store s) (store (sweep now s).1).
Proof. apply (store_evolves_sweep_entries now (activeJobs s) (s, [])). Qed.

(** Names the state of a result [e = (s', out)] as [e.1]. *)
Ltac name_state H :=
  match type of H with
  | ?e = (?s', ?out) =>
      let E := fresh in
      assert (s' = e.1) as E by (by rewrite H); subst s'
  end.

Lemma step_store_evolves now lb s s' out :
  step now lb s = Some (s', out) → store_evolves (store s) (store s').
Proof.
  destruct lb; cbn [step]; intros H.
  - unfold tryAcquireValidationLock in H.
    destruct (validationLock s); simplify_eq/=; apply store_evolves_refl.
  - destruct (pending s); [done|]. simplify_eq. name_state H.
    apply (store_evolves_validate_resume now body spawns (set_pending n s)).
  - simplify_eq. name_state H. apply store_evolves_trigger.
  - simplify_eq. name_state H. apply store_evolves_sort_launch.
  - destruct (listening s p) as [l|] eqn:El; simplify_eq/=.
    apply listening_Some in El as [El Ha].
    apply store_evolves_alter. intros ? ?. simplify_eq.
    by apply evolves_on_stdout_data.
  - destruct (listening s p) as [l|] eqn:El; simplify_eq/=.
    apply listening_Some in El as [El Ha].
    apply store_evolves_alter. intros ? ?. simplify_eq.
    by apply evolves_on_stderr_data.
  - destruct (listening s p) as [l|] eqn:El; simplify_eq/=.
    apply listening_Some in El as [El Ha].
    destruct (Job.type (job l)); simplify_eq/=.
    apply store_evolves_alter. intros ? ?. simplify_eq.
    by apply evolves_on_error.
  - destruct (listening s p) as [l|] eqn:El; simplify_eq/=.
    apply listening_Some in El as [El Ha].
    destruct (Job.type (job l)); simplify_eq/=;
      apply store_evolves_alter; intros ? ?; simplify_eq;
      by apply evolves_on_close.
  - simplify_eq. name_state H. apply store_evolves_sweep.
  - destruct (map_get jobId (activeJobs s)); simplify_eq/=;
      [|apply store_evolves_refl].
    unfold open_stream in H.
    destruct (store s !! n); simplify_eq/=. apply store_evolves_refl.
  - destruct (streams s !! sid) as [st|]; simplify_eq/=.
    destruct (intervalHandle st); [|done]. unfold poll in H.
    destruct (store s !! source st); simplify_eq/=. apply store_evolves_refl.
  - destruct (streams s !! sid) as [st|]; simplify_eq/=.
    apply store_evolves_refl.
  - simplify_eq. apply store_evolves_refl.
Qed.

(** ** Runs *)

Lemma run_cons_inv s t lb tr s' out :
  run s ((t, lb) :: tr) = Some (s', out) →
  ∃ s1 out1 out2,
    step t lb s = Some (s1, out1) ∧ run s1 tr = Some (s', out2)
    ∧ out = out1 ++ out2.
Proof.
  rewrite run_cons. destruct (step t lb s) as [[s1 out1]|]; [|done]. cbn.
  destruct (run s1 tr) as [[s2 out2]|] eqn:E; [|done]. cbn.
  intros ?. simplify_eq. by eexists _, _, _.
Qed.

Lemma run_app s tr1 tr2 s1 out1 :
  run s tr1 = Some (s1, out1) →
  run s (tr1 ++ tr2)
  = '(s2, out2) ← run s1 tr2; Some (s2, out1 ++ out2).
Proof.
  revert s s1 out1. induction tr1 as [|[t lb] tr1 IH]; intros s s1 out1 H.
  - cbn in H. simplify_eq. cbn. by destruct (run s1 tr2) as [[??]|].
  - apply run_cons_inv in H as (sa&oa&ob&Hs&Hr&->).
    cbn [app]. rewrite run_cons, Hs. cbn. rewrite (IH _ _ _ Hr).
    destruct (run s1 tr2) as [[s2 out2]|]; cbn; [|done].
    by rewrite (assoc_L (++)).
Qed.

Lemma run_store_evolves s tr s' out :
  run s tr = Some (s', out) → store_evolves (store s) (store s').
Proof.
  revert s out. induction tr as [|[t lb] tr IH]; intros s out H.
  - cbn in H. simplify_eq. apply store_evolves_refl.
  - apply run_cons_inv in H as (s1&out1&out2&Hs&Hr&->).
    eapply store_evolves_trans; [by eapply step_store_evolves|by eapply IH].
Qed.

(** An object of the store is still there after a run, and has evolved. *)
Lemma run_evolves s tr s' out a l :
  run s tr = Some (s', out) → store s !! a = Some l →
  ∃ l', store s' !! a = Some l' ∧ evolves l l'.
Proof.
  intros Hr Hl. pose proof (run_store_evolves _ _ _ _ Hr a) as H.
  rewrite Hl in H. destruct (store s' !! a) as [l'|]; [eauto|done].
Qed.

Lemma reachable_settled s a l :
  reachable s → store s !! a = Some l → settled l.
Proof.
  intros (tr&out&Hr) Hl. pose proof (run_store_evolves _ _ _ _ Hr a) as H.
  cbn in H. by rewrite Hl in H.
Qed.

Lemma reachable_run s tr s' out :
  reachable s → run s tr = Some (s', out) → reachable s'.
Proof.
  intros (tr0&out0&H0) Hr. exists (tr0 ++ tr), (out0 ++ out).
  by rewrite (run_app _ _ _ _ _ H0), Hr.
Qed.

(** ** Streams *)

Lemma sent_app sid out1 out2 :
  sent sid (out1 ++ out2) = sent sid out1 ++ sent sid out2.
Proof. apply omap_app. Qed.

Lemma sent_enqueue sid es : sent sid (enqueue sid <$> es) = es.
Proof.
  induction es as [|e es IH]; [done|].
  cbn. rewrite decide_True by done. cbn. f_equal. apply IH.
Qed.

Lemma sent_enqueue_other sid sid' es :
  sid' ≠ sid → sent sid (enqueue sid' <$> es) = [].
Proof.
  intros Hne. induction es as [|e es IH]; [done|].
  cbn. rewrite decide_False by done. apply IH.
Qed.

Lemma sent_sweep_entry sid now acc e :
  sent sid (sweep_entry now acc e).2 = sent sid acc.2.
Proof.
  destruct acc as [s out], e as [jobId a]. cbn [sweep_entry snd].
  destruct (store s !! a) as [l|]; [|done].
  repeat case_match; cbn [snd]; rewrite ?sent_app; cbn;
    by rewrite ?app_nil_r.
Qed.

Lemma sent_sweep_entries sid now entries acc :
  sent sid (foldl (sweep_entry now) acc entries).2 = sent sid acc.2.
Proof.
  revert acc. induction entries as [|e es IH]; intros acc; [done|].
  cbn [foldl]. by rewrite IH, sent_sweep_entry.
Qed.

Lemma sent_validate_resume sid now body spawns s :
  sent sid (validate_resume now body spawns s).2 = [].
Proof.
  unfold validate_resume. destruct body; [|done].
  destruct (register_and_spawn _ _ _ _ _). by destruct spawns.
Qed.

Lemma streams_evict_finished jobId s :
  streams (evict_finished jobId s) = streams s.
Proof. unfold evict_finished. by repeat case_match. Qed.

Lemma streams_register_and_spawn jobId t now spawns s :
  streams (register_and_spawn jobId t now spawns s).1 = streams s.
Proof. unfold register_and_spawn. by destruct spawns. Qed.

Lemma streams_validate_resume now body spawns s :
  streams (validate_resume now body spawns s).1 = streams s.
Proof.
  unfold validate_resume. destruct body; [|done].
  pose proof (streams_register_and_spawn validation_current validation now
                spawns (evict_finished validation_current s)) as E.
  rewrite streams_evict_finished in E.
  destruct (register_and_spawn _ _ _ _ _). by destruct spawns.
Qed.

Lemma sent_trigger sid now spawns s :
  sent sid (triggerBackgroundValidation now spawns s).2 = [].
Proof.
  unfold triggerBackgroundValidation.
  destruct (tryAcquireValidationLock s) as [[] ?]; [|done].
  cbn [negb]. destruct (register_and_spawn _ _ _ _ _). by destruct spawns.
Qed.

Lemma streams_trigger now spawns s :
  streams (triggerBackgroundValidation now spawns s).1 = streams s.
Proof.
  unfold triggerBackgroundValidation, tryAcquireValidationLock.
  destruct (validationLock s); [done|]. cbn [negb].
  pose proof (streams_register_and_spawn validation_current validation now
                spawns (evict_finished validation_current
                          (set_validationLock true s))) as E.
  rewrite streams_evict_finished in E.
  destruct (register_and_spawn _ _ _ _ _). by destruct spawns.
Qed.

Lemma sent_sort_launch sid now body uuid spawns s :
  sent sid (sort_launch now body uuid spawns s).2 = [].
Proof.
  unfold sort_launch. destruct body as [[??]|]; [|done].
  destruct (register_and_spawn _ _ _ _ _). by destruct spawns.
Qed.

Lemma streams_sort_launch now body uuid spawns s :
  streams (sort_launch now body uuid spawns s).1 = streams s.
Proof.
  unfold sort_launch. destruct body as [[??]|]; [|done].
  pose proof (streams_register_and_spawn uuid sort now spawns s) as E.
  destruct (register_and_spawn _ _ _ _ _). by destruct spawns.
Qed.

Lemma streams_sweep_entry now acc e :
  streams (sweep_entry now acc e).1 = streams acc.1.
Proof.
  destruct acc as [s out], e as [jobId a]. cbn [sweep_entry fst].
  destruct (store s !! a) as [l|]; [|done]. by repeat case_match.
Qed.

Lemma streams_sweep_entries now entries acc :
  streams (foldl (sweep_entry now) acc entries).1 = streams acc.1.
Proof.
  revert acc. induction entries as [|e es IH]; intros acc; [done|].
  cbn [foldl]. by rewrite IH, streams_sweep_entry.
Qed.

(** What one step does to an open stream: either it is the tick of its own
    timer, which sends the events past [eventIndex]; or it sends nothing on
    that stream and leaves [eventIndex] alone. *)
Lemma step_stream now lb s s' out sid st :
  step now lb s = Some (s', out) → streams s !! sid = Some st →
  ∃ st', streams s' !! sid = Some st' ∧ source st' = source st
    ∧ ((∃ l, intervalHandle st = true ∧ store s !! source st = Some l
             ∧ store s' = store s
             ∧ sent sid out = drop (eventIndex st) (Job.events (job l))
             ∧ eventIndex st' = length (Job.events (job l)))
       ∨ (sent sid out = [] ∧ eventIndex st' = eventIndex st
          ∧ (intervalHandle st = false → intervalHandle st' = false))).
Proof.
  intros H Hst. destruct lb; cbn [step] in H.
  - unfold tryAcquireValidationLock in H.
    destruct (validationLock s); simplify_eq/=; eauto 10.
  - destruct (pending s); [done|]. simplify_eq.
    pose proof (streams_validate_resume now body spawns (set_pending n s)) as E.
    pose proof (sent_validate_resume sid now body spawns (set_pending n s))
      as E'.
    rewrite H in E, E'. cbn in E, E'. rewrite E. eauto 10.
  - simplify_eq.
    pose proof (streams_trigger now spawns s) as E.
    pose proof (sent_trigger sid now spawns s) as E'.
    rewrite H in E, E'. cbn in E, E'. rewrite E. eauto 10.
  - simplify_eq.
    pose proof (streams_sort_launch now body uuid spawns s) as E.
    pose proof (sent_sort_launch sid now body uuid spawns s) as E'.
    rewrite H in E, E'. cbn in E, E'. rewrite E. eauto 10.
  - destruct (listening s p); simplify_eq/=. eauto 10.
  - destruct (listening s p); simplify_eq/=. eauto 10.
  - destruct (listening s p) as [l|]; simplify_eq/=.
    destruct (Job.type (job l)); simplify_eq/=. eauto 10.
  - destruct (listening s p) as [l|]; simplify_eq/=.
    destruct (Job.type (job l)); simplify_eq/=; eauto 10.
  - simplify_eq.
    pose proof (streams_sweep_entries now (activeJobs s) (s, [])) as E.
    pose proof (sent_sweep_entries sid now (activeJobs s) (s, [])) as E'.
    unfold sweep in H. rewrite H in E, E'. cbn in E, E'. rewrite E. eauto 10.
  - destruct (map_get jobId (activeJobs s)); simplify_eq/=; [|eauto 10].
    destruct (store s !! n) as [l|]; simplify_eq/=.
    unfold open_stream in H. simplify_eq/=.
    exists st. rewrite (lookup_app_l_Some _ _ _ _ Hst). split_and!; [done..|].
    right. split_and!; [|done..].
    assert (length (streams s) ≠ sid).
    { apply lookup_lt_Some in Hst. lia. }
    rewrite !sent_app, sent_enqueue_other by done. by case_match.
  - destruct (streams s !! sid0) as [st0|] eqn:E0; simplify_eq/=.
    destruct (intervalHandle st0) eqn:Hi; [|done].
    destruct (store s !! source st0) as [l|] eqn:El; simplify_eq/=.
    unfold poll in H. simplify_eq/=.
    destruct (decide (sid0 = sid)) as [->|Hne].
    + simplify_eq. eexists. rewrite list_lookup_insert_eq
        by (by eapply lookup_lt_Some). split_and!; [done..|].
      left. exists l. split_and!; [done..| |done].
      rewrite sent_app, sent_enqueue. case_match; cbn; by rewrite app_nil_r.
    + exists st. rewrite list_lookup_insert_ne by done. split_and!; [done..|].
      right. split_and!; [|done..].
      rewrite sent_app, sent_enqueue_other by done. by case_match.
  - destruct (streams s !! sid0) as [st0|] eqn:E0; simplify_eq/=.
    destruct (decide (sid0 = sid)) as [->|Hne].
    + simplify_eq. eexists. rewrite list_lookup_insert_eq
        by (by eapply lookup_lt_Some). split_and!; [done..|]. by right.
    + exists st. rewrite list_lookup_insert_ne by done. split_and!; [done..|].
      by right.
  - simplify_eq. eauto 10.
Qed.

(** Over a run, what a stream has sent so far and what it sends during the
    run make up the first [eventIndex] events of its job. *)
Lemma run_stream s tr s' out sid st l :
  run s tr = Some (s', out) →
  streams s !! sid = Some st → store s !! source st = Some l →
  (eventIndex st ≤ length (Job.events (job l)))%nat →
  ∃ st' l',
    streams s' !! sid = Some st' ∧ store s' !! source st = Some l'
    ∧ take (eventIndex st) (Job.events (job l)) ++ sent sid out
      = take (eventIndex st') (Job.events (job l'))
    ∧ (intervalHandle st = false → sent sid out = []).
Proof.
  revert s out st l.
  induction tr as [|[t lb] tr IH]; intros s out st l Hr Hst Hl Hi.
  - cbn in Hr. simplify_eq. exists st, l. cbn. by rewrite app_nil_r.
  - apply run_cons_inv in Hr as (s1&out1&out2&Hs&Hr&->).
    destruct (step_stream _ _ _ _ _ _ _ Hs Hst) as (st1&Hst1&Hsrc&Hcase).
    pose proof (step_store_evolves _ _ _ _ _ Hs (source st)) as Hev.
    rewrite Hl in Hev.
    destruct (store s1 !! source st) as [l1|] eqn:Hl1; [|done].
    rewrite <- Hsrc in Hl1.
    destruct Hcase as [(l0&Hon&Hl0&Hstore&Hsent&Hidx)|(Hsent&Hidx&Hoff)].
    + rewrite Hstore, Hsrc, Hl in Hl1. simplify_eq.
      destruct (IH _ _ _ _ Hr Hst1 ltac:(by rewrite Hsrc, Hstore) ltac:(lia))
        as (st'&l'&?&Hl'&Htake&_).
      exists st', l'. rewrite <- Hsrc. split_and!; [done..| |congruence].
      rewrite <- Htake, Hidx, sent_app, Hsent, (assoc_L (++)), take_drop.
      by rewrite firstn_all.
    + destruct (ev_events _ _ Hev) as [k Hk].
      destruct (IH _ _ _ _ Hr Hst1 Hl1 ltac:(rewrite Hidx, Hk, length_app; lia))
        as (st'&l'&?&Hl'&Htake&Hnone).
      exists st', l'. rewrite <- Hsrc. split_and!; [done..| |].
      * rewrite <- Htake, Hidx, sent_app, Hsent, Hk. cbn.
        by rewrite take_app_le.
      * intros Hf. rewrite sent_app, Hsent. cbn. auto.
Qed.

(** * The claims *)

Lemma handle_line_unparsable t l line :
  JSON.parse line = None → handle_line t l line = l.
Proof. intros H. unfold handle_line. rewrite H. by destruct (negb _). Qed.

Lemma handle_lines_unparsable t l lines :
  Forall (λ line, JSON.parse line = None) lines →
  foldl (handle_line t) l lines = l.
Proof.
  intros H. revert l. induction H as [|x xs Hx _ IH]; intros l; [done|].
  cbn. by rewrite handle_line_unparsable, IH.
Qed.

Lemma handle_lines_drop_unparsable t l before line after :
  JSON.parse line = None →
  foldl (handle_line t) l (before ++ line :: after)
  = foldl (handle_line t) l (before ++ after).
Proof.
  intros H. rewrite !foldl_app. cbn. by rewrite handle_line_unparsable.
Qed.

(** C8: a line that fails to parse is ignored.  For a data chunk and the
    complete lines it yields together with the rest of the buffer: a line
    among them that fails to parse can be left out without changing what
    the step does; and when all of them fail to parse, the step changes
    nothing but the rest kept in the buffer: the job object (its events, its
    status, every field) and the captured final result are as before, no
    error is recorded, nothing is sent or released. *)
Theorem unparsable_lines_leave_job_unchanged now s p l data :
  listening s p = Some l →
  (∀ before line after,
     (pop (split_nl (stdoutBuffer l ++ data))).1 = before ++ line :: after →
     JSON.parse line = None →
     step now (stdout_data p data) s
     = Some (update p
               (λ l, foldl (handle_line (Job.type (job l)))
                       (set_stdoutBuffer
                          (or_empty (pop (split_nl (stdoutBuffer l ++ data))).2)
                          l)
                       (before ++ after)) s, []))
  ∧ (Forall (λ line, JSON.parse line = None)
            (pop (split_nl (stdoutBuffer l ++ data))).1 →
     ∃ s',
       step now (stdout_data p data) s = Some (s', [])
       ∧ s' = update p (set_stdoutBuffer
                          (or_empty (pop (split_nl (stdoutBuffer l ++ data))).2))
                     s
       ∧ job_at s' p = Some (job l)
       ∧ finalResult <$> store s' !! p = Some (finalResult l)).
Proof.
  intros Hl. rewrite (step_stdout_data _ _ _ _ _ Hl).
  apply listening_Some in Hl as [Hl _]. split.
  - intros before line after Hlines Hline. do 2 f_equal.
    unfold update. f_equal. apply list_alter_ext; [|done].
    intros x Hx. simplify_eq. unfold on_stdout_data.
    cbn [fst snd pop] in *. rewrite Hlines.
    by apply handle_lines_drop_unparsable.
  - intros Hlines. eexists. split; [done|].
    assert (on_stdout_data data l
            = set_stdoutBuffer
                (or_empty (pop (split_nl (stdoutBuffer l ++ data))).2) l) as E.
    { unfold on_stdout_data. cbn in *. by rewrite handle_lines_unparsable. }
    split_and!.
    + unfold update. f_equal. apply list_alter_ext; [|done].
      intros x Hx. by simplify_eq.
    + unfold job_at. rewrite store_update, list_lookup_alter_eq, Hl.
      cbn [fmap option_fmap option_map]. by rewrite E.
    + rewrite store_update, list_lookup_alter_eq, Hl.
      cbn [fmap option_fmap option_map]. by rewrite E.
Qed.

Lemma unparsable_lines_leave_job_unchanged_witness :
  is_Some (listening (state_after (launch_at 0)) 0)
  ∧ ∃ s',
      step 5 (stdout_data 0 (noise_line ++ nl)) (state_after (launch_at 0))
      = Some (s', [])
      ∧ job_at s' 0 = job_at (state_after (launch_at 0)) 0.
Proof.
  split; [by eexists|].
  destruct (unparsable_lines_leave_job_unchanged 5 (state_after (launch_at 0))
              0 _ (noise_line ++ nl) eq_refl) as [_ Hall].
  destruct Hall as (s'&Hs&_&Hj&_); [repeat constructor|].
  exists s'. split; [exact Hs|exact Hj].
Defined.

(** Once the chunks are text, the text can be cut anywhere.  Handing the
    listener the texts [c :: cs] one after the other leaves the serving
    process in the very state that handing it their concatenation at once
    does: the same events in the same order, the same captured final
    result, the same rest in the buffer. *)
Lemma text_can_be_cut_anywhere s p t c (cs : list (Z * list N)) t' :
  run s ((λ tc, (tc.1, stdout_data p tc.2)) <$> ((t, c) :: cs))
  = step t' (stdout_data p (c ++ concat (snd <$> cs))) s.
Proof.
  destruct (listening s p) as [l|] eqn:Hl.
  - rewrite (run_stdout_chunks _ _ _ _ _ _ Hl).
    by rewrite (step_stdout_data _ _ _ _ _ Hl).
  - rewrite fmap_cons, run_cons. cbn. by rewrite Hl.
Qed.

(** C10: a stream request for an id that is not in [activeJobs] is answered
    404 "Job not found"; the state (jobs, streams, lock) is untouched and
    nothing else happens. *)
Theorem unknown_job_is_not_found now s jobId :
  map_get jobId (activeJobs s) = None →
  step now (GET_stream jobId) s
  = Some (s, [respond (not_found_404 (js "Job not found"))]).
Proof. intros H. cbn. by rewrite H. Qed.

Lemma unknown_job_is_not_found_witness :
  map_get (js "0b5c") (activeJobs (state_after (launch_at 0))) = None
  ∧ step 9 (GET_stream (js "0b5c")) (state_after (launch_at 0))
    = Some (state_after (launch_at 0),
            [respond (not_found_404 (js "Job not found"))]).
Proof.
  split; [reflexivity|].
  apply (unknown_job_is_not_found 9 (state_after (launch_at 0)) (js "0b5c")).
  reflexivity.
Defined.

(** C6: an observer that connects to a registered job holding the events
    [es] is sent exactly [es], in order, by the request itself.  Whatever
    the serving process does afterwards, what the observer has received
    starts with [es] and is a prefix of the job's event list: the later
    events follow, in append order.  If the job is terminal at connect time
    the stream is closed in the same step, its timer is never armed (no
    tick of it can occur) and nothing is sent on it later. *)
Theorem late_subscriber_gets_history_first now s jobId a l :
  map_get jobId (activeJobs s) = Some a → store s !! a = Some l →
  ∃ s1 out1,
    step now (GET_stream jobId) s = Some (s1, out1)
    ∧ sent (length (streams s)) out1 = Job.events (job l)
    ∧ (Job.terminal (job l) = true →
       out1 = (enqueue (length (streams s)) <$> Job.events (job l))
              ++ [close_stream (length (streams s));
                  respond (event_stream (length (streams s)))]
       ∧ ∀ t, step t (poll_tick (length (streams s))) s1 = None)
    ∧ ∀ tr s2 out2,
        run s1 tr = Some (s2, out2) →
        ∃ l2,
          store s2 !! a = Some l2
          ∧ Job.events (job l)
            `prefix_of` sent (length (streams s)) (out1 ++ out2)
          ∧ sent (length (streams s)) (out1 ++ out2)
            `prefix_of` Job.events (job l2)
          ∧ (Job.terminal (job l) = true →
             sent (length (streams s)) out2 = []).
Proof.
  intros Hget Hl. set (sid := length (streams s)).
  set (st := mk_stream a (length (Job.events (job l)))
                       (negb (Job.terminal (job l))) (Job.terminal (job l))).
  assert (sent sid (open_stream a l s).2 = Job.events (job l)) as Hsent.
  { unfold open_stream. cbn [snd]. fold sid.
    rewrite !sent_app, sent_enqueue. case_match; cbn; by rewrite app_nil_r. }
  assert (streams (open_stream a l s).1 !! sid = Some st) as Hst.
  { unfold open_stream. cbn [fst streams set_streams].
    by rewrite list_lookup_middle. }
  exists (open_stream a l s).1, (open_stream a l s).2. split_and!.
  - cbn [step]. rewrite Hget. cbn. by rewrite Hl.
  - done.
  - intros Ht. split.
    + cbn. by rewrite Ht.
    + intros t. cbn [step]. rewrite Hst. cbn. by rewrite Ht.
  - intros tr s2 out2 Hr.
    destruct (run_stream _ _ _ _ _ _ l Hr Hst) as (st'&l2&_&Hl2&Htake&Hoff);
      [done..|].
    exists l2. cbn [source st] in Hl2. rewrite sent_app, Hsent.
    cbn [eventIndex st] in Htake. rewrite firstn_all in Htake.
    split_and!; [done|by apply prefix_app_r|..].
    + rewrite Htake. apply prefix_take.
    + intros Ht. apply Hoff. cbn. by rewrite Ht.
Qed.

Lemma late_subscriber_gets_history_first_witness :
  map_get validation_current (activeJobs (state_after finished_run))
  = Some 0%nat
  ∧ ∃ l s1 out1,
      store (state_after finished_run) !! 0%nat = Some l
      ∧ length (Job.events (job l)) = 2%nat
      ∧ step 20 (GET_stream validation_current) (state_after finished_run)
        = Some (s1, out1)
      ∧ sent 0 out1 = Job.events (job l).
Proof.
  split; [reflexivity|].
  destruct (late_subscriber_gets_history_first 20 (state_after finished_run)
              validation_current 0 _ eq_refl eq_refl) as (s1&out1&Hs&Hsent&_).
  eexists _, s1, out1. split; [reflexivity|]. split; [reflexivity|].
  split; [exact Hs|exact Hsent].
Defined.

Lemma reachable_state_after tr : reachable (state_after tr).
Proof.
  unfold state_after. destruct (run init tr) as [[s out]|] eqn:E.
  - by exists tr, out.
  - by exists [], [].
Defined.

(** The job of a closed process that is terminal does not change any more. *)
Lemma closed_terminal_job_frozen s tr s' out a l :
  run s tr = Some (s', out) → store s !! a = Some l →
  attached l = false → Job.terminal (job l) = true →
  store s' !! a = Some l.
Proof.
  intros Hr Hl Ha Ht. destruct (run_evolves _ _ _ _ _ _ Hr Hl) as (l'&Hl'&Hev).
  by rewrite Hl', (ev_frozen _ _ Hev Ha Ht).
Qed.

(** C2 as stated fails: a run that prints nothing and exits with code 0 ends
    [complete] with [result] equal to [null]. *)
Lemma exit_zero_with_null_result :
  ∃ j,
    job_at (state_after silent_success) 0 = Some j
    ∧ Job.status j = complete
    ∧ Job.result j = Some JNull.
Proof. by eexists. Qed.

(** C5 as stated fails: after its process has closed, the terminal job
    still holds the process handle. *)
Lemma handle_not_cleared_after_exit :
  ∃ l,
    store (state_after silent_success) !! 0%nat = Some l
    ∧ attached l = false
    ∧ Job.status (job l) = complete
    ∧ Job.process (job l) = Some 0%nat.
Proof. by eexists. Qed.

(** C7, as the code has it: at process exit the rest of the buffer is
    parsed whenever it is not blank, whatever was captured before.  If it
    parses, its value becomes the final result, in place of a result
    captured from a streamed line; if it is blank or does not parse, the
    captured result (or [null]) stays.  With exit code 0 or 1 that final
    result is the job's [result]. *)
Theorem trailing_buffer_overrides_captured_result now s p code l :
  listening s p = Some l →
  ∃ s1 out1 l1,
    step now (process_close p code) s = Some (s1, out1)
    ∧ store s1 !! p = Some l1
    ∧ (trim (stdoutBuffer l) = [] → finalResult l1 = finalResult l)
    ∧ (∀ v, trim (stdoutBuffer l) ≠ [] →
            JSON.parse (trim (stdoutBuffer l)) = Some v → finalResult l1 = v)
    ∧ (JSON.parse (trim (stdoutBuffer l)) = None →
       finalResult l1 = finalResult l)
    ∧ (normal_exit code = true →
       Job.result (job l1) = Some (finalResult l1)).
Proof.
  intros Hl. pose proof Hl as Hl0. apply listening_Some in Hl0 as [Hp Ha].
  assert (∃ s1 out1, step now (process_close p code) s = Some (s1, out1)
                     ∧ store s1 = alter (on_close now code) p (store s))
    as (s1&out1&Hs&Hstore).
  { cbn [step]. rewrite Hl. cbn. destruct (Job.type (job l)); by eexists _, _. }
  exists s1, out1, (on_close now code l). split; [done|]. split.
  { by rewrite Hstore, list_lookup_alter_eq, Hp. }
  assert (finalResult (on_close now code l) = finalResult (parse_remaining l))
    as ->.
  { unfold on_close. by destruct (normal_exit code). }
  unfold parse_remaining. split_and!.
  - by intros ->.
  - intros v Hne Hv. rewrite Hv. by destruct (trim (stdoutBuffer l)).
  - intros ->. by destruct (truthy_string _).
  - intros Hn. unfold on_close. rewrite Hn. cbn.
    unfold parse_remaining. by repeat case_match.
Qed.

Lemma trailing_buffer_overrides_captured_result_witness :
  is_Some (listening (state_after result_then_trailing) 0)
  ∧ ∃ s1 out1 l1,
      step 9 (process_close 0 (Some 0)) (state_after result_then_trailing)
      = Some (s1, out1)
      ∧ store s1 !! 0%nat = Some l1
      ∧ Some (finalResult l1) = JSON.parse progress_line.
Proof.
  split; [by eexists|].
  destruct (trailing_buffer_overrides_captured_result 9
              (state_after result_then_trailing) 0 (Some 0) _ eq_refl)
    as (s1&out1&l1&Hs&Hl1&_&Hparsed&_).
  exists s1, out1, l1. split; [exact Hs|]. split; [exact Hl1|].
  eapply (f_equal Some), Hparsed; [discriminate|reflexivity].
Defined.

(** C7 as stated fails: the result line was captured from the stream, and
    the progress object left in the buffer replaces it at exit. *)
Lemma captured_result_replaced_by_trailing_buffer :
  Some <$> (finalResult <$> store (state_after result_then_trailing) !! 0%nat)
  = Some (JSON.parse result_line)
  ∧ ∃ s1 out1,
      step 9 (process_close 0 (Some 0)) (state_after result_then_trailing)
      = Some (s1, out1)
      ∧ Job.result <$> job_at s1 0 = Some (JSON.parse progress_line)
      ∧ JSON.parse progress_line ≠ JSON.parse result_line.
Proof.
  split; [by vm_compute|]. eexists _, _. split; [by vm_compute|].
  split; [by vm_compute|]. by vm_compute.
Qed.

(** C1 fails on the code.  After [relaunch_before_close] the second run is
    registered and running, yet the lock is free: the close listener of the
    first, timed-out run released it.  A third request is then accepted and
    spawns a third process: two validation jobs are running. *)
Theorem validation_starts_while_another_runs :
  let s := state_after relaunch_before_close in
  (Job.status <$> getActiveValidationJob s) = Some running
  ∧ validationLock s = false
  ∧ ∃ s',
      run s (launch_at (ceiling + 4))
      = Some (s', [spawn 2 (validation_args None);
                   respond (launched validation_current
                              (js "/api/validate/stream/validation-current"))])
      ∧ (λ j, (Job.type j, Job.status j)) <$> job_at s' 1
        = Some (validation, running)
      ∧ (λ j, (Job.type j, Job.status j)) <$> job_at s' 2
        = Some (validation, running).
Proof.
  split; [by vm_compute|]. split; [by vm_compute|].
  eexists. split; [by vm_compute|]. by split.
Qed.

(** C3 fails on the code.  On the timeout path of one launch the lock is
    released twice: by the sweeper, and again by the close listener when the
    killed process closes. *)
Theorem lock_released_twice_after_timeout :
  ∃ s out,
    run init (timeout_then_close None) = Some (s, out)
    ∧ releases_of 0 out = [by_sweeper 0; by_close_listener 0].
Proof. eexists _, _. split; by vm_compute. Qed.

(** C4 fails on the code.  The sweeper marks the run [error]; its process,
    which was about to exit normally, closes with code 0 and the close
    listener overwrites the status with [complete]. *)
Theorem status_goes_from_error_to_complete :
  Job.status
    <$> job_at (state_after (launch_at 0 ++ [(ceiling + 1, cleanup_tick)])) 0
  = Some error
  ∧ Job.status <$> job_at (state_after (timeout_then_close (Some 0))) 0
    = Some complete.
Proof. split; by vm_compute. Qed.

(** ** The intended behaviour, on the ordinary paths *)

(** While the lock is held, a request is refused and changes nothing. *)
Lemma locked_request_conflicts now s :
  validationLock s = true →
  step now POST_validate s = Some (s, [respond conflict_409])
  ∧ ∀ spawns,
      step now (trigger_call spawns) s
      = Some (s, [trigger_resolved false]).
Proof.
  intros H. split; [|intros spawns]; cbn; unfold triggerBackgroundValidation;
    unfold tryAcquireValidationLock; by rewrite H.
Qed.

(** The scenario of the specification: a second request during the run is
    refused; the run ends [complete] with two events, its lock is released
    once, and the next request is accepted. *)
Example scenario_launch_conflict_finish_relaunch :
  ∃ s out,
    run init (launch_at 0 ++ [(1, POST_validate)] ++ drop 2 finished_run)
    = Some (s, out)
    ∧ respond conflict_409 ∈ out
    ∧ releases_of 0 out = [by_close_listener 0]
    ∧ validationLock s = false
    ∧ (λ j, (Job.status j, length (Job.events j))) <$> job_at s 0
      = Some (complete, 2%nat)
    ∧ is_Some (run s (launch_at 20)).
Proof.
  eexists _, _. split; [by vm_compute|]. split_and!.
  - apply list_elem_of_In. vm_compute. tauto.
  - by vm_compute.
  - by vm_compute.
  - by vm_compute.
  - vm_compute. by eexists.
Qed.

(** The spawn failure path has the same double release as the timeout path:
    the error listener and the close listener both release the lock, and
    both record an error event. *)
Example spawn_failure_releases_twice :
  ∃ s out,
    run init spawn_failure = Some (s, out)
    ∧ releases_of 0 out = [by_error_listener 0; by_close_listener 0]
    ∧ (λ j, (Job.status j, length (Job.events j))) <$> job_at s 0
      = Some (error, 2%nat).
Proof. eexists _, _. split; [by vm_compute|]. split; by vm_compute. Qed.

(** * Further properties of the code *)

(** ** Histories *)

Lemma store_history_refl h : store_history h h.
Proof. intros a. by destruct (h !! a). Qed.

Lemma store_history_trans h1 h2 h3 :
  store_history h1 h2 → store_history h2 h3 → store_history h1 h3.
Proof.
  intros H12 H23 a. specialize (H12 a). specialize (H23 a).
  destruct (h1 !! a), (h2 !! a), (h3 !! a); try done.
  - by etrans.
  - destruct H12 as (origin&?&?). exists origin. split; [done|by etrans].
Qed.

Lemma store_history_alter h a f :
  (∀ l, h !! a = Some l → change l (f l)) →
  store_history h (alter f a h).
Proof.
  intros Hf b. destruct (decide (a = b)) as [->|Hne].
  - rewrite list_lookup_alter_eq. destruct (h !! b) eqn:E; cbn; [|done].
    by apply rtc_once, Hf.
  - rewrite list_lookup_alter_ne by done. by destruct (h !! b).
Qed.

Lemma store_history_snoc h l : born l → store_history h (h ++ [l]).
Proof.
  intros Hl a. destruct (h !! a) eqn:E.
  - by rewrite (lookup_app_l_Some _ _ _ _ E).
  - apply lookup_ge_None in E. rewrite lookup_app_r by done.
    destruct ([l] !! (a - length h)%nat) eqn:E'; [|done].
    apply list_lookup_singleton_Some in E' as [_ <-]. by exists l.
Qed.

Lemma store_register_and_spawn_fresh jobId t now spawns s :
  store (register_and_spawn jobId t now spawns s).1
  = store s ++ [fresh_launch jobId t now (length (store s)) spawns].
Proof.
  unfold register_and_spawn, fresh_launch. destruct spawns; cbn; [|done].
  by rewrite alter_app_r_alt, Nat.sub_diag by done.
Qed.

Lemma store_history_register_and_spawn jobId t now spawns s :
  (t = validation → jobId = validation_current) →
  store_history (store s) (store (register_and_spawn jobId t now spawns s).1).
Proof.
  intros H. rewrite store_register_and_spawn_fresh.
  apply store_history_snoc. by eexists _, _, _, _, _.
Qed.

Lemma store_history_validate_resume now body spawns s :
  store_history (store s) (store (validate_resume now body spawns s).1).
Proof.
  unfold validate_resume. destruct body as [type|]; [|apply store_history_refl].
  pose proof (store_history_register_and_spawn validation_current validation
                now spawns (evict_finished validation_current s)
                (λ _, eq_refl)) as Hs.
  rewrite store_evict_finished in Hs.
  destruct (register_and_spawn _ _ _ _ _) as [s1 a]. by destruct spawns.
Qed.

Lemma store_history_trigger now spawns s :
  store_history (store s) (store (triggerBackgroundValidation now spawns s).1).
Proof.
  unfold triggerBackgroundValidation, tryAcquireValidationLock.
  destruct (validationLock s); cbn [negb]; [apply store_history_refl|].
  pose proof (store_history_register_and_spawn validation_current validation
                now spawns (evict_finished validation_current
                              (set_validationLock true s))
                (λ _, eq_refl)) as Hs.
  rewrite store_evict_finished in Hs.
  destruct (register_and_spawn _ _ _ _ _) as [s1 a]. by destruct spawns.
Qed.

Lemma store_history_sort_launch now body uuid spawns s :
  store_history (store s) (store (sort_launch now body uuid spawns s).1).
Proof.
  unfold sort_launch.
  destruct body as [[dryRun runValidation]|]; [|apply store_history_refl].
  pose proof (store_history_register_and_spawn uuid sort now spawns s) as Hs.
  destruct (register_and_spawn _ _ _ _ _) as [s1 a].
  destruct spawns; by apply Hs.
Qed.

Lemma timed_out_running now j :
  timed_out now j = true → Job.status j = running.
Proof.
  unfold timed_out. intros [H _]%andb_prop. by apply bool_decide_eq_true in H.
Qed.

Lemma store_history_sweep_entry now acc e :
  store_history (store acc.1) (store (sweep_entry now acc e).1).
Proof.
  destruct acc as [s out], e as [jobId a]. cbn [sweep_entry fst].
  destruct (store s !! a) as [l|] eqn:E; [|apply store_history_refl].
  destruct (timed_out now (job l)) eqn:Ht.
  - assert (store_history (store s) (alter (time_out now) a (store s))) as Hs.
    { apply store_history_alter. intros l' El. simplify_eq.
      by apply change_timeout, (timed_out_running now). }
    by repeat case_match.
  - by repeat case_match; apply store_history_refl.
Qed.

Lemma store_history_sweep now s :
  store_history (store s) (store (sweep now s).1).
Proof.
  unfold sweep. generalize (activeJobs s). intros entries.
  change (store s) with (store (s, @nil effect).1) at 1.
  generalize (s, @nil effect). intros acc. revert acc.
  induction entries as [|e es IH]; intros acc; [apply store_history_refl|].
  cbn [foldl]. eapply store_history_trans;
    [apply store_history_sweep_entry|apply IH].
Qed.

Lemma step_store_history now lb s s' out :
  step now lb s = Some (s', out) → store_history (store s) (store s').
Proof.
  destruct lb; cbn [step]; intros H.
  - unfold tryAcquireValidationLock in H.
    destruct (validationLock s); simplify_eq/=; apply store_history_refl.
  - destruct (pending s); [done|]. simplify_eq. name_state H.
    apply (store_history_validate_resume now body spawns (set_pending n s)).
  - simplify_eq. name_state H. apply store_history_trigger.
  - simplify_eq. name_state H. apply store_history_sort_launch.
  - destruct (listening s p) as [l|] eqn:El; simplify_eq/=.
    apply listening_Some in El as [El Ha].
    apply store_history_alter. intros ? ?. simplify_eq. by constructor.
  - destruct (listening s p) as [l|] eqn:El; simplify_eq/=.
    apply listening_Some in El as [El Ha].
    apply store_history_alter. intros ? ?. simplify_eq. by constructor.
  - destruct (listening s p) as [l|] eqn:El; simplify_eq/=.
    apply listening_Some in El as [El Ha].
    destruct (Job.type (job l)) eqn:Et; simplify_eq/=.
    apply store_history_alter. intros ? ?. simplify_eq. by constructor.
  - destruct (listening s p) as [l|] eqn:El; simplify_eq/=.
    apply listening_Some in El as [El Ha].
    destruct (Job.type (job l)); simplify_eq/=;
      apply store_history_alter; intros ? ?; simplify_eq; by constructor.
  - simplify_eq. name_state H. apply store_history_sweep.
  - destruct (map_get jobId (activeJobs s)); simplify_eq/=;
      [|apply store_history_refl].
    unfold open_stream in H.
    destruct (store s !! n); simplify_eq/=. apply store_history_refl.
  - destruct (streams s !! sid) as [st|]; simplify_eq/=.
    destruct (intervalHandle st); [|done]. unfold poll in H.
    destruct (store s !! source st); simplify_eq/=. apply store_history_refl.
  - destruct (streams s !! sid) as [st|]; simplify_eq/=.
    apply store_history_refl.
  - simplify_eq. apply store_history_refl.
Qed.

Lemma run_store_history s tr s' out :
  run s tr = Some (s', out) → store_history (store s) (store s').
Proof.
  revert s out. induction tr as [|[t lb] tr IH]; intros s out H.
  - cbn in H. simplify_eq. apply store_history_refl.
  - apply run_cons_inv in H as (s1&out1&out2&Hs&Hr&->).
    eapply store_history_trans; [by eapply step_store_history|by eapply IH].
Qed.

(** An object present before a run is present after it, changed by the
    listeners and the sweeper only. *)
Lemma run_changes s tr s' out a l :
  run s tr = Some (s', out) → store s !! a = Some l →
  ∃ l', store s' !! a = Some l' ∧ rtc change l l'.
Proof.
  intros Hr Hl. pose proof (run_store_history _ _ _ _ Hr a) as H.
  rewrite Hl in H. destruct (store s' !! a) as [l'|]; [eauto|done].
Qed.

(** Induction over the objects of the reachable states. *)
Lemma reachable_launch_ind (P : launch → Prop) :
  (∀ l, born l → P l) →
  (∀ l l', change l l' → P l → P l') →
  ∀ s a l, reachable s → store s !! a = Some l → P l.
Proof.
  intros Hborn Hchange s a l (tr&out&Hr) Hl.
  pose proof (run_store_history _ _ _ _ Hr a) as H. cbn in H.
  rewrite Hl in H. destruct H as (l0&Hl0&Hrtc).
  clear Hl. revert l Hrtc. apply rtc_ind_r; [by apply Hborn|].
  intros y z _ Hyz Hy. by apply (Hchange y z).
Qed.

(** ** The shape of a job, by status *)

Lemma handle_line_progress t l line :
  ∃ evs,
    job (handle_line t l line)
    = Job.mk (Job.id (job l)) (Job.type (job l)) (Job.startTime (job l))
             (Job.status (job l)) (Job.events (job l) ++ evs)
             (Job.process (job l)) (Job.result (job l)) (Job.endTime (job l))
    ∧ Forall (λ e, is_progress_event e = true) evs.
Proof.
  assert (∃ evs, Job.events (job l) ++ evs = Job.events (job l)
                 ∧ Forall (λ e, is_progress_event e = true) evs) as Hnil.
  { exists []. by rewrite app_nil_r. }
  assert (∀ l' : launch, job l' = job l →
            ∃ evs,
              job l'
              = Job.mk (Job.id (job l)) (Job.type (job l))
                       (Job.startTime (job l)) (Job.status (job l))
                       (Job.events (job l) ++ evs) (Job.process (job l))
                       (Job.result (job l)) (Job.endTime (job l))
              ∧ Forall (λ e, is_progress_event e = true) evs) as Hsame.
  { intros l' ->. exists []. split; [|done].
    destruct (job l). cbn. by rewrite app_nil_r. }
  unfold handle_line. destruct (negb _); [by apply Hsame|].
  destruct (JSON.parse line) as [v|]; [|by apply Hsame].
  destruct v; try (by apply Hsame);
    (destruct (is_progress _) eqn:Hp;
     [eexists [_]; split; [done|by repeat constructor]|]);
    (destruct (JSON.prop _ _); by apply Hsame).
Qed.

Lemma handle_lines_progress t lines l :
  ∃ evs,
    job (foldl (handle_line t) l lines)
    = Job.mk (Job.id (job l)) (Job.type (job l)) (Job.startTime (job l))
             (Job.status (job l)) (Job.events (job l) ++ evs)
             (Job.process (job l)) (Job.result (job l)) (Job.endTime (job l))
    ∧ Forall (λ e, is_progress_event e = true) evs.
Proof.
  revert l. induction lines as [|x xs IH]; intros l.
  - exists []. split; [|done]. cbn [foldl].
    destruct (job l). cbn. by rewrite app_nil_r.
  - cbn [foldl]. destruct (handle_line_progress t l x) as (e1&E1&H1).
    destruct (IH (handle_line t l x)) as (e2&E2&H2).
    exists (e1 ++ e2). split; [|by apply Forall_app].
    rewrite E2, E1. cbn. by rewrite (assoc_L (++)).
Qed.

(** A data chunk only appends progress events to the job. *)
Lemma on_stdout_data_progress data l :
  ∃ evs,
    job (on_stdout_data data l)
    = Job.mk (Job.id (job l)) (Job.type (job l)) (Job.startTime (job l))
             (Job.status (job l)) (Job.events (job l) ++ evs)
             (Job.process (job l)) (Job.result (job l)) (Job.endTime (job l))
    ∧ Forall (λ e, is_progress_event e = true) evs.
Proof. rewrite on_stdout_data_unfold. apply handle_lines_progress. Qed.

Lemma shape_born l : born l → shape l.
Proof.
  intros (jobId&t&now&a&spawns&->&_). unfold shape, fresh_launch.
  by destruct spawns; cbn; split_and!.
Qed.

Lemma shape_change l l' : change l l' → shape l → shape l'.
Proof.
  intros Hc Hs.
  destruct Hc as [l data Ha|l data Ha|l now msg Ha _|l now code Ha|l now Hr];
    unfold shape in *.
  - rewrite on_stdout_data_attached.
    destruct (on_stdout_data_progress data l) as (evs&->&Hevs). cbn.
    destruct (Job.status (job l)).
    + destruct Hs as (?&?&?). split_and!; [done..|by apply Forall_app].
    + destruct Hs as (?&_). congruence.
    + destruct Hs as (?&?&?). split_and!; [done..|]. apply Exists_app. by left.
  - done.
  - cbn. split_and!; [done| |].
    + destruct (Job.status (job l)); [apply Hs| |apply Hs].
      destruct Hs as (?&_). congruence.
    + apply Exists_app. right. by constructor.
  - unfold on_close. destruct (normal_exit code); cbn;
      rewrite ?parse_remaining_job.
    + split_and!; [done..|]. eexists. split; [done|]. by rewrite last_snoc.
    + split_and!; [done| |].
      * destruct (Job.status (job l)); [apply Hs| |apply Hs].
        destruct Hs as (?&_). congruence.
      * apply Exists_app. right. by constructor.
  - cbn. rewrite Hr in Hs. destruct Hs as (?&?&?). split_and!; [done..|].
    apply Exists_app. right. by constructor.
Qed.

(** In every reachable state every job has the shape of its status. *)
Lemma reachable_shape s a l :
  reachable s → store s !! a = Some l → shape l.
Proof. apply reachable_launch_ind; [apply shape_born|apply shape_change]. Qed.

(** ** The registry as a map *)

Lemma map_get_set_eq k a (m : list (list N * nat)) :
  map_get k (map_set k a m) = Some a.
Proof.
  induction m as [|[k' a'] m IH]; cbn.
  - by rewrite decide_True.
  - destruct (decide (k' = k)) as [->|Hne]; cbn;
      [by rewrite decide_True|by rewrite decide_False].
Qed.

Lemma map_get_set_ne k k' a (m : list (list N * nat)) :
  k' ≠ k → map_get k' (map_set k a m) = map_get k' m.
Proof.
  intros Hne. induction m as [|[k0 a0] m IH]; cbn.
  - by rewrite decide_False.
  - destruct (decide (k0 = k)) as [->|]; cbn.
    + by rewrite !decide_False.
    + by rewrite IH.
Qed.

Lemma map_get_delete_eq k (m : list (list N * nat)) :
  map_get k (map_delete k m) = None.
Proof.
  unfold map_delete. induction m as [|[k' a'] m IH]; [done|].
  rewrite filter_cons. cbn. destruct (decide (k' ≠ k)); [|done].
  cbn. by rewrite decide_False.
Qed.

Lemma map_get_delete_ne k k' (m : list (list N * nat)) :
  k' ≠ k → map_get k' (map_delete k m) = map_get k' m.
Proof.
  intros Hne. unfold map_delete. induction m as [|[k0 a0] m IH]; [done|].
  rewrite filter_cons. cbn. destruct (decide (k0 ≠ k)) as [|Heq]; cbn.
  - by rewrite IH.
  - apply dec_stable in Heq as ->. by rewrite decide_False.
Qed.

Lemma map_get_Some_elem k a (m : list (list N * nat)) :
  map_get k m = Some a → (k, a) ∈ m.
Proof.
  induction m as [|[k' a'] m IH]; [done|]. cbn.
  destruct (decide (k' = k)) as [->|].
  - intros [= ->]. by left.
  - intros H. right. by apply IH.
Qed.

Lemma map_get_None k (m : list (list N * nat)) :
  map_get k m = None ↔ k ∉ m.*1.
Proof.
  induction m as [|[k' a'] m IH]; cbn.
  - split; [intros _; apply not_elem_of_nil|done].
  - rewrite not_elem_of_cons. destruct (decide (k' = k)) as [->|]; [naive_solver|].
    rewrite IH. naive_solver.
Qed.

Lemma map_get_elem k a (m : list (list N * nat)) :
  NoDup m.*1 → (k, a) ∈ m → map_get k m = Some a.
Proof.
  induction m as [|[k' a'] m IH]; [by intros _ ?%elem_of_nil|].
  cbn. intros [Hk Hm]%NoDup_cons [[= -> ->]|Hin]%elem_of_cons.
  - by rewrite decide_True.
  - destruct (decide (k' = k)) as [->|]; [|by apply IH].
    destruct Hk. by apply (list_elem_of_fmap_2 fst _ (k, a)).
Qed.

Lemma map_delete_sublist k (m : list (list N * nat)) :
  map_delete k m `sublist_of` m.
Proof. apply sublist_filter. Qed.

Lemma elem_of_map_delete k k' a (m : list (list N * nat)) :
  (k', a) ∈ map_delete k m ↔ k' ≠ k ∧ (k', a) ∈ m.
Proof. unfold map_delete. by rewrite list_elem_of_filter. Qed.

Lemma elem_of_map_set k a k' a' (m : list (list N * nat)) :
  (k', a') ∈ map_set k a m → (k' = k ∧ a' = a) ∨ (k', a') ∈ m.
Proof.
  induction m as [|[k0 a0] m IH]; cbn.
  - intros ?%list_elem_of_singleton. naive_solver.
  - destruct (decide (k0 = k)) as [->|].
    + intros [?|?]%elem_of_cons; [naive_solver|]. right. by right.
    + intros [->|Hin]%elem_of_cons; [right; by left|].
      destruct (IH Hin); [by left|]. right. by right.
Qed.

Lemma map_set_keys k a (m : list (list N * nat)) :
  (map_set k a m).*1 = if decide (k ∈ m.*1) then m.*1 else m.*1 ++ [k].
Proof.
  induction m as [|[k0 a0] m IH]; cbn.
  - rewrite decide_False; [done|apply not_elem_of_nil].
  - destruct (decide (k0 = k)) as [->|Hne]; cbn.
    + rewrite decide_True; [done|by left].
    + rewrite IH. destruct (decide (k ∈ m.*1)).
      * rewrite decide_True; [done|by right].
      * rewrite decide_False; [done|]. rewrite not_elem_of_cons. naive_solver.
Qed.

Lemma NoDup_map_set_keys k a (m : list (list N * nat)) :
  NoDup m.*1 → NoDup (map_set k a m).*1.
Proof.
  intros H. rewrite map_set_keys. destruct (decide _); [done|].
  apply NoDup_app. split_and!; [done| |apply NoDup_singleton].
  intros x Hx ->%list_elem_of_singleton. done.
Qed.

Lemma map_set_values_elem k a x (m : list (list N * nat)) :
  x ∈ (map_set k a m).*2 → x = a ∨ x ∈ m.*2.
Proof.
  intros ([k' a']&->&Hin)%list_elem_of_fmap.
  destruct (elem_of_map_set _ _ _ _ _ Hin) as [[_ ->]|Hm]; [by left|].
  right. by apply (list_elem_of_fmap_2 snd _ (k', a')).
Qed.

Lemma NoDup_map_set_values k a (m : list (list N * nat)) :
  NoDup m.*2 → a ∉ m.*2 → NoDup (map_set k a m).*2.
Proof.
  induction m as [|[k0 a0] m IH]; cbn.
  - intros _ _. apply NoDup_singleton.
  - intros [H0 Hm]%NoDup_cons [Hne Ha]%not_elem_of_cons.
    destruct (decide (k0 = k)) as [->|]; cbn.
    + apply NoDup_cons. by split.
    + apply NoDup_cons. split; [|by apply IH].
      intros [->|?]%map_set_values_elem; done.
Qed.

(** ** The registry is well formed *)

Lemma registry_ok_store s s' :
  registry_ok s → activeJobs s' = activeJobs s →
  store_evolves (store s) (store s') → registry_ok s'.
Proof.
  intros (Hk&Ha&Hl) E Hev. unfold registry_ok. rewrite E.
  split_and!; [done..|]. intros k a Hin.
  destruct (Hl k a Hin) as (l&El&Hid). specialize (Hev a). rewrite El in Hev.
  destruct (store s' !! a) as [l'|]; [|done].
  exists l'. split; [done|]. by rewrite (ev_id _ _ Hev).
Qed.

Lemma registry_ok_delete k s :
  registry_ok s → registry_ok (set_activeJobs (map_delete k (activeJobs s)) s).
Proof.
  intros (Hk&Ha&Hl). unfold registry_ok. cbn. split_and!.
  - eapply sublist_NoDup; [exact Hk|]. apply fmap_sublist, map_delete_sublist.
  - eapply sublist_NoDup; [exact Ha|]. apply fmap_sublist, map_delete_sublist.
  - intros k' a [_ Hin]%elem_of_map_delete. by apply Hl.
Qed.

Lemma registry_ok_evict_finished jobId s :
  registry_ok s → registry_ok (evict_finished jobId s).
Proof.
  intros H. unfold evict_finished. repeat case_match; try done.
  by apply registry_ok_delete.
Qed.

Lemma registry_ok_register_and_spawn jobId t now spawns s :
  registry_ok s → registry_ok (register_and_spawn jobId t now spawns s).1.
Proof.
  intros (Hk&Ha&Hl).
  assert (activeJobs (register_and_spawn jobId t now spawns s).1
          = map_set jobId (length (store s)) (activeJobs s)) as Em.
  { unfold register_and_spawn. by destruct spawns. }
  unfold registry_ok.
  rewrite Em, store_register_and_spawn_fresh. split_and!.
  - by apply NoDup_map_set_keys.
  - apply NoDup_map_set_values; [done|].
    intros ([k a]&Heq&Hin)%list_elem_of_fmap. cbn in Heq.
    destruct (Hl k _ Hin) as (l&El&_). apply lookup_lt_Some in El. lia.
  - intros k a Hin. destruct (elem_of_map_set _ _ _ _ _ Hin) as [[-> ->]|Hm].
    + rewrite list_lookup_middle by done. eexists. split; [done|].
      unfold fresh_launch. by destruct spawns.
    + destruct (Hl k a Hm) as (l&El&Hid). exists l.
      by rewrite (lookup_app_l_Some _ _ _ _ El).
Qed.

Lemma registry_ok_sweep_entry now s out e :
  registry_ok s → registry_ok (sweep_entry now (s, out) e).1.
Proof.
  intros H. destruct e as [jobId a]. cbn [sweep_entry].
  destruct (store s !! a) as [l|] eqn:E; [|done].
  set (s1 := if expired now (job l)
             then set_activeJobs (map_delete jobId (activeJobs s)) s else s).
  assert (registry_ok s1) as H1.
  { subst s1. destruct (expired now (job l)); [by apply registry_ok_delete|done]. }
  assert (store s1 = store s) as Es1.
  { subst s1. by destruct (expired now (job l)). }
  destruct (timed_out now (job l)) eqn:Ht; [|done].
  assert (registry_ok (update a (time_out now) s1)) as H2.
  { apply (registry_ok_store s1); [done..|].
    apply store_evolves_update. intros l' El'. rewrite Es1, E in El'.
    simplify_eq. by apply evolves_time_out, (timed_out_running now). }
  by destruct (bool_decide _).
Qed.

Lemma registry_ok_sweep_entries now entries acc :
  registry_ok acc.1 → registry_ok (foldl (sweep_entry now) acc entries).1.
Proof.
  revert acc. induction entries as [|e es IH]; intros [s out] H; [done|].
  cbn [foldl]. apply IH. by apply registry_ok_sweep_entry.
Qed.

Lemma step_registry_ok now lb s s' out :
  step now lb s = Some (s', out) → registry_ok s → registry_ok s'.
Proof.
  intros Hs H. pose proof (step_store_evolves _ _ _ _ _ Hs) as Hev.
  destruct lb; cbn [step] in Hs.
  - unfold tryAcquireValidationLock in Hs.
    destruct (validationLock s); by simplify_eq/=.
  - destruct (pending s); [done|]. simplify_eq. unfold validate_resume in Hs.
    destruct body as [type|]; [|by simplify_eq].
    pose proof (registry_ok_register_and_spawn validation_current validation
                  now spawns _
                  (registry_ok_evict_finished validation_current
                     (set_pending n s) H)) as H1.
    destruct (register_and_spawn _ _ _ _ _) as [s1 a].
    by destruct spawns; simplify_eq.
  - simplify_eq. unfold triggerBackgroundValidation in Hs.
    unfold tryAcquireValidationLock in Hs.
    destruct (validationLock s); cbn [negb] in Hs; [by simplify_eq|].
    pose proof (registry_ok_register_and_spawn validation_current validation
                  now spawns _
                  (registry_ok_evict_finished validation_current
                     (set_validationLock true s) H)) as H1.
    destruct (register_and_spawn _ _ _ _ _) as [s1 a].
    by destruct spawns; simplify_eq.
  - simplify_eq. unfold sort_launch in Hs.
    destruct body as [[dryRun runValidation]|]; [|by simplify_eq].
    pose proof (registry_ok_register_and_spawn uuid sort now spawns s H) as H1.
    destruct (register_and_spawn _ _ _ _ _) as [s1 a].
    by destruct spawns; simplify_eq.
  - destruct (listening s p); simplify_eq/=.
    by apply (registry_ok_store s).
  - destruct (listening s p); simplify_eq/=.
    by apply (registry_ok_store s).
  - destruct (listening s p) as [l|]; simplify_eq/=.
    destruct (Job.type (job l)); simplify_eq/=.
    by apply (registry_ok_store s).
  - destruct (listening s p) as [l|]; simplify_eq/=.
    destruct (Job.type (job l)); simplify_eq/=;
      by apply (registry_ok_store s).
  - simplify_eq. name_state Hs.
    by apply (registry_ok_sweep_entries now (activeJobs s) (s, [])).
  - destruct (map_get jobId (activeJobs s)); simplify_eq/=; [|done].
    unfold open_stream in Hs. destruct (store s !! n); by simplify_eq/=.
  - destruct (streams s !! sid) as [st|]; simplify_eq/=.
    destruct (intervalHandle st); [|done]. unfold poll in Hs.
    destruct (store s !! source st); by simplify_eq/=.
  - destruct (streams s !! sid) as [st|]; by simplify_eq/=.
  - by simplify_eq.
Qed.

Lemma run_registry_ok s tr s' out :
  run s tr = Some (s', out) → registry_ok s → registry_ok s'.
Proof.
  revert s out. induction tr as [|[t lb] tr IH]; intros s out H Hok.
  - cbn in H. by simplify_eq.
  - apply run_cons_inv in H as (s1&out1&out2&Hs&Hr&->).
    eapply IH; [done|]. by eapply step_registry_ok.
Qed.

Lemma reachable_registry_ok s : reachable s → registry_ok s.
Proof.
  intros (tr&out&Hr). apply (run_registry_ok _ _ _ _ Hr).
  unfold registry_ok. cbn. split_and!; [apply NoDup_nil_2..|].
  by intros k a ?%elem_of_nil.
Qed.

(** ** The cleanup tick, entry by entry *)

Lemma sweep_entry_activeJobs now s out k a :
  activeJobs (sweep_entry now (s, out) (k, a)).1
  = match store s !! a with
    | Some l =>
        if expired now (job l) then map_delete k (activeJobs s)
        else activeJobs s
    | None => activeJobs s
    end.
Proof. cbn [sweep_entry]. by repeat case_match. Qed.

Lemma sweep_entry_store now s out k a :
  store (sweep_entry now (s, out) (k, a)).1
  = match store s !! a with
    | Some l =>
        if timed_out now (job l) then alter (time_out now) a (store s)
        else store s
    | None => store s
    end.
Proof. cbn [sweep_entry]. by repeat case_match. Qed.

Lemma sweep_entry_lock now s out k a :
  validationLock (sweep_entry now (s, out) (k, a)).1
  = match store s !! a with
    | Some l =>
        if timed_out now (job l) && bool_decide (Job.type (job l) = validation)
        then false else validationLock s
    | None => validationLock s
    end.
Proof. cbn [sweep_entry]. by repeat case_match. Qed.

Lemma sweep_entry_out now s out k a :
  (sweep_entry now (s, out) (k, a)).2
  = out
    ++ match store s !! a with
       | Some l =>
           if timed_out now (job l) then
             match Job.process (job l) with
             | Some p => [kill_SIGTERM p]
             | None => []
             end
             ++ (if bool_decide (Job.type (job l) = validation)
                 then [lock_released (by_sweeper a)] else [])
           else []
       | None => []
       end.
Proof.
  cbn [sweep_entry]. repeat case_match; cbn [snd];
    by rewrite ?app_nil_r, ?(assoc_L (++)).
Qed.

Lemma sweep_entry_rest now s out e :
  streams (sweep_entry now (s, out) e).1 = streams s
  ∧ pending (sweep_entry now (s, out) e).1 = pending s.
Proof. destruct e. cbn [sweep_entry]. by repeat case_match. Qed.

(** The effects of a tick only grow. *)
Lemma sweep_entries_out_prefix now entries acc :
  acc.2 `prefix_of` (foldl (sweep_entry now) acc entries).2.
Proof.
  revert acc. induction entries as [|[k a] es IH]; intros [s out]; [done|].
  cbn [foldl]. etrans; [|apply IH].
  destruct (sweep_entry now (s, out) (k, a)) as [s1 out1] eqn:E.
  pose proof (sweep_entry_out now s out k a) as Ho. rewrite E in Ho.
  cbn [snd] in *. rewrite Ho. by apply prefix_app_r.
Qed.

(** Once free, the lock stays free during a tick. *)
Lemma sweep_entries_lock_false now entries acc :
  validationLock acc.1 = false →
  validationLock (foldl (sweep_entry now) acc entries).1 = false.
Proof.
  revert acc. induction entries as [|[k a] es IH]; intros [s out] H; [done|].
  cbn [foldl]. destruct (sweep_entry now (s, out) (k, a)) as [s1 out1] eqn:E.
  apply IH. pose proof (sweep_entry_lock now s out k a) as Hl.
  rewrite E in Hl. cbn [fst] in *. rewrite Hl, H. by repeat case_match.
Qed.

(** The objects after a tick: the registered ones that timed out are marked,
    the others are as before. *)
Lemma sweep_entries_store now entries s out a :
  NoDup entries.*2 →
  store (foldl (sweep_entry now) (s, out) entries).1 !! a
  = (λ l, if bool_decide (a ∈ entries.*2) && timed_out now (job l)
          then time_out now l else l) <$> store s !! a.
Proof.
  revert s out. induction entries as [|[k a0] es IH]; intros s out Hnd.
  - cbn. by destruct (store s !! a).
  - apply NoDup_cons in Hnd as [Ha0 Hnd]. cbn [foldl].
    destruct (sweep_entry now (s, out) (k, a0)) as [s1 out1] eqn:E.
    rewrite (IH s1 out1 Hnd).
    pose proof (sweep_entry_store now s out k a0) as Hs. rewrite E in Hs.
    cbn [fst] in Hs. rewrite Hs. cbn [fmap list_fmap snd].
    destruct (decide (a = a0)) as [->|Hne].
    + rewrite (bool_decide_eq_false_2 (a0 ∈ es.*2)) by done.
      rewrite (bool_decide_eq_true_2 (a0 ∈ a0 :: es.*2)) by (by left).
      cbn [andb]. destruct (store s !! a0) as [l|] eqn:El; [|by rewrite El].
      destruct (timed_out now (job l)) eqn:Ht.
      * rewrite list_lookup_alter_eq, El.
        cbn [fmap option_fmap option_map]. by rewrite Ht.
      * rewrite El. cbn [fmap option_fmap option_map]. by rewrite Ht.
    + assert (bool_decide (a ∈ a0 :: es.*2) = bool_decide (a ∈ es.*2)) as ->.
      { apply bool_decide_ext. rewrite elem_of_cons. naive_solver. }
      assert (match store s !! a0 with
              | Some l => if timed_out now (job l)
                          then alter (time_out now) a0 (store s) else store s
              | None => store s
              end !! a = store s !! a) as ->; [|done].
      repeat case_match; try done. by rewrite list_lookup_alter_ne.
Qed.

Lemma sweep_entry_store_ne now s out k a0 a :
  a ≠ a0 → store (sweep_entry now (s, out) (k, a0)).1 !! a = store s !! a.
Proof.
  intros Hne. rewrite sweep_entry_store.
  repeat case_match; try done. by rewrite list_lookup_alter_ne.
Qed.

(** The registry after a tick: the entries whose job had expired are gone,
    the others are there. *)
Lemma sweep_entries_activeJobs now entries s out k a :
  NoDup entries.*2 →
  (k, a) ∈ activeJobs (foldl (sweep_entry now) (s, out) entries).1
  ↔ (k, a) ∈ activeJobs s
    ∧ ¬ ∃ a' l, (k, a') ∈ entries ∧ store s !! a' = Some l
                ∧ expired now (job l) = true.
Proof.
  revert s out. induction entries as [|[k0 a0] es IH]; intros s out Hnd.
  - cbn. split; [|naive_solver]. intros H. split; [done|].
    by intros (?&?&?%elem_of_nil&_).
  - apply NoDup_cons in Hnd as [Ha0 Hnd]. cbn [foldl].
    destruct (sweep_entry now (s, out) (k0, a0)) as [s1 out1] eqn:E.
    rewrite (IH s1 out1 Hnd).
    pose proof (sweep_entry_activeJobs now s out k0 a0) as Hm.
    rewrite E in Hm. cbn [fst] in Hm. rewrite Hm.
    assert (∀ a', (k, a') ∈ es → store s1 !! a' = store s !! a') as Hst.
    { intros a' Hin. pose proof (sweep_entry_store_ne now s out k0 a0 a') as Hs.
      rewrite E in Hs. apply Hs. intros ->. apply Ha0.
      by apply (list_elem_of_fmap_2 snd _ (k, a0)). }
    split.
    + intros [Hin Hno]. split.
      * repeat case_match; try done. by apply elem_of_map_delete in Hin as [_ ?].
      * intros (a'&l&[[= -> ->]|Hes]%elem_of_cons&El&Hexp).
        -- rewrite El, Hexp in Hin. by apply elem_of_map_delete in Hin as [? _].
        -- apply Hno. exists a', l. by rewrite Hst.
    + intros [Hin Hno]. split.
      * destruct (store s !! a0) as [l0|] eqn:El0; [|done].
        destruct (expired now (job l0)) eqn:Hexp; [|done].
        apply elem_of_map_delete. split; [|done]. intros ->.
        apply Hno. exists a0, l0. split_and!; [by left|done..].
      * intros (a'&l&Hes&El&Hexp). apply Hno. exists a', l.
        rewrite <- Hst by done. split_and!; [by right|done..].
Qed.

(** What a tick does for a registered job that timed out: its process is
    sent SIGTERM and, for a validation job, the lock is released. *)
Lemma sweep_entries_timed_out now entries s out k a l :
  NoDup entries.*2 → (k, a) ∈ entries →
  store s !! a = Some l → timed_out now (job l) = true →
  (∀ p, Job.process (job l) = Some p →
        kill_SIGTERM p ∈ (foldl (sweep_entry now) (s, out) entries).2)
  ∧ (Job.type (job l) = validation →
     validationLock (foldl (sweep_entry now) (s, out) entries).1 = false
     ∧ lock_released (by_sweeper a)
       ∈ (foldl (sweep_entry now) (s, out) entries).2).
Proof.
  revert s out. induction entries as [|[k0 a0] es IH]; intros s out Hnd Hin El Ht;
    [by apply elem_of_nil in Hin|].
  apply NoDup_cons in Hnd as [Ha0 Hnd]. cbn [foldl].
  destruct (sweep_entry now (s, out) (k0, a0)) as [s1 out1] eqn:E.
  apply elem_of_cons in Hin as [[= <- <-]|Hin].
  - pose proof (sweep_entries_out_prefix now es (s1, out1)) as [rest Hrest].
    pose proof (sweep_entry_out now s out k a) as Ho.
    pose proof (sweep_entry_lock now s out k a) as Hl.
    rewrite E in Ho, Hl. cbn [fst snd] in Ho, Hl, Hrest.
    rewrite El, Ht in Ho, Hl.
    assert (∀ e, e ∈ out1 → e ∈ (foldl (sweep_entry now) (s1, out1) es).2)
      as Hlift.
    { intros e He. rewrite Hrest. apply elem_of_app. by left. }
    split.
    + intros p Hp. apply Hlift. rewrite Ho, Hp, !elem_of_app.
      right. left. by left.
    + intros Hv. rewrite (bool_decide_eq_true_2 _ Hv) in Hl, Ho. split.
      * by apply (sweep_entries_lock_false now es (s1, out1)).
      * apply Hlift. rewrite Ho, !elem_of_app. right. right. by left.
  - apply (IH s1 out1); [done..| |done].
    pose proof (sweep_entry_store_ne now s out k0 a0 a) as Hs.
    rewrite E in Hs. cbn [fst] in Hs. rewrite Hs; [done|].
    intros ->. apply Ha0. by apply (list_elem_of_fmap_2 snd _ (k, a0)).
Qed.

(** A tick with nothing to do does nothing. *)
Lemma sweep_entries_idle now entries s :
  (∀ k a l, (k, a) ∈ entries → store s !! a = Some l →
            expired now (job l) = false ∧ timed_out now (job l) = false) →
  foldl (sweep_entry now) (s, []) entries = (s, []).
Proof.
  induction entries as [|[k a] es IH]; intros H; [done|].
  cbn [foldl].
  assert (sweep_entry now (s, []) (k, a) = (s, [])) as ->.
  { cbn [sweep_entry]. destruct (store s !! a) as [l|] eqn:El; [|done].
    destruct (H k a l) as [-> ->]; [by left|done..]. }
  apply IH. intros k' a' l' Hin. apply (H k'). by right.
Qed.

(** ** Jobs in the reachable states *)

Lemma change_evolves l l' : change l l' → evolves l l'.
Proof.
  intros [l0 data Ha|l0 data Ha|l0 now msg Ha _|l0 now code Ha|l0 now Hr].
  - by apply evolves_on_stdout_data.
  - by apply evolves_on_stderr_data.
  - by apply evolves_on_error.
  - by apply evolves_on_close.
  - by apply evolves_time_out.
Qed.

Lemma is_progress_type v :
  is_progress v = true →
  JSON.prop v (js "type") = Some (JString (js "progress")).
Proof.
  unfold is_progress. destruct (JSON.prop v (js "type")) as [[]|]; try done.
  by intros ->%bool_decide_eq_true.
Qed.

(** X1: in every reachable state a job whose status is [running] has no
    [endTime] and no [result], and its events are all progress objects, each
    an object parsed from the output whose [type] is ['progress']. *)
Theorem running_job_holds_only_progress_events s a l :
  reachable s → store s !! a = Some l → Job.status (job l) = running →
  Job.endTime (job l) = None ∧ Job.result (job l) = None
  ∧ Forall (λ e, ∃ v, e = progress_event v
                      ∧ JSON.prop v (js "type")
                        = Some (JString (js "progress")))
           (Job.events (job l)).
Proof.
  intros Hs Hl Hr. pose proof (reachable_shape s a l Hs Hl) as H.
  unfold shape in H. rewrite Hr in H. destruct H as (?&?&Hev).
  split_and!; [done..|]. eapply Forall_impl; [exact Hev|].
  intros [v| |] Hv; try done. exists v. split; [done|].
  by apply is_progress_type.
Qed.

Lemma running_job_holds_only_progress_events_witness :
  reachable (state_after run_in_progress)
  ∧ ∃ l,
      store (state_after run_in_progress) !! 0%nat = Some l
      ∧ Job.status (job l) = running
      ∧ length (Job.events (job l)) = 1%nat
      ∧ Job.endTime (job l) = None ∧ Job.result (job l) = None
      ∧ Forall (λ e, ∃ v, e = progress_event v
                          ∧ JSON.prop v (js "type")
                            = Some (JString (js "progress")))
               (Job.events (job l)).
Proof.
  split; [apply reachable_state_after|].
  eexists. split; [reflexivity|]. split; [reflexivity|].
  split; [reflexivity|].
  apply (running_job_holds_only_progress_events
           (state_after run_in_progress) 0).
  - apply reachable_state_after.
  - reflexivity.
  - reflexivity.
Defined.

(** X2: in every reachable state a job whose status is [complete] belongs to
    a process that has closed; it has its [endTime]; its [result] is set,
    and its last event is the completion event carrying that same result. *)
Theorem complete_job_ends_with_its_result s a l :
  reachable s → store s !! a = Some l → Job.status (job l) = complete →
  attached l = false ∧ is_Some (Job.endTime (job l))
  ∧ ∃ r, Job.result (job l) = Some r
         ∧ last (Job.events (job l)) = Some (complete_event r).
Proof.
  intros Hs Hl Hc. pose proof (reachable_shape s a l Hs Hl) as H.
  unfold shape in H. by rewrite Hc in H.
Qed.

Lemma complete_job_ends_with_its_result_witness :
  reachable (state_after finished_run)
  ∧ ∃ l,
      store (state_after finished_run) !! 0%nat = Some l
      ∧ Job.status (job l) = complete
      ∧ attached l = false ∧ is_Some (Job.endTime (job l))
      ∧ ∃ r, Job.result (job l) = Some r
             ∧ last (Job.events (job l)) = Some (complete_event r).
Proof.
  split; [apply reachable_state_after|].
  eexists. split; [reflexivity|]. split; [reflexivity|].
  apply (complete_job_ends_with_its_result (state_after finished_run) 0).
  - apply reachable_state_after.
  - reflexivity.
  - reflexivity.
Defined.

(** X3: in every reachable state [endTime] is set exactly on the terminal
    jobs and [result] exactly on the complete ones; a job in status [error]
    holds at least one error event. *)
Theorem endTime_and_result_follow_status s a l :
  reachable s → store s !! a = Some l →
  (is_Some (Job.endTime (job l)) ↔ Job.terminal (job l) = true)
  ∧ (is_Some (Job.result (job l)) ↔ Job.status (job l) = complete)
  ∧ (Job.status (job l) = error →
     ∃ message stderr, error_event message stderr ∈ Job.events (job l)).
Proof.
  intros Hs Hl. pose proof (reachable_shape s a l Hs Hl) as H.
  unfold shape, Job.terminal in *.
  destruct (Job.status (job l)); cbn.
  - destruct H as (->&->&_).
    split_and!; [split; [by intros [? ?]|done]..|done].
  - destruct H as (_&?&r&->&_).
    split_and!; [by split|split; [done|by eexists]|done].
  - destruct H as (?&->&Hex).
    split_and!; [by split|split; [by intros [? ?]|done]|].
    intros _. apply Exists_exists in Hex as ([|?|m e]&Hin&?); try done.
    by exists m, e.
Qed.

Lemma endTime_and_result_follow_status_witness :
  reachable (state_after spawn_failure)
  ∧ ∃ l,
      store (state_after spawn_failure) !! 0%nat = Some l
      ∧ Job.status (job l) = error
      ∧ is_Some (Job.endTime (job l)) ∧ Job.result (job l) = None
      ∧ ∃ message stderr, error_event message stderr ∈ Job.events (job l).
Proof.
  split; [apply reachable_state_after|].
  eexists. split; [reflexivity|]. split; [reflexivity|].
  destruct (endTime_and_result_follow_status (state_after spawn_failure) 0 _
              (reachable_state_after spawn_failure) eq_refl)
    as (Hend&Hres&Herr).
  split; [by apply Hend|]. split; [reflexivity|]. by apply Herr.
Defined.

Lemma change_terminal l l' :
  change l l' → Job.terminal (job l) = true → Job.terminal (job l') = true.
Proof.
  intros [l0 data Ha|l0 data Ha|l0 now msg Ha _|l0 now code Ha|l0 now Hr];
    unfold Job.terminal; try done.
  - destruct (on_stdout_data_progress data l0) as (evs&->&_). done.
  - intros _. unfold on_close. by destruct (normal_exit code).
Qed.

(** X4: over any run, a job keeps its [id], [type] and [startTime]; its
    events are only appended to (the old list is a prefix of the new one); a
    process handle stays; and a terminal job stays terminal: no step sets a
    status back to [running]. *)
Theorem job_history_is_monotone s tr s' out a l :
  run s tr = Some (s', out) → store s !! a = Some l →
  ∃ l',
    store s' !! a = Some l'
    ∧ Job.id (job l') = Job.id (job l)
    ∧ Job.type (job l') = Job.type (job l)
    ∧ Job.startTime (job l') = Job.startTime (job l)
    ∧ Job.events (job l) `prefix_of` Job.events (job l')
    ∧ (∀ p, Job.process (job l) = Some p → Job.process (job l') = Some p)
    ∧ (Job.terminal (job l) = true → Job.terminal (job l') = true).
Proof.
  intros Hr Hl. destruct (run_changes _ _ _ _ _ _ Hr Hl) as (l'&Hl'&Hc).
  exists l'. split; [done|]. clear Hl Hl' Hr.
  induction Hc as [l|l1 l2 l3 H12 _ IH].
  - by split_and!.
  - destruct (change_evolves _ _ H12) as [Hid Hty Hst Hev Hp _ _ _].
    destruct IH as (I1&I2&I3&I4&I5&I6). split_and!.
    + congruence.
    + congruence.
    + congruence.
    + by etrans.
    + intros p Hp0. by apply I5, Hp.
    + intros Ht. by apply I6, (change_terminal _ _ H12).
Qed.

Lemma job_history_is_monotone_witness :
  run (state_after run_in_progress)
      [(ceiling + 1, cleanup_tick); (ceiling + 2, process_close 0 (Some 0))]
  = Some (state_after
            (run_in_progress
             ++ [(ceiling + 1, cleanup_tick);
                 (ceiling + 2, process_close 0 (Some 0))]),
          [kill_SIGTERM 0; lock_released (by_sweeper 0);
           lock_released (by_close_listener 0)])
  ∧ ∃ l l',
      store (state_after run_in_progress) !! 0%nat = Some l
      ∧ store (state_after
                 (run_in_progress
                  ++ [(ceiling + 1, cleanup_tick);
                      (ceiling + 2, process_close 0 (Some 0))])) !! 0%nat
        = Some l'
      ∧ Job.events (job l) `prefix_of` Job.events (job l')
      ∧ length (Job.events (job l')) = 3%nat.
Proof.
  split; [by vm_compute|].
  destruct (job_history_is_monotone (state_after run_in_progress)
              [(ceiling + 1, cleanup_tick);
               (ceiling + 2, process_close 0 (Some 0))]
              _ _ 0 _ eq_refl eq_refl) as (l'&Hl'&_&_&_&Hev&_).
  eexists _, l'. split; [reflexivity|]. split; [exact Hl'|].
  split; [exact Hev|].
  vm_compute in Hl'. by injection Hl' as <-.
Defined.

(** ** The rolling buffer *)

Lemma split_nl_no_newline s : Forall (λ piece, 10%N ∉ piece) (split_nl s).
Proof.
  induction s as [|c r IH]; cbn.
  - repeat constructor. apply not_elem_of_nil.
  - destruct (decide (c = 10%N)) as [->|Hc].
    + constructor; [apply not_elem_of_nil|done].
    + destruct (split_nl r) as [|l ls]; inv IH.
      * repeat constructor. intros ?%list_elem_of_singleton. congruence.
      * constructor; [|done]. rewrite not_elem_of_cons. by split.
Qed.

Lemma split_nl_join s :
  concat ((λ piece, piece ++ [10%N]) <$> removelast (split_nl s))
  ++ default [] (last (split_nl s)) = s.
Proof.
  induction s as [|c r IH]; [done|].
  pose proof (split_nl_nonempty r) as Hr. cbn [split_nl].
  destruct (decide (c = 10%N)) as [->|Hc].
  - rewrite removelast_cons_nonempty, last_cons_nonempty by done.
    cbn. by rewrite IH.
  - destruct (split_nl r) as [|l [|l2 ls]]; [done|..].
    + cbn in *. by rewrite IH.
    + rewrite (removelast_cons_nonempty l), (last_cons_nonempty l) in IH
        by done.
      rewrite (removelast_cons_nonempty (c :: l)),
        (last_cons_nonempty (c :: l)) by done.
      rewrite fmap_cons in IH |- *. cbn [concat] in IH |- *.
      rewrite <- !(assoc_L (++)) in IH |- *. cbn [app] in IH |- *.
      by rewrite IH.
Qed.

(** X5: a data chunk is consumed without loss.  The lines handed to the line
    handler, each followed by its newline, and the rest kept in
    [stdoutBuffer] spell exactly the old rest followed by the chunk; no line
    and no rest contains a newline. *)
Theorem rolling_buffer_loses_nothing data l :
  concat ((λ line, line ++ nl)
            <$> (pop (split_nl (stdoutBuffer l ++ data))).1)
  ++ stdoutBuffer (on_stdout_data data l)
  = stdoutBuffer l ++ data
  ∧ (10%N ∉ stdoutBuffer (on_stdout_data data l))
  ∧ Forall (λ line, 10%N ∉ line) (pop (split_nl (stdoutBuffer l ++ data))).1
  ∧ on_stdout_data data l
    = foldl (handle_line (Job.type (job l)))
            (set_stdoutBuffer (stdoutBuffer (on_stdout_data data l)) l)
            (pop (split_nl (stdoutBuffer l ++ data))).1.
Proof.
  assert (stdoutBuffer (on_stdout_data data l)
          = default [] (last (split_nl (stdoutBuffer l ++ data)))) as E.
  { by rewrite on_stdout_data_unfold. }
  pose proof (split_nl_no_newline (stdoutBuffer l ++ data)) as Hno.
  rewrite E. cbn [pop fst]. split_and!.
  - apply split_nl_join.
  - destruct (split_nl (stdoutBuffer l ++ data)) as [|x xs] using rev_ind;
      [apply not_elem_of_nil|].
    rewrite last_snoc. cbn. by apply Forall_app in Hno as [_ [? _]%Forall_cons].
  - destruct (split_nl (stdoutBuffer l ++ data)) as [|x xs] using rev_ind;
      [done|].
    rewrite removelast_last. by apply Forall_app in Hno as [? _].
  - unfold on_stdout_data, pop. by rewrite or_empty_default.
Qed.

(** ** The registry in the reachable states *)

Lemma registered_job_id s k a :
  reachable s → map_get k (activeJobs s) = Some a →
  ∃ l, store s !! a = Some l ∧ Job.id (job l) = k.
Proof.
  intros Hs Hk. destruct (reachable_registry_ok s Hs) as (_&_&Hl).
  apply map_get_Some_elem in Hk. by apply Hl.
Qed.

(** X6: in every reachable state a job found under a key carries that key
    as its [id], and no job is registered under two keys. *)
Theorem registered_job_carries_its_key s k a :
  reachable s → map_get k (activeJobs s) = Some a →
  (∃ l, store s !! a = Some l ∧ Job.id (job l) = k)
  ∧ ∀ k', map_get k' (activeJobs s) = Some a → k' = k.
Proof.
  intros Hs Hk. destruct (reachable_registry_ok s Hs) as (_&_&Hl).
  apply map_get_Some_elem in Hk. split; [by apply Hl|].
  intros k' Hk'%map_get_Some_elem.
  destruct (Hl k a Hk) as (l&El&<-), (Hl k' a Hk') as (l'&El'&<-). congruence.
Qed.

Lemma registered_job_carries_its_key_witness :
  reachable (state_after finished_run)
  ∧ map_get validation_current (activeJobs (state_after finished_run))
    = Some 0%nat
  ∧ Job.id <$> job_at (state_after finished_run) 0 = Some validation_current.
Proof.
  split; [apply reachable_state_after|]. split; [reflexivity|].
  destruct (registered_job_carries_its_key (state_after finished_run)
              validation_current 0 (reachable_state_after finished_run)
              eq_refl) as [(l&Hl&Hid) _].
  unfold job_at. rewrite Hl. cbn. by rewrite Hid.
Defined.

Lemma reachable_validation_id s a l :
  reachable s → store s !! a = Some l →
  Job.type (job l) = validation → Job.id (job l) = validation_current.
Proof.
  revert s a l.
  apply (reachable_launch_ind
           (λ l, Job.type (job l) = validation
                 → Job.id (job l) = validation_current)).
  - intros l (jobId&t&now&a&spawns&->&Hwk). unfold fresh_launch.
    by destruct spawns.
  - intros l l' [Hid Hty _ _ _ _ _ _]%change_evolves HP Ht.
    rewrite Hid. apply HP. congruence.
Qed.

(** X7: the validation slot is single.  In every reachable state a
    registered job of type [validation] is registered under
    ['validation-current'], so any two registered validation jobs are one
    and the same object. *)
Theorem one_registered_validation_job s k1 a1 l1 k2 a2 l2 :
  reachable s →
  map_get k1 (activeJobs s) = Some a1 → store s !! a1 = Some l1 →
  Job.type (job l1) = validation →
  map_get k2 (activeJobs s) = Some a2 → store s !! a2 = Some l2 →
  Job.type (job l2) = validation →
  k1 = validation_current ∧ k2 = validation_current ∧ a1 = a2.
Proof.
  intros Hs Hk1 Hl1 Ht1 Hk2 Hl2 Ht2.
  destruct (registered_job_id s k1 a1 Hs Hk1) as (x1&E1&Hi1).
  destruct (registered_job_id s k2 a2 Hs Hk2) as (x2&E2&Hi2).
  simplify_eq.
  rewrite (reachable_validation_id s a1 l1 Hs Hl1 Ht1) in *.
  rewrite (reachable_validation_id s a2 l2 Hs Hl2 Ht2) in *.
  split_and!; [done..|congruence].
Qed.

Lemma one_registered_validation_job_witness :
  reachable (state_after relaunch_before_close)
  ∧ map_get validation_current (activeJobs (state_after relaunch_before_close))
    = Some 1%nat
  ∧ Job.type <$> job_at (state_after relaunch_before_close) 1
    = Some validation
  ∧ validation_current = validation_current ∧ 1%nat = 1%nat.
Proof.
  split; [apply reachable_state_after|]. split; [reflexivity|].
  split; [reflexivity|].
  destruct (one_registered_validation_job
              (state_after relaunch_before_close)
              validation_current 1 _ validation_current 1 _
              (reachable_state_after relaunch_before_close)
              eq_refl eq_refl eq_refl eq_refl eq_refl eq_refl)
    as (H1&_&H3).
  split; [exact H1|exact H3].
Defined.

(** ** The status endpoint *)

Lemma first_running_validation_Some h (m : list (list N * nat)) j :
  first_running_validation h m = Some j →
  ∃ k a l, (k, a) ∈ m ∧ h !! a = Some l ∧ j = job l
           ∧ Job.type (job l) = validation ∧ Job.status (job l) = running.
Proof.
  induction m as [|[k a] m IH]; [done|]. cbn.
  destruct (h !! a) as [l|] eqn:El.
  - destruct (bool_decide (Job.type (job l) = validation)) eqn:Ht;
      [destruct (bool_decide (Job.status (job l) = running)) eqn:Hr|]; cbn.
    + intros [= <-]. apply bool_decide_eq_true in Ht, Hr.
      exists k, a, l. split_and!; [by left|done..].
    + intros (k'&a'&l'&?&?)%IH. exists k', a', l'. split; [by right|done].
    + intros (k'&a'&l'&?&?)%IH. exists k', a', l'. split; [by right|done].
  - intros (k'&a'&l'&?&?)%IH. exists k', a', l'. split; [by right|done].
Qed.

Lemma first_running_validation_slot h (m : list (list N * nat)) :
  NoDup m.*1 →
  (∀ k a, (k, a) ∈ m → ∃ l, h !! a = Some l ∧ Job.id (job l) = k
                            ∧ (Job.type (job l) = validation
                               → k = validation_current)) →
  first_running_validation h m
  = a ← map_get validation_current m;
    l ← h !! a;
    if bool_decide (Job.type (job l) = validation)
       && bool_decide (Job.status (job l) = running)
    then Some (job l) else None.
Proof.
  induction m as [|[k a] m IH]; [done|].
  intros [Hk Hnd]%NoDup_cons Hall. cbn [first_running_validation map_get].
  destruct (Hall k a) as (l&El&Hid&Hwk); [by left|]. rewrite El.
  assert (first_running_validation h m
          = a ← map_get validation_current m;
            l ← h !! a;
            if bool_decide (Job.type (job l) = validation)
               && bool_decide (Job.status (job l) = running)
            then Some (job l) else None) as IH'.
  { apply IH; [done|]. intros k' a' Hin. apply Hall. by right. }
  destruct (bool_decide (Job.type (job l) = validation)
            && bool_decide (Job.status (job l) = running)) eqn:Hc.
  - apply andb_prop in Hc as [Ht%bool_decide_eq_true Hr%bool_decide_eq_true].
    rewrite (Hwk Ht), decide_True by done. cbn. rewrite El. cbn.
    by rewrite !bool_decide_eq_true_2.
  - destruct (decide (k = validation_current)) as [->|Hne].
    + cbn. rewrite El. cbn. rewrite Hc.
      destruct (first_running_validation h m) as [j|] eqn:Ef; [|done].
      apply first_running_validation_Some in Ef as (k'&a'&l'&Hin&El'&_&Ht&_).
      destruct (Hall k' a') as (x&Ex&_&Hwk'); [by right|]. simplify_eq.
      destruct Hk. rewrite <- (Hwk' Ht).
      by apply (list_elem_of_fmap_2 fst _ (k', a')).
    + exact IH'.
Qed.

(** X8: in every reachable state the status endpoint depends on the
    ['validation-current'] slot alone: it reports a running validation
    exactly when the job registered there is a validation job in status
    [running], and then with that job's id and start time. *)
Theorem status_reports_the_validation_slot s :
  reachable s →
  status_response s
  = status_report
      (a ← map_get validation_current (activeJobs s);
       l ← store s !! a;
       if bool_decide (Job.type (job l) = validation)
          && bool_decide (Job.status (job l) = running)
       then Some (validation_current, Job.startTime (job l), running)
       else None).
Proof.
  intros Hs. destruct (reachable_registry_ok s Hs) as (Hk&_&Hl).
  unfold status_response, getActiveValidationJob.
  rewrite first_running_validation_slot; [|done|].
  - destruct (map_get validation_current (activeJobs s)) as [a|] eqn:Ea;
      [|done]. cbn.
    destruct (store s !! a) as [l|] eqn:El; [|done]. cbn.
    destruct (bool_decide (Job.type (job l) = validation)) eqn:Ht; [|done].
    destruct (bool_decide (Job.status (job l) = running)) eqn:Hr; [|done].
    cbn. apply bool_decide_eq_true in Ht, Hr.
    by rewrite (reachable_validation_id s a l Hs El Ht), Hr.
  - intros k a Hin. destruct (Hl k a Hin) as (l&El&Hid).
    exists l. split_and!; [done..|]. intros Ht.
    by rewrite <- Hid, (reachable_validation_id s a l Hs El Ht).
Qed.

Lemma status_reports_the_validation_slot_witness :
  reachable (state_after run_in_progress)
  ∧ step 7 GET_status (state_after run_in_progress)
    = Some (state_after run_in_progress,
            [respond (status_report (Some (validation_current, 0, running)))]).
Proof.
  split; [apply reachable_state_after|]. cbn [step].
  by rewrite (status_reports_the_validation_slot _
                (reachable_state_after run_in_progress)).
Defined.

(** ** The cleanup tick *)

(** X9: timeout enforcement.  In a reachable state, a registered job in
    status [running] whose start lies more than 30 minutes back is marked by
    the next tick: status [error], the timeout message appended, [endTime]
    set to the time of the tick.  It stays registered, its process (if it
    has one) is sent SIGTERM, and for a validation job the lock is free
    after the tick. *)
Theorem tick_times_out_stuck_job now s k a l :
  reachable s →
  map_get k (activeJobs s) = Some a → store s !! a = Some l →
  timed_out now (job l) = true →
  ∃ s' out,
    step now cleanup_tick s = Some (s', out)
    ∧ store s' !! a = Some (time_out now l)
    ∧ map_get k (activeJobs s') = Some a
    ∧ (∀ p, Job.process (job l) = Some p → kill_SIGTERM p ∈ out)
    ∧ (Job.type (job l) = validation →
       validationLock s' = false ∧ lock_released (by_sweeper a) ∈ out).
Proof.
  intros Hs Hk Hl Ht. destruct (reachable_registry_ok s Hs) as (Hnk&Hna&Hreg).
  pose proof (map_get_Some_elem _ _ _ Hk) as Hin.
  exists (sweep now s).1, (sweep now s).2.
  split; [cbn [step]; by destruct (sweep now s)|].
  unfold sweep.
  destruct (sweep_entries_timed_out now (activeJobs s) s [] k a l)
    as [Hkill Hlock]; [done..|].
  split_and!; [| |done..].
  - rewrite sweep_entries_store, Hl by done. cbn.
    rewrite bool_decide_eq_true_2, Ht; [done|].
    by apply (list_elem_of_fmap_2 snd _ (k, a)).
  - apply map_get_elem.
    + by apply (registry_ok_sweep_entries now (activeJobs s) (s, [])),
        reachable_registry_ok.
    + apply sweep_entries_activeJobs; [done|]. split; [done|].
      intros (a'&l'&Hin'&El'&Hexp).
      assert (a' = a) as ->.
      { pose proof (map_get_elem _ _ _ Hnk Hin') as Hk'. congruence. }
      assert (l' = l) as -> by congruence.
      pose proof (reachable_shape s a l Hs Hl) as Hshape.
      unfold shape in Hshape. rewrite (timed_out_running _ _ Ht) in Hshape.
      destruct Hshape as (Hend&_).
      unfold expired in Hexp. by rewrite Hend in Hexp.
Qed.

Lemma tick_times_out_stuck_job_witness :
  reachable (state_after run_in_progress)
  ∧ ∃ l s' out,
      store (state_after run_in_progress) !! 0%nat = Some l
      ∧ timed_out (ceiling + 1) (job l) = true
      ∧ step (ceiling + 1) cleanup_tick (state_after run_in_progress)
        = Some (s', out)
      ∧ Job.status <$> job_at s' 0 = Some error
      ∧ validationLock s' = false
      ∧ kill_SIGTERM 0 ∈ out.
Proof.
  split; [apply reachable_state_after|].
  destruct (tick_times_out_stuck_job (ceiling + 1)
              (state_after run_in_progress) validation_current 0 _
              (reachable_state_after run_in_progress) eq_refl eq_refl eq_refl)
    as (s'&out&Hs&Hl&_&Hkill&Hlock).
  eexists _, s', out. split; [reflexivity|]. split; [reflexivity|].
  split; [exact Hs|]. split; [unfold job_at; by rewrite Hl|].
  split; [by apply Hlock|by apply Hkill].
Defined.

Lemma expired_terminal s a l now :
  reachable s → store s !! a = Some l → expired now (job l) = true →
  timed_out now (job l) = false.
Proof.
  intros Hs Hl Hexp. pose proof (reachable_shape s a l Hs Hl) as Hshape.
  unfold shape in Hshape. unfold timed_out, expired in *.
  destruct (Job.status (job l)); [|done..].
  destruct Hshape as (Hend&_). by rewrite Hend in Hexp.
Qed.

(** X10: retention.  In a reachable state, the tick removes a registered job
    from the registry exactly when its [endTime] is set, is not 0, and lies
    more than 5 minutes back; the job object itself is not touched by that.
    Any other registered job is still registered after the tick. *)
Theorem tick_evicts_after_retention now s k a l :
  reachable s →
  map_get k (activeJobs s) = Some a → store s !! a = Some l →
  ∃ s' out,
    step now cleanup_tick s = Some (s', out)
    ∧ map_get k (activeJobs s')
      = (if expired now (job l) then None else Some a)
    ∧ (expired now (job l) = true → store s' !! a = Some l).
Proof.
  intros Hs Hk Hl. destruct (reachable_registry_ok s Hs) as (Hnk&Hna&Hreg).
  pose proof (map_get_Some_elem _ _ _ Hk) as Hin.
  exists (sweep now s).1, (sweep now s).2.
  split; [cbn [step]; by destruct (sweep now s)|].
  unfold sweep. split.
  - destruct (expired now (job l)) eqn:Hexp.
    + apply map_get_None. intros ([k' a']&Hk'&Hin')%list_elem_of_fmap.
      cbn in Hk'. subst k'.
      apply sweep_entries_activeJobs in Hin' as [_ Hno]; [|done].
      apply Hno. by exists a, l.
    + apply map_get_elem.
      * by apply (registry_ok_sweep_entries now (activeJobs s) (s, [])),
          reachable_registry_ok.
      * apply sweep_entries_activeJobs; [done|]. split; [done|].
        intros (a'&l'&Hin'&El'&Hexp').
        assert (a' = a) as ->.
        { pose proof (map_get_elem _ _ _ Hnk Hin') as Hk'. congruence. }
        congruence.
  - intros Hexp. rewrite sweep_entries_store, Hl by done. cbn.
    by rewrite (expired_terminal s a l now), andb_false_r.
Qed.

Lemma tick_evicts_after_retention_witness :
  reachable (state_after finished_run)
  ∧ ∃ l s' out,
      store (state_after finished_run) !! 0%nat = Some l
      ∧ expired (9 + retention + 1) (job l) = true
      ∧ step (9 + retention + 1) cleanup_tick (state_after finished_run)
        = Some (s', out)
      ∧ map_get validation_current (activeJobs s') = None
      ∧ store s' !! 0%nat = Some l.
Proof.
  split; [apply reachable_state_after|].
  destruct (tick_evicts_after_retention (9 + retention + 1)
              (state_after finished_run) validation_current 0 _
              (reachable_state_after finished_run) eq_refl eq_refl)
    as (s'&out&Hs&Hgone&Hkept).
  eexists _, s', out. split; [reflexivity|]. split; [reflexivity|].
  split; [exact Hs|]. split; [exact Hgone|by apply Hkept].
Defined.

(** X11: a tick with nothing to do changes nothing.  If no registered job
    has expired or timed out, the state after the tick is the state before
    it and nothing is killed or released. *)
Theorem idle_tick_changes_nothing now s :
  (∀ k a l, (k, a) ∈ activeJobs s → store s !! a = Some l →
            expired now (job l) = false ∧ timed_out now (job l) = false) →
  step now cleanup_tick s = Some (s, []).
Proof.
  intros H. cbn [step]. unfold sweep. by rewrite sweep_entries_idle.
Qed.

Lemma idle_tick_changes_nothing_witness :
  (∀ k a l,
     (k, a) ∈ activeJobs (state_after run_in_progress) →
     store (state_after run_in_progress) !! a = Some l →
     expired 60000 (job l) = false ∧ timed_out 60000 (job l) = false)
  ∧ step 60000 cleanup_tick (state_after run_in_progress)
    = Some (state_after run_in_progress, []).
Proof.
  assert (∀ k a l,
            (k, a) ∈ activeJobs (state_after run_in_progress) →
            store (state_after run_in_progress) !! a = Some l →
            expired 60000 (job l) = false ∧ timed_out 60000 (job l) = false)
    as H.
  { intros k a l Hin Hl.
    apply list_elem_of_singleton in Hin. injection Hin as -> ->.
    vm_compute in Hl. injection Hl as <-. by vm_compute. }
  split; [exact H|]. by apply idle_tick_changes_nothing.
Defined.

(** ** The lock between two releases *)

Lemma pending_sweep_entries now entries acc :
  pending (foldl (sweep_entry now) acc entries).1 = pending acc.1.
Proof.
  revert acc. induction entries as [|e es IH]; intros [s out]; [done|].
  cbn [foldl]. destruct (sweep_entry now (s, out) e) as [s1 out1] eqn:E.
  rewrite IH. pose proof (sweep_entry_rest now s out e) as [_ Hp].
  by rewrite E in Hp.
Qed.

Lemma sweep_entries_out_kinds now entries acc e :
  e ∈ (foldl (sweep_entry now) acc entries).2 →
  e ∈ acc.2 ∨ (∃ p, e = kill_SIGTERM p)
  ∨ (∃ a, e = lock_released (by_sweeper a)).
Proof.
  revert acc. induction entries as [|[k a] es IH]; intros [s out]; [by left|].
  cbn [foldl]. destruct (sweep_entry now (s, out) (k, a)) as [s1 out1] eqn:E.
  intros [Hin|H]%IH; [|by right]. cbn [snd] in *.
  pose proof (sweep_entry_out now s out k a) as Ho. rewrite E in Ho.
  cbn [snd] in Ho. rewrite Ho in Hin.
  apply elem_of_app in Hin as [?|Hin]; [by left|]. right.
  destruct (store s !! a) as [l|]; [|by apply elem_of_nil in Hin].
  destruct (timed_out now (job l)); [|by apply elem_of_nil in Hin].
  apply elem_of_app in Hin as [Hin|Hin].
  - destruct (Job.process (job l)); [|by apply elem_of_nil in Hin].
    apply list_elem_of_singleton in Hin. eauto.
  - destruct (bool_decide _); [|by apply elem_of_nil in Hin].
    apply list_elem_of_singleton in Hin. eauto.
Qed.

Lemma sweep_entries_lock_kept now entries acc :
  (∀ site, lock_released site ∉ (foldl (sweep_entry now) acc entries).2) →
  validationLock (foldl (sweep_entry now) acc entries).1
  = validationLock acc.1.
Proof.
  revert acc. induction entries as [|[k a] es IH]; intros [s out] Hno; [done|].
  cbn [foldl] in *.
  destruct (sweep_entry now (s, out) (k, a)) as [s1 out1] eqn:E.
  rewrite (IH _ Hno). cbn [fst].
  pose proof (sweep_entries_out_prefix now es (s1, out1)) as [rest Hrest].
  pose proof (sweep_entry_out now s out k a) as Ho.
  pose proof (sweep_entry_lock now s out k a) as Hl.
  rewrite E in Ho, Hl. cbn [fst snd] in Ho, Hl, Hrest. rewrite Hl.
  destruct (store s !! a) as [l|]; [|done].
  destruct (timed_out now (job l)); [|done].
  destruct (bool_decide (Job.type (job l) = validation)); [|done].
  destruct (Hno (by_sweeper a)). rewrite Hrest, Ho, !elem_of_app.
  left. right. right. by left.
Qed.

Lemma step_keeps_lock now lb s s' out :
  step now lb s = Some (s', out) →
  validationLock s = true → (∀ site, lock_released site ∉ out) →
  validationLock s' = true ∧ (pending s' ≤ pending s)%nat
  ∧ trigger_resolved true ∉ out.
Proof.
  intros Hs Hlock Hno. destruct lb; cbn [step] in Hs.
  - unfold tryAcquireValidationLock in Hs. rewrite Hlock in Hs.
    simplify_eq/=. split_and!; [done..|]. by intros ?%list_elem_of_singleton.
  - destruct (pending s) as [|n] eqn:Ep; [done|]. simplify_eq.
    unfold validate_resume in Hs. destruct body as [type|].
    + assert (∀ s0 : state, validationLock (evict_finished validation_current s0)
                            = validationLock s0
                            ∧ pending (evict_finished validation_current s0)
                              = pending s0) as Hev.
      { intros s0. unfold evict_finished. by repeat case_match. }
      assert (∀ s0 : state,
                validationLock
                  (register_and_spawn validation_current validation now
                                      spawns s0).1 = validationLock s0
                ∧ pending
                    (register_and_spawn validation_current validation now
                                        spawns s0).1 = pending s0) as Hreg.
      { intros s0. unfold register_and_spawn. by destruct spawns. }
      destruct (Hreg (evict_finished validation_current (set_pending n s)))
        as [Hl Hp].
      destruct (Hev (set_pending n s)) as [Hl' Hp'].
      destruct (register_and_spawn _ _ _ _ _) as [s1 a].
      cbn [fst] in Hl, Hp. rewrite Hl' in Hl. rewrite Hp' in Hp.
      cbn in Hl, Hp. destruct spawns; simplify_eq.
      * split_and!; [congruence|lia|].
        intros [?|[?|?%elem_of_nil]%elem_of_cons]%elem_of_cons; done.
      * destruct (Hno by_catch). by left.
    + simplify_eq. destruct (Hno by_catch). by left.
  - simplify_eq. unfold triggerBackgroundValidation in Hs.
    unfold tryAcquireValidationLock in Hs. rewrite Hlock in Hs.
    simplify_eq/=. split_and!; [done..|]. by intros ?%list_elem_of_singleton.
  - simplify_eq. unfold sort_launch in Hs.
    destruct body as [[dryRun runValidation]|].
    + assert (validationLock (register_and_spawn uuid sort now spawns s).1
              = validationLock s
              ∧ pending (register_and_spawn uuid sort now spawns s).1
                = pending s) as [Hl Hp].
      { unfold register_and_spawn. by destruct spawns. }
      destruct (register_and_spawn _ _ _ _ _) as [s1 a].
      cbn [fst] in Hl, Hp. destruct spawns; simplify_eq.
      * split_and!; [congruence|lia|].
        intros [?|[?|?%elem_of_nil]%elem_of_cons]%elem_of_cons; done.
      * split_and!; [congruence|lia|]. by intros ?%list_elem_of_singleton.
    + simplify_eq. split_and!; [done..|]. by intros ?%list_elem_of_singleton.
  - destruct (listening s p); simplify_eq/=.
    split_and!; [done..|]. apply not_elem_of_nil.
  - destruct (listening s p); simplify_eq/=.
    split_and!; [done..|]. apply not_elem_of_nil.
  - destruct (listening s p) as [l|]; simplify_eq/=.
    destruct (Job.type (job l)); simplify_eq/=.
    destruct (Hno (by_error_listener p)). by left.
  - destruct (listening s p) as [l|]; simplify_eq/=.
    destruct (Job.type (job l)); simplify_eq/=.
    + destruct (Hno (by_close_listener p)). by left.
    + split_and!; [done..|]. apply not_elem_of_nil.
  - simplify_eq. unfold sweep in Hs.
    pose proof (sweep_entries_lock_kept now (activeJobs s) (s, [])) as Hl.
    pose proof (pending_sweep_entries now (activeJobs s) (s, [])) as Hp.
    pose proof (λ e, sweep_entries_out_kinds now (activeJobs s) (s, []) e)
      as Hk.
    rewrite Hs in Hl, Hp, Hk. cbn [fst snd] in Hl, Hp, Hk.
    split_and!; [by rewrite Hl|lia|].
    intros [?%elem_of_nil|[[? ?]|[? ?]]]%Hk; done.
  - destruct (map_get jobId (activeJobs s)); simplify_eq/=.
    + unfold open_stream in Hs. destruct (store s !! n) as [l|]; simplify_eq/=.
      split_and!; [done..|].
      rewrite !elem_of_app, list_elem_of_fmap, list_elem_of_singleton.
      intros [(?&?&?)|[Hc|?]]; [done| |done].
      destruct (Job.terminal (job l));
        [by apply list_elem_of_singleton in Hc|by apply elem_of_nil in Hc].
    + split_and!; [done..|]. by intros ?%list_elem_of_singleton.
  - destruct (streams s !! sid) as [st|]; simplify_eq/=.
    destruct (intervalHandle st); [|done]. unfold poll in Hs.
    destruct (store s !! source st) as [l|]; simplify_eq/=.
    split_and!; [done..|].
    rewrite elem_of_app, list_elem_of_fmap.
    intros [(?&?&?)|Hc]; [done|].
    destruct (Job.terminal (job l));
      [by apply list_elem_of_singleton in Hc|by apply elem_of_nil in Hc].
  - destruct (streams s !! sid) as [st|]; simplify_eq/=.
    split_and!; [done..|]. apply not_elem_of_nil.
  - simplify_eq. split_and!; [done..|]. by intros ?%list_elem_of_singleton.
Qed.

(** X12: the lock between two releases.  If the lock is held and a run
    makes no call of [releaseValidationLock], the lock is still held after
    the run, no request got past it (the number of suspended requests did
    not grow) and no call of [triggerBackgroundValidation] started a
    validation. *)
Theorem lock_is_held_until_released s tr s' out :
  run s tr = Some (s', out) →
  validationLock s = true → (∀ site, lock_released site ∉ out) →
  validationLock s' = true ∧ (pending s' ≤ pending s)%nat
  ∧ trigger_resolved true ∉ out.
Proof.
  revert s out. induction tr as [|[t lb] tr IH]; intros s out Hr Hlock Hno.
  - cbn in Hr. simplify_eq. split_and!; [done..|]. apply not_elem_of_nil.
  - apply run_cons_inv in Hr as (s1&out1&out2&Hs&Hr&->).
    destruct (step_keeps_lock _ _ _ _ _ Hs Hlock) as (Hl1&Hp1&Ht1).
    { intros site Hin. apply (Hno site), elem_of_app. by left. }
    destruct (IH _ _ Hr Hl1) as (Hl2&Hp2&Ht2).
    { intros site Hin. apply (Hno site), elem_of_app. by right. }
    split_and!; [done|lia|]. by intros [?|?]%elem_of_app.
Qed.

Lemma lock_is_held_until_released_witness :
  validationLock (state_after (launch_at 0)) = true
  ∧ ∃ s' out,
      run (state_after (launch_at 0)) attempts_during_run = Some (s', out)
      ∧ (∀ site, lock_released site ∉ out)
      ∧ validationLock s' = true
      ∧ trigger_resolved true ∉ out.
Proof.
  split; [reflexivity|].
  assert (∃ s' out,
            run (state_after (launch_at 0)) attempts_during_run
            = Some (s', out)
            ∧ ∀ site, lock_released site ∉ out) as (s'&out&Hr&Hno).
  { eexists _, _. split; [by vm_compute|]. intros site Hin.
    repeat (apply elem_of_cons in Hin as [Hin|Hin]; [discriminate|]).
    by apply elem_of_nil in Hin. }
  exists s', out. split; [exact Hr|]. split; [exact Hno|].
  destruct (lock_is_held_until_released _ _ _ _ Hr eq_refl Hno) as (?&_&?).
  by split.
Defined.

(** ** Launching *)

Lemma evict_finished_fields jobId s :
  validationLock (evict_finished jobId s) = validationLock s
  ∧ pending (evict_finished jobId s) = pending s
  ∧ (activeJobs (evict_finished jobId s) = activeJobs s
     ∨ activeJobs (evict_finished jobId s) = map_delete jobId (activeJobs s)).
Proof.
  unfold evict_finished. repeat case_match; split_and!; auto.
Qed.

Lemma register_and_spawn_fields jobId t now spawns s :
  validationLock (register_and_spawn jobId t now spawns s).1 = validationLock s
  ∧ pending (register_and_spawn jobId t now spawns s).1 = pending s
  ∧ activeJobs (register_and_spawn jobId t now spawns s).1
    = map_set jobId (length (store s)) (activeJobs s)
  ∧ (register_and_spawn jobId t now spawns s).2 = length (store s).
Proof. unfold register_and_spawn. by destruct spawns. Qed.

(** What registering under the well-known id does to the registry: the new
    object is found there, whatever was there before, and the other keys are
    as they were. *)
Lemma validation_slot_after_launch now spawns s :
  let s' := (register_and_spawn validation_current validation now spawns
               (evict_finished validation_current s)).1 in
  map_get validation_current (activeJobs s') = Some (length (store s))
  ∧ (∀ k, k ≠ validation_current →
          map_get k (activeJobs s') = map_get k (activeJobs s))
  ∧ store s'
    = store s ++ [fresh_launch validation_current validation now
                               (length (store s)) spawns]
  ∧ validationLock s' = validationLock s
  ∧ pending s' = pending s ∧ streams s' = streams s.
Proof.
  intros s'. subst s'.
  destruct (register_and_spawn_fields validation_current validation now spawns
              (evict_finished validation_current s)) as (Hl&Hp&Hm&_).
  destruct (evict_finished_fields validation_current s) as (Hl'&Hp'&Hm').
  rewrite store_register_and_spawn_fresh, streams_register_and_spawn,
    streams_evict_finished, Hl, Hp, Hm, Hl', Hp', store_evict_finished.
  split_and!; try done.
  - apply map_get_set_eq.
  - intros k Hk. rewrite map_get_set_ne by done.
    destruct Hm' as [->| ->]; [done|]. by apply map_get_delete_ne.
Qed.

(** X13: an accepted validation request.  When the lock is free, the two
    halves of a request whose body parses and whose process spawns answer
    with the well-known id and its stream URL, spawn the process with the
    arguments of the requested type, and leave the lock held.  The registry
    then maps ['validation-current'] to a new job (running, no events,
    started at the time of the second half, holding its process handle),
    whatever was registered there before; the other keys and all existing
    job objects are as they were. *)
Theorem accepted_request_registers_a_new_job now now' type s :
  validationLock s = false →
  ∃ s',
    run s [(now, POST_validate);
           (now', POST_validate_resume (Some type) true)]
    = Some (s', [spawn (length (store s)) (validation_args type);
                 respond (launched validation_current
                            (js "/api/validate/stream/"
                             ++ validation_current))])
    ∧ validationLock s' = true
    ∧ pending s' = pending s
    ∧ map_get validation_current (activeJobs s') = Some (length (store s))
    ∧ store s'
      = store s ++ [fresh_launch validation_current validation now'
                                 (length (store s)) true]
    ∧ ∀ k, k ≠ validation_current →
           map_get k (activeJobs s') = map_get k (activeJobs s).
Proof.
  intros Hlock.
  destruct (validation_slot_after_launch now' true
              (set_pending (pending s) (set_validationLock true s)))
    as (Hget&Hother&Hstore&Hl&Hp&_).
  rewrite run_cons. cbn [step]. unfold tryAcquireValidationLock.
  rewrite Hlock. cbn [negb mbind option_bind].
  rewrite run_cons. cbn [step pending set_pending].
  unfold validate_resume.
  destruct (register_and_spawn validation_current validation now' true _)
    as [s1 a] eqn:E.
  pose proof (register_and_spawn_fields validation_current validation now'
                true (evict_finished validation_current
                        (set_pending (pending s)
                           (set_validationLock true s)))) as (_&_&_&Ha).
  rewrite E in Ha. cbn [fst snd] in *. rewrite store_evict_finished in Ha.
  cbn in Ha. subst a. exists s1. by split_and!.
Qed.

Lemma accepted_request_registers_a_new_job_witness :
  validationLock (state_after finished_run) = false
  ∧ ∃ s',
      run (state_after finished_run)
          [(20, POST_validate);
           (21, POST_validate_resume (Some (Some (js "store_ids"))) true)]
      = Some (s', [spawn 1 (validation_args (Some (js "store_ids")));
                   respond (launched validation_current
                              (js "/api/validate/stream/"
                               ++ validation_current))])
      ∧ map_get validation_current (activeJobs s') = Some 1%nat
      ∧ validationLock s' = true.
Proof.
  split; [reflexivity|].
  destruct (accepted_request_registers_a_new_job 20 21
              (Some (js "store_ids")) (state_after finished_run) eq_refl)
    as (s'&Hr&Hl&_&Hget&_).
  exists s'. split; [exact Hr|]. split; [exact Hget|exact Hl].
Defined.

Lemma trigger_when_free now spawns s :
  validationLock s = false →
  ∃ s',
    step now (trigger_call spawns) s
    = Some (s', if spawns
                then [spawn (length (store s)) (validation_args None);
                      trigger_resolved true]
                else [trigger_rejected])
    ∧ validationLock s' = true
    ∧ map_get validation_current (activeJobs s') = Some (length (store s))
    ∧ store s'
      = store s ++ [fresh_launch validation_current validation now
                                 (length (store s)) spawns].
Proof.
  intros Hlock.
  destruct (validation_slot_after_launch now spawns
              (set_validationLock true s)) as (Hget&_&Hstore&Hl&_).
  cbn [step]. unfold triggerBackgroundValidation, tryAcquireValidationLock.
  rewrite Hlock. cbn [negb].
  destruct (register_and_spawn validation_current validation now spawns _)
    as [s1 a] eqn:E.
  pose proof (register_and_spawn_fields validation_current validation now
                spawns (evict_finished validation_current
                          (set_validationLock true s))) as (_&_&_&Ha).
  rewrite E in Ha. cbn [fst snd] in *. rewrite store_evict_finished in Ha.
  cbn in Ha. subst a. exists s1. by destruct spawns.
Qed.

(** X14: lock liveness.  When the process of a validation job closes, or
    reports an error, the listener leaves the lock free whatever the exit
    code, and the next call of [triggerBackgroundValidation] starts a new
    validation under the well-known id. *)
Theorem lock_is_free_after_the_process_ends now s p l lb :
  listening s p = Some l → Job.type (job l) = validation →
  (∃ code, lb = process_close p code)
  ∨ (∃ message, lb = process_error p message) →
  ∃ s1 out1,
    step now lb s = Some (s1, out1)
    ∧ validationLock s1 = false
    ∧ ∀ now',
        ∃ s2,
          step now' (trigger_call true) s1
          = Some (s2, [spawn (length (store s1)) (validation_args None);
                       trigger_resolved true])
          ∧ validationLock s2 = true
          ∧ map_get validation_current (activeJobs s2)
            = Some (length (store s1)).
Proof.
  intros Hl Ht Hlb.
  assert (∃ s1 out1, step now lb s = Some (s1, out1)
                     ∧ validationLock s1 = false) as (s1&out1&Hs&Hfree).
  { destruct Hlb as [[code ->]|[message ->]]; cbn [step]; rewrite Hl; cbn;
      rewrite Ht; by eexists _, _. }
  exists s1, out1. split_and!; [done..|]. intros now'.
  destruct (trigger_when_free now' true s1 Hfree) as (s2&?&?&?&_).
  by exists s2.
Qed.

Lemma lock_is_free_after_the_process_ends_witness :
  is_Some (listening (state_after run_in_progress) 0)
  ∧ ∃ s1 out1 s2,
      step 30 (process_close 0 (Some 2)) (state_after run_in_progress)
      = Some (s1, out1)
      ∧ validationLock s1 = false
      ∧ step 31 (trigger_call true) s1
        = Some (s2, [spawn 1 (validation_args None); trigger_resolved true]).
Proof.
  split; [by eexists|].
  destruct (lock_is_free_after_the_process_ends 30
              (state_after run_in_progress) 0 _ (process_close 0 (Some 2))
              eq_refl eq_refl (or_introl (ex_intro _ (Some 2) eq_refl)))
    as (s1&out1&Hs&Hfree&Hnext).
  destruct (Hnext 31) as (s2&Hs2&_).
  exists s1, out1, s2. split; [exact Hs|]. split; [exact Hfree|].
  rewrite Hs2. vm_compute in Hs. by injection Hs as <- _.
Defined.

(** X15: a sort request never meets the lock.  Whatever the state of the
    lock, a sort request whose body parses and whose process spawns is
    accepted: it registers a new running job of type [sort] under the
    generated id and leaves the lock as it was; and when a sort process
    closes, the lock is not touched and nothing is released. *)
Theorem sort_request_ignores_the_lock now s dryRun runValidation uuid :
  (∃ s',
     step now (POST_sort (Some (dryRun, runValidation)) uuid true) s
     = Some (s', [spawn (length (store s)) (sort_args dryRun runValidation);
                  respond (launched uuid (js "/api/sort/stream/" ++ uuid))])
     ∧ validationLock s' = validationLock s
     ∧ map_get uuid (activeJobs s') = Some (length (store s))
     ∧ store s'
       = store s ++ [fresh_launch uuid sort now (length (store s)) true]
     ∧ ∀ k, k ≠ uuid → map_get k (activeJobs s') = map_get k (activeJobs s))
  ∧ ∀ p l code,
      listening s p = Some l → Job.type (job l) = sort →
      step now (process_close p code) s
      = Some (update p (on_close now code) s, [])
      ∧ validationLock (update p (on_close now code) s) = validationLock s.
Proof.
  split.
  - cbn [step]. unfold sort_launch.
    destruct (register_and_spawn_fields uuid sort now true s)
      as (Hl&_&Hm&Ha).
    pose proof (store_register_and_spawn_fresh uuid sort now true s) as Hst.
    destruct (register_and_spawn uuid sort now true s) as [s1 a].
    cbn [fst snd] in *. subst a. exists s1. split_and!; [done..| |done|].
    + rewrite Hm. apply map_get_set_eq.
    + intros k Hk. rewrite Hm. by apply map_get_set_ne.
  - intros p l code Hl Ht. cbn [step]. rewrite Hl. cbn. by rewrite Ht.
Qed.

(** X16: a validation request whose body cannot be read leaves no trace.
    When the lock is free, the request takes it, fails at
    [await request.json()], releases it in the [catch] and answers 500: the
    state after the two halves is the state before them. *)
Theorem unreadable_request_leaves_no_trace now now' spawns s :
  validationLock s = false →
  run s [(now, POST_validate); (now', POST_validate_resume None spawns)]
  = Some (s, [lock_released by_catch; respond internal_error_500]).
Proof.
  intros Hlock. rewrite run_cons. cbn [step].
  unfold tryAcquireValidationLock. rewrite Hlock.
  cbn [negb mbind option_bind]. rewrite run_cons.
  cbn [step pending set_pending]. unfold validate_resume.
  cbn. destruct s. cbn in *. by subst.
Qed.

Lemma unreadable_request_leaves_no_trace_witness :
  validationLock (state_after finished_run) = false
  ∧ run (state_after finished_run)
        [(20, POST_validate); (21, POST_validate_resume None true)]
    = Some (state_after finished_run,
            [lock_released by_catch; respond internal_error_500]).
Proof.
  split; [reflexivity|].
  by apply (unreadable_request_leaves_no_trace 20 21 true
              (state_after finished_run)).
Defined.

(** X17: a [spawn] that throws.  In the request handler the [catch]
    releases the lock and answers 500; [triggerBackgroundValidation] has no
    [catch], so its promise is rejected and the lock stays held.  In both
    cases the job stays registered under the well-known id in status
    [running], without a process handle, and no process event can reach
    it. *)
Theorem spawn_that_throws now now' type s :
  validationLock s = false →
  (∃ s1,
     run s [(now, POST_validate);
            (now', POST_validate_resume (Some type) false)]
     = Some (s1, [lock_released by_catch; respond internal_error_500])
     ∧ validationLock s1 = false
     ∧ map_get validation_current (activeJobs s1) = Some (length (store s))
     ∧ store s1 !! length (store s)
       = Some (mk_launch (new_job validation_current validation now')
                         [] [] JNull false)
     ∧ listening s1 (length (store s)) = None)
  ∧ (∃ s2,
       step now (trigger_call false) s = Some (s2, [trigger_rejected])
       ∧ validationLock s2 = true
       ∧ map_get validation_current (activeJobs s2) = Some (length (store s))
       ∧ store s2 !! length (store s)
         = Some (mk_launch (new_job validation_current validation now)
                           [] [] JNull false)
       ∧ listening s2 (length (store s)) = None).
Proof.
  intros Hlock. split.
  - destruct (validation_slot_after_launch now' false
                (set_pending (pending s) (set_validationLock true s)))
      as (Hget&_&Hstore&Hl&Hp&_).
    rewrite run_cons. cbn [step]. unfold tryAcquireValidationLock.
    rewrite Hlock. cbn [negb mbind option_bind].
    rewrite run_cons. cbn [step pending set_pending].
    unfold validate_resume.
    destruct (register_and_spawn validation_current validation now' false _)
      as [s1 a] eqn:E.
    cbn [fst snd mbind option_bind run app] in *.
    exists (releaseValidationLock s1). split; [done|].
    assert (store (releaseValidationLock s1) !! length (store s)
            = Some (mk_launch (new_job validation_current validation now')
                              [] [] JNull false)) as Hnew.
    { unfold releaseValidationLock. cbn [store set_validationLock].
      rewrite Hstore. cbn [store set_pending set_validationLock].
      by rewrite list_lookup_middle. }
    split_and!; [done..|]. unfold listening. by rewrite Hnew.
  - destruct (trigger_when_free now false s Hlock) as (s2&Hs&Hl&Hget&Hstore).
    exists s2. split_and!; [done..| |].
    + rewrite Hstore. by rewrite list_lookup_middle.
    + unfold listening. rewrite Hstore. by rewrite list_lookup_middle.
Qed.

Lemma spawn_that_throws_witness :
  validationLock init = false
  ∧ ∃ s1 s2,
      run init [(0, POST_validate); (1, POST_validate_resume (Some None) false)]
      = Some (s1, [lock_released by_catch; respond internal_error_500])
      ∧ validationLock s1 = false
      ∧ step 0 (trigger_call false) init = Some (s2, [trigger_rejected])
      ∧ validationLock s2 = true.
Proof.
  split; [reflexivity|].
  destruct (spawn_that_throws 0 1 None init eq_refl)
    as [(s1&Hr&Hl1&_) (s2&Hs&Hl2&_)].
  exists s1, s2. by split_and!.
Defined.

(** ** Streams *)

Lemma run_stream_source s tr s' out sid st :
  run s tr = Some (s', out) → streams s !! sid = Some st →
  ∃ st', streams s' !! sid = Some st' ∧ source st' = source st
         ∧ (intervalHandle st = false →
            intervalHandle st' = false ∧ sent sid out = []).
Proof.
  revert s out st. induction tr as [|[t lb] tr IH]; intros s out st Hr Hst.
  - cbn in Hr. simplify_eq. by exists st.
  - apply run_cons_inv in Hr as (s1&out1&out2&Hs&Hr&->).
    destruct (step_stream _ _ _ _ _ _ _ Hs Hst) as (st1&Hst1&Hsrc&Hcase).
    destruct (IH _ _ _ Hr Hst1) as (st'&Hst'&Hsrc'&Hoff').
    exists st'. split_and!; [done|congruence|]. intros Hoff.
    destruct Hcase as [(l0&Hon&_)|(Hsent&_&Hoff1)]; [congruence|].
    destruct (Hoff' (Hoff1 Hoff)) as [? Hsent'].
    split; [done|]. by rewrite sent_app, Hsent, Hsent'.
Qed.

Lemma run_app_None s tr1 tr2 :
  run s tr1 = None → run s (tr1 ++ tr2) = None.
Proof.
  revert s. induction tr1 as [|[t lb] tr1 IH]; intros s H; [done|].
  cbn [app]. rewrite run_cons in *.
  destruct (step t lb s) as [[s1 out1]|]; [|done]. cbn in *.
  destruct (run s1 tr1) as [[s2 out2]|] eqn:E; [done|].
  by rewrite (IH _ E).
Qed.

(** X18: a tick brings the client up to date.  For a stream opened on a
    registered job, after any run that ends with a tick of the stream's
    timer the client has been sent exactly the events the job holds at that
    moment, each once and in order; and if the job is terminal by then, the
    tick closes the stream and disarms its timer, so no later tick occurs. *)
Theorem tick_brings_the_stream_up_to_date now s jobId a s1 out1 tr t s2 out2 :
  map_get jobId (activeJobs s) = Some a →
  step now (GET_stream jobId) s = Some (s1, out1) →
  run s1 (tr ++ [(t, poll_tick (length (streams s)))]) = Some (s2, out2) →
  ∃ l2,
    store s2 !! a = Some l2
    ∧ sent (length (streams s)) (out1 ++ out2) = Job.events (job l2)
    ∧ (Job.terminal (job l2) = true →
       last out2 = Some (close_stream (length (streams s)))
       ∧ ∀ t', step t' (poll_tick (length (streams s))) s2 = None).
Proof.
  intros Hget Hopen Hr. set (sid := length (streams s)) in *.
  cbn [step] in Hopen. rewrite Hget in Hopen.
  destruct (store s !! a) as [l|] eqn:Hl; [|done].
  cbn [mbind option_bind] in Hopen.
  set (st := mk_stream a (length (Job.events (job l)))
                       (negb (Job.terminal (job l))) (Job.terminal (job l))).
  assert (sent sid (open_stream a l s).2 = Job.events (job l)) as Hsent.
  { unfold open_stream. cbn [snd]. fold sid.
    rewrite !sent_app, sent_enqueue. case_match; cbn; by rewrite app_nil_r. }
  assert (streams (open_stream a l s).1 !! sid = Some st) as Hst.
  { unfold open_stream. cbn [fst streams set_streams].
    by rewrite list_lookup_middle. }
  assert (store (open_stream a l s).1 !! a = Some l) as Hl1 by done.
  assert (s1 = (open_stream a l s).1 ∧ out1 = (open_stream a l s).2)
    as [-> ->].
  { assert (open_stream a l s = (s1, out1)) as Ho by congruence.
    by rewrite Ho. }
  clear Hopen.
  destruct (run (open_stream a l s).1 tr) as [[s' o']|] eqn:Hr';
    [|by rewrite (run_app_None _ _ _ Hr') in Hr].
  rewrite (run_app _ _ _ _ _ Hr') in Hr.
  destruct (run s' [(t, poll_tick sid)]) as [[s3 o3]|] eqn:Hp; [|done].
  cbn in Hr. injection Hr as <- <-.
  destruct (run_stream _ _ _ _ _ _ l Hr' Hst Hl1) as (st'&l'&Hst'&Hl'&Htake&_);
    [done|].
  destruct (run_stream_source _ _ _ _ _ _ Hr' Hst) as (st''&Hst''&Hsrc&_).
  assert (st'' = st') as -> by congruence.
  cbn [source eventIndex st] in Hl', Htake, Hsrc. rewrite firstn_all in Htake.
  rewrite run_cons in Hp. cbn [step] in Hp. rewrite Hst' in Hp.
  cbn [mbind option_bind] in Hp.
  destruct (intervalHandle st') eqn:Hon; [|done].
  rewrite Hsrc, Hl' in Hp. cbn in Hp. rewrite app_nil_r in Hp.
  injection Hp as <- <-. exists l'. split_and!.
  - done.
  - rewrite !sent_app, Hsent, (assoc_L (++)), Htake, sent_enqueue.
    destruct (Job.terminal (job l')); cbn; by rewrite app_nil_r, take_drop.
  - intros Ht. rewrite Ht. split.
    + by rewrite (assoc_L (++)), last_snoc.
    + intros t'. cbn [step streams set_streams].
      rewrite list_lookup_insert_eq by (by eapply lookup_lt_Some). done.
Qed.

Lemma tick_brings_the_stream_up_to_date_witness :
  map_get validation_current (activeJobs (state_after run_in_progress))
  = Some 0%nat
  ∧ ∃ s1 out1 s2 out2,
      step 6 (GET_stream validation_current) (state_after run_in_progress)
      = Some (s1, out1)
      ∧ run s1 (rest_of_run ++ [(100, poll_tick 0)]) = Some (s2, out2)
      ∧ ∃ l2, store s2 !! 0%nat = Some l2
              ∧ sent 0 (out1 ++ out2) = Job.events (job l2)
              ∧ length (Job.events (job l2)) = 3%nat.
Proof.
  split; [reflexivity|].
  destruct (tick_brings_the_stream_up_to_date 6
              (state_after run_in_progress) validation_current 0 _ _
              rest_of_run 100 _ _ eq_refl eq_refl eq_refl)
    as (l2&Hl2&Hsent&_).
  eexists _, _, _, _. split; [reflexivity|]. split; [reflexivity|].
  exists l2. split; [exact Hl2|]. split; [exact Hsent|].
  vm_compute in Hl2. by injection Hl2 as <-.
Defined.

(** X19: a cancelled stream stays silent.  When the client goes away the
    [cancel] method disarms the timer and touches nothing else; whatever the
    serving process does afterwards, no event is sent on that stream and its
    timer never ticks again. *)
Theorem cancelled_stream_stays_silent t s sid st :
  streams s !! sid = Some st →
  ∃ s1,
    step t (cancel sid) s = Some (s1, [])
    ∧ store s1 = store s ∧ activeJobs s1 = activeJobs s
    ∧ validationLock s1 = validationLock s
    ∧ ∀ tr s2 out,
        run s1 tr = Some (s2, out) →
        sent sid out = [] ∧ ∀ t', step t' (poll_tick sid) s2 = None.
Proof.
  intros Hst. eexists. split_and!.
  - cbn [step]. by rewrite Hst.
  - done.
  - done.
  - done.
  - intros tr s2 out Hr.
    pose proof (list_lookup_insert_eq (streams s) sid
                  (mk_stream (source st) (eventIndex st) false (closed st))
                  (lookup_lt_Some _ _ _ Hst)) as Hst1.
    destruct (run_stream_source _ _ _ _ _ _ Hr Hst1) as (st'&Hst'&_&Hoff).
    destruct (Hoff eq_refl) as [Hh Hsent]. split; [done|].
    intros t'. cbn [step]. rewrite Hst'. cbn. by rewrite Hh.
Qed.

Lemma cancelled_stream_stays_silent_witness :
  is_Some (streams (state_after launch_and_connect) !! 0%nat)
  ∧ ∃ s1 s2 out,
      step 2 (cancel 0) (state_after launch_and_connect) = Some (s1, [])
      ∧ run s1 (rest_of_run ++ [(200, cleanup_tick)]) = Some (s2, out)
      ∧ sent 0 out = [].
Proof.
  split; [by eexists|].
  destruct (cancelled_stream_stays_silent 2 (state_after launch_and_connect)
              0 _ eq_refl) as (s1&Hs&_&_&_&Hrun).
  destruct (run s1 (rest_of_run ++ [(200, cleanup_tick)]))
    as [[s2 out]|] eqn:Hr.
  - exists s1, s2, out. split; [exact Hs|]. split; [exact Hr|].
    exact (proj1 (Hrun _ _ _ Hr)).
  - exfalso. vm_compute in Hs. injection Hs as <-. vm_compute in Hr. done.
Defined.

(** X20: the stream and status endpoints only read.  A request to the
    stream endpoint, a tick of a stream's timer, a cancellation and a status
    request leave the registry, the lock and every job object as they are,
    and all they emit goes to a client: no process is spawned or killed and
    the lock is not released. *)
Theorem stream_and_status_endpoints_only_read now lb s s' out :
  is_reader lb = true → step now lb s = Some (s', out) →
  activeJobs s' = activeJobs s ∧ validationLock s' = validationLock s
  ∧ store s' = store s ∧ pending s' = pending s
  ∧ Forall (λ e, to_client e = true) out.
Proof.
  intros Hlb Hs. destruct lb; try done; cbn [step] in Hs.
  - destruct (map_get jobId (activeJobs s)) as [a|].
    + destruct (store s !! a) as [l|]; [|done]. cbn in Hs.
      injection Hs as <- <-. split_and!; [done..|].
      rewrite !Forall_app. split_and!.
      * by apply Forall_fmap, Forall_true.
      * by destruct (Job.terminal (job l)); repeat constructor.
      * by repeat constructor.
    + injection Hs as <- <-. split_and!; [done..|]. by repeat constructor.
  - destruct (streams s !! sid) as [st|]; [|done]. cbn in Hs.
    destruct (intervalHandle st); [|done].
    destruct (store s !! source st) as [l|]; [|done]. cbn in Hs.
    injection Hs as <- <-. split_and!; [done..|].
    rewrite Forall_app. split.
    + by apply Forall_fmap, Forall_true.
    + by destruct (Job.terminal (job l)); repeat constructor.
  - destruct (streams s !! sid) as [st|]; [|done]. cbn in Hs.
    by injection Hs as <- <-.
  - injection Hs as <- <-. split_and!; [done..|]. by repeat constructor.
Qed.

Lemma stream_and_status_endpoints_only_read_witness :
  ∃ s' out,
    step 6 (GET_stream validation_current) (state_after run_in_progress)
    = Some (s', out)
    ∧ store s' = store (state_after run_in_progress)
    ∧ Forall (λ e, to_client e = true) out.
Proof.
  destruct (step 6 (GET_stream validation_current)
              (state_after run_in_progress)) as [[s' out]|] eqn:Hs;
    [|by vm_compute in Hs].
  destruct (stream_and_status_endpoints_only_read 6
              (GET_stream validation_current) (state_after run_in_progress)
              s' out eq_refl Hs) as (_&_&Hst&_&Hout).
  by exists s', out.
Defined.

Lemma sort_request_ignores_the_lock_witness :
  validationLock (state_after run_in_progress) = true
  ∧ (∃ s',
       step 6 (POST_sort (Some (false, true)) (js "3f2a") true)
            (state_after run_in_progress)
       = Some (s', [spawn 1 (sort_args false true);
                    respond (launched (js "3f2a")
                               (js "/api/sort/stream/" ++ js "3f2a"))])
       ∧ validationLock s' = true)
  ∧ is_Some (listening (state_after sort_at_0) 0)
  ∧ step 9 (process_close 0 (Some 1)) (state_after sort_at_0)
    = Some (update 0 (on_close 9 (Some 1)) (state_after sort_at_0), []).
Proof.
  split; [reflexivity|]. split.
  - destruct (proj1 (sort_request_ignores_the_lock 6
                       (state_after run_in_progress) false true (js "3f2a")))
      as (s'&Hs&Hl&_).
    exists s'. split; [exact Hs|]. by rewrite Hl.
  - split; [by eexists|].
    exact (proj1 (proj2 (sort_request_ignores_the_lock 9
                           (state_after sort_at_0) false true (js "3f2a"))
                        0%nat _ (Some 1) eq_refl eq_refl)).
Defined.

(** * Helpers of the pages *)

(** ** [split] and [join] *)

Lemma split_on_cons sep c r :
  split_on sep (c :: r)
  = if decide (c = sep) then [] :: split_on sep r
    else match split_on sep r with
         | l :: ls => (c :: l) :: ls
         | [] => [[c]]
         end.
Proof. done. Qed.

Lemma split_on_not_nil sep s : split_on sep s ≠ [].
Proof.
  destruct s as [|c r]; [done|]. rewrite split_on_cons.
  destruct (decide (c = sep)); [done|]. by destruct (split_on sep r).
Qed.

Lemma split_on_app sep a r :
  sep ∉ a → split_on sep (a ++ sep :: r) = a :: split_on sep r.
Proof.
  induction a as [|c a IH]; intros Ha.
  - cbn [app]. rewrite split_on_cons. by rewrite decide_True.
  - apply not_elem_of_cons in Ha as [Hc Ha]. cbn [app].
    rewrite split_on_cons, decide_False by done. by rewrite IH.
Qed.

Lemma split_on_no_sep sep a : sep ∉ a → split_on sep a = [a].
Proof.
  induction a as [|c a IH]; intros Ha; [done|].
  apply not_elem_of_cons in Ha as [Hc Ha].
  rewrite split_on_cons, decide_False by done. by rewrite IH.
Qed.

Lemma join_cons sep p q qs :
  join sep (p :: q :: qs) = p ++ sep ++ join sep (q :: qs).
Proof. done. Qed.

(** The pieces hold no separator, and joined with it they give the string
    back. *)
Lemma split_on_pieces sep s :
  Forall (λ piece, sep ∉ piece) (split_on sep s)
  ∧ join [sep] (split_on sep s) = s
  ∧ join [] (split_on sep s) = filter (λ c, c ≠ sep) s.
Proof.
  induction s as [|c r (IH1&IH2&IH3)].
  - cbn. split_and!; [|done..]. constructor; [|done]. apply not_elem_of_nil.
  - rewrite split_on_cons. destruct (decide (c = sep)) as [->|Hc].
    + pose proof (split_on_not_nil sep r) as Hne.
      destruct (split_on sep r) as [|p ps] eqn:E; [done|]. split_and!.
      * constructor; [apply not_elem_of_nil|done].
      * rewrite join_cons, IH2. done.
      * rewrite join_cons, IH3. rewrite filter_cons_False by naive_solver.
        done.
    + pose proof (split_on_not_nil sep r) as Hne.
      destruct (split_on sep r) as [|p ps] eqn:E; [done|].
      apply Forall_cons in IH1 as [Hp Hps]. split_and!.
      * constructor; [|done]. apply not_elem_of_cons. by split.
      * destruct ps; cbn in *; by rewrite IH2.
      * rewrite filter_cons_True by done.
        destruct ps; cbn in *; by rewrite IH3.
Qed.

(** The last piece is what follows the last separator. *)
Lemma split_on_last sep s :
  ∃ e, last (split_on sep s) = Some e ∧ (sep ∉ e)
       ∧ (s = e ∨ ∃ stem, s = stem ++ sep :: e).
Proof.
  induction s as [|c r (e&Hl&He&Hs)].
  - exists []. split_and!; [done|apply not_elem_of_nil|by left].
  - rewrite split_on_cons. destruct (decide (c = sep)) as [->|Hc].
    + exists e. pose proof (split_on_not_nil sep r) as Hne.
      destruct (split_on sep r) as [|p ps] eqn:E; [done|].
      split_and!; [done..|]. right.
      destruct Hs as [->|[stem ->]]; [by exists []|by exists (sep :: stem)].
    + pose proof (split_on_not_nil sep r) as Hne.
      destruct (split_on sep r) as [|p ps] eqn:E; [done|].
      destruct ps as [|q qs].
      * cbn in Hl. injection Hl as ->. exists (c :: e). split_and!; [done| |].
        -- apply not_elem_of_cons. by split.
        -- destruct Hs as [->|[stem ->]]; [by left|].
           exfalso.
           pose proof (split_on_pieces sep (stem ++ sep :: e)) as (_&Hj&_).
           rewrite E in Hj. cbn [join] in Hj.
           apply (f_equal length) in Hj. rewrite length_app in Hj.
           cbn in Hj. lia.
      * exists e. split_and!; [done..|]. right.
        destruct Hs as [->|[stem ->]].
        -- exfalso. rewrite (split_on_no_sep sep e He) in E. done.
        -- by exists (c :: stem).
Qed.

Lemma starts_with_app p s :
  starts_with p s = true → s = p ++ drop (length p) s.
Proof.
  revert s. induction p as [|a p IH]; intros s H; [done|].
  destruct s as [|b s]; [done|]. cbn in H.
  apply andb_prop in H as [Hab H]. apply bool_decide_eq_true in Hab as ->.
  cbn. f_equal. by apply IH.
Qed.

(** ** [stripOfIllegalChars] *)

Lemma filter_all {A} (P : A → Prop) `{∀ x, Decision (P x)} (l : list A) :
  Forall P l → filter P l = l.
Proof.
  induction 1 as [|x l Hx Hl IH]; [done|].
  by rewrite filter_cons_True, IH.
Qed.

Lemma strip_fold exceptions chars value :
  foldl (λ value char,
           if excepted exceptions char then value
           else join [] (split_on char value))
        value chars
  = filter (λ c, (bool_decide (c ∈ chars) && negb (excepted exceptions c))
                 = false) value.
Proof.
  revert value. induction chars as [|ch chars IH]; intros value.
  - cbn [foldl]. symmetry. apply filter_all.
    apply Forall_forall. intros c _. rewrite bool_decide_eq_false_2; [done|].
    apply not_elem_of_nil.
  - cbn [foldl]. rewrite IH.
    destruct (excepted exceptions ch) eqn:Hex.
    + apply list_filter_iff. intros c.
      destruct (decide (c = ch)) as [->|Hne].
      * rewrite Hex, !andb_false_r. done.
      * destruct (decide (c ∈ chars)).
        -- rewrite !bool_decide_eq_true_2; [done|by right|done].
        -- rewrite !bool_decide_eq_false_2; [done| |done].
           intros [?|?]%elem_of_cons; done.
    + pose proof (split_on_pieces ch value) as (_&_&->).
      rewrite list_filter_filter. apply list_filter_iff. intros c.
      destruct (decide (c = ch)) as [->|Hne].
      * rewrite Hex. rewrite (bool_decide_eq_true_2 (ch ∈ ch :: chars))
          by by left. cbn. naive_solver.
      * destruct (decide (c ∈ chars)).
        -- rewrite !bool_decide_eq_true_2; [naive_solver|by right|done].
        -- rewrite !bool_decide_eq_false_2; [naive_solver| |done].
           intros [?|?]%elem_of_cons; done.
Qed.

Lemma stripOfIllegalChars_filter input exceptions :
  stripOfIllegalChars input exceptions
  = filter (λ c, stripped exceptions c = false) (default [] input).
Proof.
  unfold stripOfIllegalChars. rewrite strip_fold. by destruct input.
Qed.

(** X21: [stripOfIllegalChars] takes out every illegal character that is
    not excepted, and nothing else: the result is the input, in order,
    without those characters ([null] and [undefined] count as the empty
    string).  So stripping a second time changes nothing. *)
Theorem stripOfIllegalChars_takes_out_the_illegal_only input exceptions :
  stripOfIllegalChars input exceptions
  = filter (λ c, stripped exceptions c = false) (default [] input)
  ∧ stripOfIllegalChars (Some (stripOfIllegalChars input exceptions))
                        exceptions
    = stripOfIllegalChars input exceptions.
Proof.
  split; [apply stripOfIllegalChars_filter|].
  rewrite !stripOfIllegalChars_filter. cbn [from_option id].
  rewrite list_filter_filter. apply list_filter_iff. naive_solver.
Qed.

(** X22: [getLogoName] keeps what follows the last dot of the file name:
    the result is ['logo.'] and an extension without a dot, and the file
    name is that extension, or a stem, a dot and that extension.  A file
    name without a dot is taken whole. *)
Theorem getLogoName_keeps_the_last_extension fileName :
  ∃ ext,
    getLogoName fileName = js "logo." ++ ext ∧ (dot ∉ ext)
    ∧ (fileName = ext ∨ ∃ stem, fileName = stem ++ dot :: ext).
Proof.
  destruct (split_on_last dot fileName) as (e&Hl&He&Hs).
  exists e. unfold getLogoName, pop. cbn [snd]. rewrite Hl. done.
Qed.

(** ** [pathToRoute] *)

Lemma starts_with_prefix p s : starts_with p (p ++ s) = true.
Proof.
  induction p as [|a p IH]; [done|]. cbn.
  by rewrite bool_decide_eq_true_2, IH.
Qed.

Lemma starts_with_split (p : list N) sep s :
  sep ∉ p → starts_with (p ++ [sep]) s = true →
  ∃ rest, split_on sep s = p :: rest ∧ rest ≠ [].
Proof.
  intros Hp H. apply starts_with_app in H.
  rewrite <- (assoc_L (++)) in H. cbn [app] in H.
  exists (split_on sep (drop (length (p ++ [sep])) s)).
  split; [|apply split_on_not_nil].
  rewrite H at 1. by apply split_on_app.
Qed.

Lemma split_on_join sep segs :
  segs ≠ [] → Forall (λ seg, sep ∉ seg) segs →
  split_on sep (join [sep] segs) = segs.
Proof.
  induction segs as [|a segs IH]; intros Hne HF; [done|].
  apply Forall_cons in HF as [Ha HF]. destruct segs as [|b segs].
  - cbn [join]. by apply split_on_no_sep.
  - rewrite join_cons. cbn [app]. rewrite split_on_app by done.
    by rewrite IH.
Qed.

Lemma normalize_separators_id seg :
  backslash ∉ seg → normalize_separators seg = seg.
Proof.
  intros H. unfold normalize_separators.
  induction seg as [|c seg IH]; [done|].
  apply not_elem_of_cons in H as [Hc H]. cbn [fmap list_fmap].
  rewrite decide_False by done. f_equal. by apply IH.
Qed.

Lemma normalize_separators_join sep segs :
  sep = slash ∨ sep = backslash → Forall (λ seg, backslash ∉ seg) segs →
  normalize_separators (join [sep] segs) = join [slash] segs.
Proof.
  intros Hsep HF. induction segs as [|a segs IH]; [done|].
  apply Forall_cons in HF as [Ha HF]. destruct segs as [|b segs].
  - cbn [join]. by apply normalize_separators_id.
  - rewrite !join_cons. unfold normalize_separators in *.
    rewrite !fmap_app, IH by done.
    fold (normalize_separators a). rewrite normalize_separators_id by done.
    do 2 f_equal. by destruct Hsep as [->| ->].
Qed.

(** X23: the route is made of segments of the path.  A path under
    [stores/] always gets the route of its second segment; a path under
    [data/] gets the home route or a [/Brand] route of one to four of the
    segments that follow [data], in order, never the last segment of the
    path; any other path gets the home route.  An absent segment is never
    printed. *)
Theorem route_is_made_of_path_segments filePath :
  let normalizedPath := normalize_separators filePath in
  let parts := split_on slash normalizedPath in
  (starts_with (js "stores/") normalizedPath = true →
   ∃ name, parts !! 1%nat = Some name
           ∧ pathToRoute filePath = js "/Store/" ++ name)
  ∧ (starts_with (js "stores/") normalizedPath = false →
     starts_with (js "data/") normalizedPath = true →
     pathToRoute filePath = js "/"
     ∨ ∃ ids, (1 ≤ length ids ≤ 4)%nat
              ∧ (length ids + 2 ≤ length parts)%nat
              ∧ ids `prefix_of` drop 1 parts
              ∧ pathToRoute filePath = js "/Brand/" ++ join (js "/") ids)
  ∧ (starts_with (js "stores/") normalizedPath = false →
     starts_with (js "data/") normalizedPath = false →
     pathToRoute filePath = js "/").
Proof.
  intros normalizedPath parts. split_and!.
  - intros Hs.
    destruct (starts_with_split (js "stores") slash normalizedPath)
      as (rest&Hp&Hne); [apply (bool_decide_unpack _); by vm_compute|done|].
    destruct rest as [|name rest]; [done|]. exists name.
    unfold pathToRoute. fold normalizedPath. fold parts.
    subst parts. rewrite Hs, Hp. done.
  - intros Hs Hd. unfold pathToRoute. fold normalizedPath. fold parts.
    rewrite Hs, Hd. clearbody parts. clear.
    destruct parts as [|p0 [|p1 [|p2 [|p3 [|p4 [|p5 rest]]]]]];
      [by left|by left|by left
      |right; exists [p1]; split_and!; [cbn; lia..|by eexists|done]
      |right; exists [p1; p2]; split_and!; [cbn; lia..|by eexists|done]
      |right; exists [p1; p2; p3]; split_and!; [cbn; lia..|by eexists|done]
      |].
    cbn [lookup list_lookup length].
    destruct (decide (p5 = js "brand.json")) as [->|H1].
    { right. exists [p1]. split_and!; [cbn; lia..|by eexists|done]. }
    rewrite (bool_decide_eq_false_2 (Some p5 = Some (js "brand.json")))
      by congruence.
    rewrite (bool_decide_eq_false_2 (_ = 3%nat)) by lia. cbn [orb].
    destruct (decide (p5 = js "material.json")) as [->|H2].
    { right. exists [p1; p2]. split_and!; [cbn; lia..|by eexists|done]. }
    rewrite (bool_decide_eq_false_2 (Some p5 = Some (js "material.json")))
      by congruence.
    rewrite (bool_decide_eq_false_2 (_ = 4%nat)) by lia. cbn [orb].
    destruct (decide (p5 = js "filament.json")) as [->|H3].
    { right. exists [p1; p2; p3].
      split_and!; [cbn; lia..|by eexists|done]. }
    rewrite (bool_decide_eq_false_2 (Some p5 = Some (js "filament.json")))
      by congruence.
    rewrite (bool_decide_eq_false_2 (_ = 5%nat)) by lia. cbn [orb].
    destruct (bool_decide (Some p5 = Some (js "variant.json"))
              || bool_decide (Some p5 = Some (js "sizes.json"))
              || bool_decide (S (S (S (S (S (S (length rest)))))) = 6%nat));
      [|by left].
    right. exists [p1; p2; p3; p4].
    split_and!; [cbn; lia..|by eexists|done].
  - intros Hs Hd. unfold pathToRoute. fold normalizedPath.
    by rewrite Hs, Hd.
Qed.

Lemma route_is_made_of_path_segments_witness :
  starts_with (js "stores/")
    (normalize_separators (js "stores/amazon/store.json")) = true
  ∧ pathToRoute (js "stores/amazon/store.json") = js "/Store/amazon"
  ∧ pathToRoute sample_path = js "/Brand/bambu_lab/PLA/basic_pla/white"
  ∧ pathToRoute (js "README.md") = js "/".
Proof.
  split; [reflexivity|].
  destruct (route_is_made_of_path_segments (js "stores/amazon/store.json"))
    as (Hstores&_&_).
  destruct (Hstores eq_refl) as (name&Hname&->).
  split; [by injection Hname as <-|].
  split; [reflexivity|].
  exact (proj2 (proj2 (route_is_made_of_path_segments (js "README.md")))
               eq_refl eq_refl).
Defined.

Lemma pathToRoute_parts sep top segs :
  sep = slash ∨ sep = backslash →
  Forall (λ seg, (slash ∉ seg) ∧ (backslash ∉ seg)) (top :: segs) →
  segs ≠ [] →
  normalize_separators (join [sep] (top :: segs))
  = (top ++ [slash]) ++ join [slash] segs
  ∧ split_on slash (normalize_separators (join [sep] (top :: segs)))
    = top :: segs.
Proof.
  intros Hsep HF Hne.
  rewrite normalize_separators_join;
    [|done|by eapply Forall_impl; [exact HF|]; intros ? [??]].
  split.
  - destruct segs; [done|]. by rewrite join_cons, (assoc_L (++)).
  - apply split_on_join; [done|].
    by eapply Forall_impl; [exact HF|]; intros ? [??].
Qed.

(** X24: the routes of the files of the data tree.  With either separator
    and segments that hold none, [stores/s/<file>] gives [/Store/s];
    [data/b/<file>], [data/b/m/<file>] and [data/b/m/f/<file>] give the
    brand, material and filament routes whatever the file; and
    [data/b/m/f/v/<file>] gives the variant route unless the file is named
    [brand.json], [material.json] or [filament.json], which give the route
    of that level. *)
Theorem routes_of_the_data_tree sep s b m f v file :
  sep = slash ∨ sep = backslash →
  Forall (λ seg, (slash ∉ seg) ∧ (backslash ∉ seg)) [s; b; m; f; v; file] →
  pathToRoute (join [sep] [js "stores"; s; file]) = js "/Store/" ++ s
  ∧ pathToRoute (join [sep] [js "data"; b; file]) = js "/Brand/" ++ b
  ∧ pathToRoute (join [sep] [js "data"; b; m; file])
    = js "/Brand/" ++ b ++ js "/" ++ m
  ∧ pathToRoute (join [sep] [js "data"; b; m; f; file])
    = js "/Brand/" ++ b ++ js "/" ++ m ++ js "/" ++ f
  ∧ pathToRoute (join [sep] [js "data"; b; m; f; v; file])
    = if decide (file = js "brand.json") then js "/Brand/" ++ b
      else if decide (file = js "material.json")
      then js "/Brand/" ++ b ++ js "/" ++ m
      else if decide (file = js "filament.json")
      then js "/Brand/" ++ b ++ js "/" ++ m ++ js "/" ++ f
      else js "/Brand/" ++ b ++ js "/" ++ m ++ js "/" ++ f ++ js "/" ++ v.
Proof.
  intros Hsep HF.
  apply Forall_cons in HF as [Hs HF]. apply Forall_cons in HF as [Hb HF].
  apply Forall_cons in HF as [Hm HF]. apply Forall_cons in HF as [Hf HF].
  apply Forall_cons in HF as [Hv HF]. apply Forall_cons in HF as [Hfile _].
  assert ((slash ∉ js "stores") ∧ (backslash ∉ js "stores")) as Hstores.
  { split; apply (bool_decide_unpack _); by vm_compute. }
  assert ((slash ∉ js "data") ∧ (backslash ∉ js "data")) as Hdata.
  { split; apply (bool_decide_unpack _); by vm_compute. }
  assert (∀ rest, starts_with (js "stores/") ((js "data" ++ [slash]) ++ rest)
                  = false) as Hno by done.
  assert (∀ rest, starts_with (js "data/") ((js "data" ++ [slash]) ++ rest)
                  = true) as Hyes by (intros; apply starts_with_prefix).
  split_and!.
  - destruct (pathToRoute_parts sep (js "stores") [s; file] Hsep)
      as [Hn Hp]; [by repeat (apply Forall_cons; split; [done|])|done|].
    unfold pathToRoute. rewrite Hp, Hn.
    change (js "stores/") with (js "stores" ++ [slash]).
    by rewrite starts_with_prefix.
  - destruct (pathToRoute_parts sep (js "data") [b; file] Hsep)
      as [Hn Hp]; [by repeat (apply Forall_cons; split; [done|])|done|].
    unfold pathToRoute. rewrite Hp, Hn, Hno, Hyes. done.
  - destruct (pathToRoute_parts sep (js "data") [b; m; file] Hsep)
      as [Hn Hp]; [by repeat (apply Forall_cons; split; [done|])|done|].
    unfold pathToRoute. rewrite Hp, Hn, Hno, Hyes. done.
  - destruct (pathToRoute_parts sep (js "data") [b; m; f; file] Hsep)
      as [Hn Hp]; [by repeat (apply Forall_cons; split; [done|])|done|].
    unfold pathToRoute. rewrite Hp, Hn, Hno, Hyes. done.
  - destruct (pathToRoute_parts sep (js "data") [b; m; f; v; file] Hsep)
      as [Hn Hp]; [by repeat (apply Forall_cons; split; [done|])|done|].
    unfold pathToRoute. rewrite Hp, Hn, Hno, Hyes.
    cbn [lookup list_lookup length].
    destruct (decide (file = js "brand.json")) as [->|H1].
    { by rewrite bool_decide_eq_true_2. }
    rewrite (bool_decide_eq_false_2 (Some file = Some (js "brand.json")))
      by congruence.
    rewrite (bool_decide_eq_false_2 (_ = 3%nat)) by lia. cbn [orb].
    destruct (decide (file = js "material.json")) as [->|H2].
    { by rewrite bool_decide_eq_true_2. }
    rewrite (bool_decide_eq_false_2 (Some file = Some (js "material.json")))
      by congruence.
    rewrite (bool_decide_eq_false_2 (_ = 4%nat)) by lia. cbn [orb].
    destruct (decide (file = js "filament.json")) as [->|H3].
    { by rewrite bool_decide_eq_true_2. }
    rewrite (bool_decide_eq_false_2 (Some file = Some (js "filament.json")))
      by congruence.
    rewrite (bool_decide_eq_false_2 (_ = 5%nat)) by lia. cbn [orb].
    rewrite (bool_decide_eq_true_2 (_ = 6%nat)) by done.
    by rewrite !orb_true_r.
Qed.

Lemma routes_of_the_data_tree_witness :
  pathToRoute sample_path = js "/Brand/bambu_lab/PLA/basic_pla/white"
  ∧ pathToRoute (js "data/bambu_lab/PLA/basic_pla/white/brand.json")
    = js "/Brand/bambu_lab".
Proof.
  assert (Forall (λ seg, (slash ∉ seg) ∧ (backslash ∉ seg))
            [js "amazon"; js "bambu_lab"; js "PLA"; js "basic_pla";
             js "white"; js "variant.json"]) as HF.
  { repeat constructor; apply (bool_decide_unpack _); by vm_compute. }
  assert (Forall (λ seg, (slash ∉ seg) ∧ (backslash ∉ seg))
            [js "amazon"; js "bambu_lab"; js "PLA"; js "basic_pla";
             js "white"; js "brand.json"]) as HF'.
  { repeat constructor; apply (bool_decide_unpack _); by vm_compute. }
  split.
  - exact (proj2 (proj2 (proj2 (proj2
             (routes_of_the_data_tree backslash _ _ _ _ _ _
                (or_intror eq_refl) HF))))).
  - exact (proj2 (proj2 (proj2 (proj2
             (routes_of_the_data_tree slash _ _ _ _ _ _
                (or_introl eq_refl) HF'))))).
Defined.

(** ** [errorsByCategory] *)









(** ** The standard error of a run *)





Lemma parse_remaining_fields l :
  stderrBuffer (parse_remaining l) = stderrBuffer l
  ∧ job (parse_remaining l) = job l.
Proof. unfold parse_remaining. by repeat case_match. Qed.





(** * The bytes of the output *)

(** C9: the events depend on where the output is cut.  The same bytes, a
    progress line whose message ends in the two-byte character U+00E9, give
    an event with that message when they arrive in one chunk, and an event
    whose message ends in two U+FFFD when the chunk boundary falls between
    the two bytes: each chunk is decoded on its own. *)
Theorem cut_inside_a_character_changes_the_events :
  ∃ v v',
    Job.events <$> job_at (state_after accent_whole) 0
    = Some [progress_event v]
    ∧ JSON.prop v (js "message") = Some (JString (js "caf" ++ [233%N]))
    ∧ Job.events <$> job_at (state_after accent_cut) 0
      = Some [progress_event v']
    ∧ JSON.prop v' (js "message")
      = Some (JString (js "caf" ++ [replacement; replacement])).
Proof. eexists _, _. vm_compute. by repeat split. Qed.

Example Buffer_toString_samples :
  Buffer_toString [226; 130; 172]%N = [8364]%N
  ∧ Buffer_toString [240; 159; 152; 128]%N = [55357; 56832]%N
  ∧ Buffer_toString [226; 130]%N = [replacement]
  ∧ Buffer_toString [192; 128]%N = [replacement; replacement]
  ∧ Buffer_toString [237; 160; 128]%N
    = [replacement; replacement; replacement]
  ∧ Buffer_toString [226; 65]%N = [replacement; 65%N].
Proof. by repeat split. Qed.

Lemma Buffer_toString_ascii data :
  Forall (λ b, (b < 128)%N) data → Buffer_toString data = data.
Proof.
  unfold Buffer_toString. induction 1 as [|b data Hb _ IH]; [done|].
  cbn [utf8_decode utf8_initial bytes_needed]. cbn [N.eqb].
  unfold utf8_lead. rewrite (proj2 (N.leb_le b 127)) by lia.
  cbn [app]. by rewrite IH.
Qed.

(** X27: output in ASCII can be cut anywhere.  When all the bytes of the
    chunks are below 128, delivering the chunks one after the other leaves
    the serving process in the very state that delivering their
    concatenation in one chunk does: the same events in the same order, the
    same captured final result, the same rest in the buffer. *)
Theorem ascii_output_can_be_cut_anywhere s p t c (cs : list (Z * list N)) t' :
  Forall (λ b, (b < 128)%N) (c ++ concat (snd <$> cs)) →
  run s ((λ tc, (tc.1, stdout_chunk p tc.2)) <$> ((t, c) :: cs))
  = step t' (stdout_chunk p (c ++ concat (snd <$> cs))) s.
Proof.
  intros Hascii. unfold stdout_chunk.
  rewrite (Buffer_toString_ascii _ Hascii).
  assert ((λ tc : Z * list N, (tc.1, stdout_data p (Buffer_toString tc.2)))
            <$> ((t, c) :: cs)
          = (λ tc, (tc.1, stdout_data p tc.2)) <$> ((t, c) :: cs)) as ->.
  { apply Forall_fmap_ext.
    assert (Forall (λ tc : Z * list N, Forall (λ b, (b < 128)%N) tc.2)
              ((t, c) :: cs)) as Hall.
    { apply Forall_app in Hascii as [Hc Hcs]. constructor; [done|].
      clear Hc. induction cs as [|[t0 c0] cs IH]; [done|].
      cbn [fmap list_fmap snd concat] in Hcs.
      apply Forall_app in Hcs as [H0 Hcs]. constructor; [done|by apply IH]. }
    eapply Forall_impl; [exact Hall|]. intros [t0 c0] H0. cbn [fst snd] in *.
    by rewrite Buffer_toString_ascii. }
  destruct (listening s p) as [l|] eqn:Hl.
  - rewrite (run_stdout_chunks _ _ _ _ _ _ Hl).
    by rewrite (step_stdout_data _ _ _ _ _ Hl).
  - rewrite fmap_cons, run_cons. cbn. by rewrite Hl.
Qed.

Lemma ascii_output_can_be_cut_anywhere_witness :
  run (state_after (launch_at 0))
      ((λ tc, (tc.1, stdout_chunk 0 tc.2)) <$> ascii_chunks)
  = step 5 (stdout_chunk 0 (concat (snd <$> ascii_chunks)))
         (state_after (launch_at 0)).
Proof.
  apply (ascii_output_can_be_cut_anywhere (state_after (launch_at 0)) 0 6
           (jq "{'type': 'progress', 'mess")
           [(7, jq "age': 'Checking'}" ++ nl)] 5).
  apply (bool_decide_unpack _). by vm_compute.
Defined.

(** * The job at the exit of its process *)

(** A job without a process handle was never spawned: it has no listeners
    and cannot become [complete]. *)
Lemma no_handle_never_spawned s a l :
  reachable s → store s !! a = Some l → Job.process (job l) = None →
  attached l = false ∧ Job.status (job l) ≠ complete.
Proof.
  revert s a l.
  apply (reachable_launch_ind
           (λ l, Job.process (job l) = None
                 → attached l = false ∧ Job.status (job l) ≠ complete)).
  - intros l (jobId&t&now&a&spawns&->&_). unfold fresh_launch.
    by destruct spawns.
  - intros l l' Hc IH Hnone.
    assert (Job.process (job l) = None) as Hn.
    { destruct (Job.process (job l)) as [h|] eqn:Hh; [|done].
      pose proof (ev_process _ _ (change_evolves _ _ Hc) h Hh). congruence. }
    destruct (IH Hn) as [Ha Hs].
    destruct Hc as [l d Hat|l d Hat|l now m Hat _|l now c Hat|l now Hr];
      [congruence..|]. done.
Qed.

Lemma on_close_fields now code l :
  attached (on_close now code l) = false
  ∧ Job.terminal (job (on_close now code l)) = true
  ∧ Job.process (job (on_close now code l)) = Job.process (job l)
  ∧ Job.endTime (job (on_close now code l)) = Some now.
Proof.
  unfold on_close. destruct (parse_remaining_fields l) as [_ Hj].
  destruct (normal_exit code); cbn; by rewrite Hj.
Qed.

Lemma step_close now s p code l :
  listening s p = Some l →
  ∃ s1 out1,
    step now (process_close p code) s = Some (s1, out1)
    ∧ store s1 !! p = Some (on_close now code l).
Proof.
  intros Hl. pose proof Hl as Hl0. apply listening_Some in Hl0 as [Hp Ha].
  cbn [step]. rewrite Hl. cbn.
  destruct (Job.type (job l)); eexists _, _; (split; [done|]);
    cbn [store releaseValidationLock set_validationLock];
    by rewrite store_update, list_lookup_alter_eq, Hp.
Qed.

(** C5, as the code has it: in every reachable state a job in terminal
    status has its [endTime].  A process handle is never cleared: a
    [complete] job still holds one; whatever handle a job holds, running or
    not, it holds the same one after any further run; and the close
    listener itself, which makes the job terminal, leaves the handle on
    it. *)
Theorem terminal_job_has_endTime_and_keeps_handle s a l :
  reachable s → store s !! a = Some l →
  (Job.terminal (job l) = true → is_Some (Job.endTime (job l)))
  ∧ (Job.status (job l) = complete → is_Some (Job.process (job l)))
  ∧ (∀ h tr s' out,
       Job.process (job l) = Some h → run s tr = Some (s', out) →
       ∃ l', store s' !! a = Some l' ∧ Job.process (job l') = Some h)
  ∧ (∀ now code h,
       listening s a = Some l → Job.process (job l) = Some h →
       ∃ s1 out1 l1,
         step now (process_close a code) s = Some (s1, out1)
         ∧ store s1 !! a = Some l1
         ∧ Job.terminal (job l1) = true ∧ attached l1 = false
         ∧ Job.process (job l1) = Some h).
Proof.
  intros Hs Hl. split_and!.
  - intros Ht. by apply (reachable_settled s a l).
  - intros Hc. destruct (Job.process (job l)) as [h|] eqn:Hh; [by eexists|].
    by destruct (no_handle_never_spawned s a l Hs Hl Hh).
  - intros h tr s' out Hh Hr.
    destruct (run_evolves _ _ _ _ _ _ Hr Hl) as (l'&Hl'&Hev).
    exists l'. split; [done|]. by apply (ev_process _ _ Hev).
  - intros now code h Hli Hh.
    destruct (step_close now s a code l Hli) as (s1&out1&Hs1&Hl1).
    destruct (on_close_fields now code l) as (Ha&Ht&Hp&_).
    exists s1, out1, (on_close now code l).
    split_and!; [done..|]. by rewrite Hp.
Qed.

Lemma terminal_job_has_endTime_and_keeps_handle_witness :
  reachable (state_after (launch_at 0))
  ∧ ∃ l,
      store (state_after (launch_at 0)) !! 0%nat = Some l
      ∧ Job.process (job l) = Some 0%nat
      ∧ ∃ s1 out1 l1,
          step 5 (process_close 0 (Some 0)) (state_after (launch_at 0))
          = Some (s1, out1)
          ∧ store s1 !! 0%nat = Some l1
          ∧ Job.terminal (job l1) = true
          ∧ Job.process (job l1) = Some 0%nat.
Proof.
  split; [apply reachable_state_after|].
  eexists. split; [reflexivity|]. split; [reflexivity|].
  destruct (terminal_job_has_endTime_and_keeps_handle
              (state_after (launch_at 0)) 0 _
              (reachable_state_after (launch_at 0)) eq_refl)
    as (_&_&_&Hclose).
  destruct (Hclose 5 (Some 0) 0%nat eq_refl eq_refl)
    as (s1&out1&l1&Hs1&Hl1&Ht&_&Hp).
  by exists s1, out1, l1.
Defined.

Lemma handle_line_passed_over t x line :
  passed_over t line →
  finalResult (handle_line t x line) = finalResult x.
Proof.
  intros Hpo. unfold handle_line.
  destruct (negb (truthy_string (trim line))); [done|].
  destruct (JSON.parse line) as [v|] eqn:Hv; [|done].
  destruct (Hpo v Hv) as [Hp|Hm].
  - rewrite Hp. by destruct v.
  - rewrite Hm. destruct v; try done; by destruct (is_progress _).
Qed.

Lemma handle_lines_passed_over t lines x :
  Forall (passed_over t) lines →
  finalResult (foldl (handle_line t) x lines) = finalResult x.
Proof.
  intros HF. revert x. induction HF as [|line lines Hl _ IH]; intros x.
  - done.
  - cbn [foldl]. by rewrite IH, handle_line_passed_over.
Qed.

(** After output without a result, nothing is captured and the rest of the
    buffer will not be taken as a result either. *)
Lemma on_stdout_data_no_result text l :
  stdoutBuffer l = [] → no_result_in (Job.type (job l)) text →
  finalResult (parse_remaining (on_stdout_data text l)) = finalResult l.
Proof.
  intros Hb [Hlines Hrest].
  assert (stdoutBuffer (on_stdout_data text l)
          = or_empty (pop (split_nl text)).2
          ∧ finalResult (on_stdout_data text l) = finalResult l) as [Eb Ef].
  { unfold on_stdout_data. rewrite Hb. cbn [app].
    destruct (pop (split_nl text)) as [lines rest]. cbn [fst snd] in *.
    rewrite handle_lines_set_stdoutBuffer. cbn [stdoutBuffer finalResult
      set_stdoutBuffer]. by rewrite handle_lines_passed_over. }
  unfold parse_remaining. rewrite Eb.
  destruct Hrest as [-> | ->]; [done|].
  by destruct (truthy_string _).
Qed.

Lemma on_close_normal now code x :
  normal_exit code = true →
  Job.status (job (on_close now code x)) = complete
  ∧ Job.result (job (on_close now code x))
    = Some (finalResult (parse_remaining x)).
Proof. intros Hn. unfold on_close. by rewrite Hn. Qed.

(** C2, as the code has it: when the process of a job closes, exit code 0
    or 1 makes the job [complete] and sets [result] to the final result as
    the listener finds it: the value of the rest of the buffer when that is
    not blank and parses, and otherwise what had been captured before the
    close; the completion event carrying the same value is appended.  Any
    other code, or no code at all, makes the job [error] and leaves
    [result] alone.  The job does not change in any later state.  The
    result is [null] when nothing was captured: for a job with an empty
    buffer and no captured result, as at its launch, any chunks of output
    without a result followed by exit code 0 or 1 give a [complete] job
    whose [result] is [null]. *)
Theorem exit_code_decides_final_status now s p code l :
  listening s p = Some l →
  (∃ s1 out1 l1,
     step now (process_close p code) s = Some (s1, out1)
     ∧ store s1 !! p = Some l1
     ∧ (code = Some 0 ∨ code = Some 1 →
        Job.status (job l1) = complete
        ∧ Job.result (job l1) = Some (finalResult l1)
        ∧ Job.events (job l1)
          = Job.events (job l) ++ [complete_event (finalResult l1)]
        ∧ (trim (stdoutBuffer l) = []
           ∨ JSON.parse (trim (stdoutBuffer l)) = None →
           Job.result (job l1) = Some (finalResult l))
        ∧ (∀ v, trim (stdoutBuffer l) ≠ [] →
                JSON.parse (trim (stdoutBuffer l)) = Some v →
                Job.result (job l1) = Some v))
     ∧ (code ≠ Some 0 → code ≠ Some 1 →
        Job.status (job l1) = error
        ∧ Job.result (job l1) = Job.result (job l))
     ∧ Job.endTime (job l1) = Some now
     ∧ ∀ tr s2 out2, run s1 tr = Some (s2, out2) → store s2 !! p = Some l1)
  ∧ ∀ t c (cs : list (Z * list N)),
      stdoutBuffer l = [] → finalResult l = JNull →
      no_result_in (Job.type (job l)) (c ++ concat (snd <$> cs)) →
      code = Some 0 ∨ code = Some 1 →
      ∃ s2 out2 l2,
        run s (((λ tc, (tc.1, stdout_data p tc.2)) <$> ((t, c) :: cs))
               ++ [(now, process_close p code)])
        = Some (s2, out2)
        ∧ store s2 !! p = Some l2
        ∧ Job.status (job l2) = complete
        ∧ Job.result (job l2) = Some JNull.
Proof.
  intros Hl. split.
  - destruct (step_close now s p code l Hl) as (s1&out1&Hs&Hl1).
    exists s1, out1, (on_close now code l). split_and!; [done..| | | |].
    + intros Hcode.
      assert (normal_exit code = true) as Hn by by destruct Hcode as [->| ->].
      destruct (parse_remaining_fields l) as [_ Hj].
      unfold on_close. rewrite Hn. cbn. rewrite Hj.
      split_and!; [done..| |].
      * unfold parse_remaining. intros [-> | ->]; [done|].
        by destruct (truthy_string _).
      * intros v Hne Hv. unfold parse_remaining. rewrite Hv.
        by destruct (trim (stdoutBuffer l)).
    + intros H0 H1.
      assert (normal_exit code = false) as Hn.
      { destruct code as [z|]; [|done]. cbn.
        rewrite !bool_decide_eq_false_2; [done|congruence..]. }
      destruct (parse_remaining_fields l) as [_ Hj].
      unfold on_close. rewrite Hn. cbn. by rewrite Hj.
    + by destruct (on_close_fields now code l) as (_&_&_&?).
    + intros tr s2 out2 Hr.
      destruct (on_close_fields now code l) as (Ha&Ht&_&_).
      by apply (closed_terminal_job_frozen _ _ _ _ _ _ Hr Hl1).
  - intros t c cs Hb Hf Hno Hcode.
    set (text := c ++ concat (snd <$> cs)) in *.
    pose proof (run_stdout_chunks s p t c cs l Hl) as Hrun. fold text in Hrun.
    pose proof (listening_update s p (on_stdout_data text) l Hl
                  (on_stdout_data_attached text)) as Hl'.
    destruct (step_close now _ p code _ Hl') as (s2&out2&Hs2&Hl2).
    exists s2, out2, (on_close now code (on_stdout_data text l)).
    split_and!.
    + rewrite (run_app _ _ _ _ _ Hrun), run_cons, Hs2. cbn.
      by rewrite app_nil_r.
    + done.
    + assert (normal_exit code = true) as Hn by by destruct Hcode as [->| ->].
      by destruct (on_close_normal now code (on_stdout_data text l) Hn).
    + assert (normal_exit code = true) as Hn by by destruct Hcode as [->| ->].
      destruct (on_close_normal now code (on_stdout_data text l) Hn)
        as [_ ->].
      by rewrite (on_stdout_data_no_result text l Hb Hno), Hf.
Qed.

Lemma exit_code_decides_final_status_witness :
  is_Some (listening (state_after (launch_at 0)) 0)
  ∧ no_result_in validation (concat (snd <$> noise_chunks))
  ∧ ∃ s2 out2 l2,
      run (state_after (launch_at 0))
          (((λ tc, (tc.1, stdout_data 0 tc.2)) <$> noise_chunks)
           ++ [(5, process_close 0 (Some 1))])
      = Some (s2, out2)
      ∧ store s2 !! 0%nat = Some l2
      ∧ Job.status (job l2) = complete
      ∧ Job.result (job l2) = Some JNull.
Proof.
  split; [by eexists|].
  assert (no_result_in validation (concat (snd <$> noise_chunks))) as Hno.
  { split.
    - constructor; [|constructor].
      intros v Hv. vm_compute in Hv. discriminate.
    - right. by vm_compute. }
  split; [exact Hno|].
  exact (proj2 (exit_code_decides_final_status 5 (state_after (launch_at 0))
                  0 (Some 1) _ eq_refl)
               3 (js "Validating fol")
               [(4, js "der names..." ++ nl ++ js "done")]
               eq_refl eq_refl Hno (or_intror eq_refl)).
Defined.
